(** * A shallow embedding of the decoration container (src/src/decoration.ts)

    Positions, lengths and sizes are JavaScript numbers that only ever hold
    integers here; they are modelled by [Z].  Arrays are lists.  Objects that
    the program compares by reference ([DecorationSet] nodes, descriptors,
    widgets, [LocalSet] cursors) carry the address they were allocated at, and
    every [new] draws a fresh address from a counter threaded through the
    allocation monad [M].  Exceptions are results of that monad. *)

From Stdlib Require Import ZArith List Bool String Lia Arith.
From Stdlib Require Import Permutation.
Import ListNotations.
Local Open Scope Z_scope.

(* ================================================================== *)
(** ** JavaScript numbers and arrays *)

Module JS.

(** ToInt32, the conversion that [>>] and [<<] apply to their operands. *)
Definition toInt32 (x : Z) : Z := (x + 2 ^ 31) mod 2 ^ 32 - 2 ^ 31.

(** [x >> k] *)
Definition sar (x k : Z) : Z := Z.shiftr (toInt32 x) k.

(** [x << k] *)
Definition shl (x k : Z) : Z := toInt32 (Z.shiftl (toInt32 x) k).

(** [a.slice(0, n)] *)
Definition slice0 {A} (n : nat) (a : list A) : list A := firstn n a.

(** [a.slice(i, j)] for [0 <= i]. *)
Definition slice {A} (i j : nat) (a : list A) : list A :=
  firstn (j - i) (skipn i a).

(** [a.splice(i, del, ...ins)] for [0 <= i <= a.length]: the array left. *)
Definition splice {A} (i del : nat) (ins a : list A) : list A :=
  firstn i a ++ ins ++ skipn (i + del) a.

(** [a[i] = x] for [i < a.length]. *)
Fixpoint set_nth {A} (i : nat) (x : A) (a : list A) : list A :=
  match a, i with
  | [], _ => []
  | _ :: t, O => x :: t
  | h :: t, S i' => h :: set_nth i' x t
  end.

(** [a.pop()]: the array left and the element removed. *)
Definition pop {A} (a : list A) : list A * option A :=
  (removelast a, last (map Some a) None).

(** [Math.max] on integers. *)
Definition max := Z.max.
Definition min := Z.min.

(** [Array.prototype.sort(cmp)]: a stable sort (ECMAScript 2019), here by
    insertion from the right; [cmp a b > 0] puts [b] before [a]. *)
Fixpoint sort_insert {A} (cmp : A -> A -> Z) (x : A) (l : list A) : list A :=
  match l with
  | [] => [x]
  | y :: t => if cmp x y >? 0 then y :: sort_insert cmp x t else x :: l
  end.

Definition sort {A} (cmp : A -> A -> Z) (l : list A) : list A :=
  fold_right (sort_insert cmp) [] l.

End JS.

(* ================================================================== *)
(** ** Allocation and exceptions *)

Inductive Error :=
| OutOfFuel          (* the model's loop bound was reached, not a JS event *)
| RangeError         (* thrown by Decoration.range *)
| TypeError          (* a property read on undefined *)
| SharedArrayWrite.  (* a write to the module-level noDecorations array,
                        which this model keeps constant *)

Inductive Res (A : Type) :=
| Ok (a : A) (next : N)
| Throw (e : Error).
Arguments Ok {A} a next.
Arguments Throw {A} e.

(** A computation reads the next free address and returns a value with the
    new next free address, or throws. *)
Definition M (A : Type) : Type := N -> Res A.

Definition ret {A} (a : A) : M A := fun n => Ok a n.

Definition bind {A B} (c : M A) (k : A -> M B) : M B :=
  fun n => match c n with
           | Ok a n' => k a n'
           | Throw e => Throw e
           end.

Definition throw {A} (e : Error) : M A := fun _ => Throw e.

(** The address of a newly allocated object. *)
Definition alloc : M N := fun n => Ok n (N.succ n).

Notation "x <- c ;; k" := (bind c (fun x => k))
  (at level 61, c at next level, right associativity).
Notation "' pat <- c ;; k" := (bind c (fun x => match x with pat => k end))
  (at level 61, pat pattern, c at next level, right associativity).

(** [for (x of l) body], threading an accumulator. *)
Fixpoint foldM {A S} (body : S -> A -> M S) (l : list A) (s : S) : M S :=
  match l with
  | [] => ret s
  | x :: t => s' <- body s x ;; foldM body t s'
  end.

(* ================================================================== *)
(** ** Changes (state module, consumed) *)

Module Change.

(** The [Change] class lives in the state package; this file uses its
    fields [from], [to], [text.length] and its method [mapPos(pos, assoc)],
    which is carried here as a function. *)
Record t := mk {
  from : Z;
  to : Z;
  text_length : Z;
  mapPos : Z -> Z -> Z
}.

End Change.

(** [mapPos(pos, changes, assoc, track = false)], l.125-131. *)
Fixpoint mapPos (pos : Z) (changes : list Change.t) (assoc : Z) (track : bool) : Z :=
  match changes with
  | [] => pos
  | change :: rest =>
      if track && (Change.from change <? pos) && (Change.to change >? pos)
      then -1
      else mapPos (Change.mapPos change pos assoc) rest assoc track
  end.

(* ================================================================== *)
(** ** Widgets, specs and descriptors *)

Module WidgetType.

(** A widget is an instance of a user subclass of [WidgetType]: [wid] is
    the object's address, [ctor] its constructor, [spec] the value it was
    built from (compared by [===]), and [estimatedHeight] the getter's
    value.  [eq] is the base class's method. *)
Record t := mk {
  wid : N;
  ctor : N;
  spec : Z;
  estimatedHeight : Z
}.

Definition eq (this : t) (spec' : Z) : bool := spec this =? spec'.

(** [compare], l.27-29. *)
Definition compare (this other : t) : bool :=
  (wid this =? wid other)%N || ((ctor this =? ctor other)%N && eq this (spec other)).

End WidgetType.

Definition Attrs := list (string * string).

(** The value of [spec.collapsed]: undefined, a boolean, or a widget. *)
Inductive Collapsed :=
| NotCollapsed
| CollapsedBool (b : bool)
| CollapsedWidget (w : WidgetType.t).

Record DecorationRangeSpec := mkRangeSpec {
  inclusiveStart : bool;
  inclusiveEnd : bool;
  attributes : option Attrs;
  class : option string;
  lineAttributes : option Attrs;
  tagName : option string;
  collapsed : Collapsed
}.

Record DecorationPointSpec := mkPointSpec {
  side : option Z;
  pointLineAttributes : option Attrs;
  widget : option WidgetType.t
}.

Definition BIG_BIAS : Z := 2000000000.

(** A string option read as a condition: absent and empty are falsy. *)
Definition truthy_string (s : option string) : bool :=
  match s with
  | Some s' => negb (String.eqb s' EmptyString)
  | None => false
  end.

Definition truthy_collapsed (c : Collapsed) : bool :=
  match c with
  | NotCollapsed => false
  | CollapsedBool b => b
  | CollapsedWidget _ => true
  end.

Definition is_some {A} (o : option A) : bool :=
  match o with Some _ => true | None => false end.

(** [o || d] on a value that is null or an object. *)
Definition or_ {A} (o : option A) (d : A) : A :=
  match o with Some x => x | None => d end.

(** The two subclasses of [DecorationDesc]; [did] is the object's address. *)
Inductive DecorationDesc :=
| RangeDesc (did : N) (spec : DecorationRangeSpec)
| PointDesc (did : N) (spec : DecorationPointSpec).

Module Desc.

Definition did (d : DecorationDesc) : N :=
  match d with RangeDesc i _ | PointDesc i _ => i end.

(** [bias], set by the constructors at l.52 and l.75. *)
Definition bias (d : DecorationDesc) : Z :=
  match d with
  | RangeDesc _ spec => if inclusiveStart spec then - BIG_BIAS else BIG_BIAS
  | PointDesc _ spec => match side spec with Some s => s | None => 0 end
  end.

(** [endBias], l.53. *)
Definition endBias (spec : DecorationRangeSpec) : Z :=
  if inclusiveEnd spec then BIG_BIAS else - BIG_BIAS.

(** [affectsSpans], l.54. *)
Definition affectsSpans (spec : DecorationRangeSpec) : bool :=
  is_some (attributes spec) || truthy_string (tagName spec)
  || truthy_string (class spec) || truthy_collapsed (collapsed spec).

End Desc.

(** What a filter sees as [deco.spec]. *)
Inductive Spec :=
| RangeSpec (s : DecorationRangeSpec)
| PointSpec (s : DecorationPointSpec).

(* ================================================================== *)
(** ** Decorations *)

Module Decoration.

Record t := mk {
  from : Z;
  to : Z;
  desc : DecorationDesc
}.

Definition spec (this : t) : Spec :=
  match desc this with
  | RangeDesc _ s => RangeSpec s
  | PointDesc _ s => PointSpec s
  end.

(** [RangeDesc.map] (l.57-60) and [PointDesc.map] (l.79-82), reached
    through [Decoration.map] (l.101-103). *)
Definition map (this : t) (changes : list Change.t) (oldOffset newOffset : Z)
  : option t :=
  match desc this with
  | RangeDesc _ spec =>
      let from' := mapPos (from this + oldOffset) changes (Desc.bias (desc this)) false in
      let to' := mapPos (to this + oldOffset) changes (Desc.endBias spec) false in
      if from' <? to'
      then Some (mk (from' - newOffset) (to' - newOffset) (desc this))
      else None
  | PointDesc _ _ =>
      let pos := mapPos (from this + oldOffset) changes (Desc.bias (desc this)) true in
      if pos =? -1 then None
      else Some (mk (pos - newOffset) (pos - newOffset) (desc this))
  end.

(** [move], l.106-108: with offset 0 the object itself. *)
Definition move (this : t) (offset : Z) : t :=
  if offset =? 0 then this
  else mk (from this + offset) (to this + offset) (desc this).

(** [Decoration.range], l.110-113. *)
Definition range (from to : Z) (spec : DecorationRangeSpec) : M t :=
  if from >=? to then throw RangeError
  else did <- alloc ;; ret (mk from to (RangeDesc did spec)).

(** [Decoration.point], l.115-117. *)
Definition point (pos : Z) (spec : DecorationPointSpec) : M t :=
  did <- alloc ;; ret (mk pos pos (PointDesc did spec)).

(** [heapPos], l.121. *)
Definition heapPos (this : t) : Z := to this.

End Decoration.

(* ================================================================== *)
(** ** The binary heap (l.440-486) *)

(** [interface Heapable { heapPos: number; desc: DecorationDesc }] *)
Class Heapable (A : Type) := {
  heapPos : A -> Z;
  desc : A -> DecorationDesc
}.

#[export] Instance Heapable_Decoration : Heapable Decoration.t := {
  heapPos := Decoration.heapPos;
  desc := Decoration.desc
}.

Section Heap.

Context {A : Type} `{Heapable A}.

(** [a - b || c - d] *)
Definition or_else (x y : Z) : Z := if x =? 0 then y else x.

(** l.440-442 *)
Definition compareHeapable (a b : A) : Z :=
  or_else (heapPos a - heapPos b) (Desc.bias (desc a) - Desc.bias (desc b)).

(** The [while (index > 0)] loop of [addToHeap]; [index >> 1 < index]
    there, so [fuel = index] iterations are never exceeded. *)
Fixpoint addToHeap_loop (fuel : nat) (heap : list A) (elt : A) (index : nat) : list A :=
  match fuel with
  | O => heap
  | S fuel' =>
      if (0 <? index)%nat then
        let parentIndex := Z.to_nat (JS.sar (Z.of_nat index) 1) in
        match nth_error heap parentIndex with
        | Some parent =>
            if compareHeapable elt parent >=? 0 then heap
            else
              let heap := JS.set_nth index parent heap in
              let heap := JS.set_nth parentIndex elt heap in
              addToHeap_loop fuel' heap elt parentIndex
        | None => heap
        end
      else heap
  end.

(** l.457-466 *)
Definition addToHeap (heap : list A) (elt : A) : list A :=
  let heap := heap ++ [elt] in
  let index := (List.length heap - 1)%nat in
  addToHeap_loop index heap elt index.

(** The [for (let index = 0;;)] loop of [takeFromHeap]; [childIndex > index]
    and the loop stops at [heap.length], so [fuel = heap.length] suffices. *)
Fixpoint takeFromHeap_loop (fuel : nat) (heap : list A) (replacement : A) (index : nat)
  : list A :=
  match fuel with
  | O => heap
  | S fuel' =>
      let childIndex := Z.to_nat (JS.shl (Z.of_nat index) 1 + 1) in
      if (List.length heap <=? childIndex)%nat then heap
      else
        match nth_error heap childIndex with
        | None => heap
        | Some child =>
            let '(child, childIndex) :=
              match nth_error heap (childIndex + 1) with
              | Some sibling =>
                  if compareHeapable child sibling >=? 0
                  then (sibling, (childIndex + 1)%nat)
                  else (child, childIndex)
              | None => (child, childIndex)
              end in
            if compareHeapable replacement child <? 0 then heap
            else
              let heap := JS.set_nth childIndex replacement heap in
              let heap := JS.set_nth index child heap in
              takeFromHeap_loop fuel' heap replacement childIndex
        end
  end.

(** l.468-486; on an empty array both [heap[0]] and [heap.pop()] are
    undefined, which is [None] here. *)
Definition takeFromHeap (heap : list A) : option A * list A :=
  match nth_error heap 0, JS.pop heap with
  | Some elt, (heap', Some replacement) =>
      match heap' with
      | [] => (Some elt, heap')
      | _ :: _ =>
          let heap' := JS.set_nth 0 replacement heap' in
          (Some elt, takeFromHeap_loop (List.length heap') heap' replacement 0)
      end
  | _, (heap', _) => (None, heap')
  end.

(** Popping until the heap is empty. *)
Fixpoint drain (fuel : nat) (heap : list A) : list A :=
  match fuel with
  | O => []
  | S fuel' =>
      match takeFromHeap heap with
      | (Some elt, heap') => elt :: drain fuel' heap'
      | (None, _) => []
      end
  end.

(** The heap property of the claim: every element is at most its children
    at [2i+1] and [2i+2]. *)
Definition heap_ordered_at (heap : list A) (i : nat) : bool :=
  match nth_error heap i with
  | None => true
  | Some x =>
      let le_child j :=
        match nth_error heap j with
        | Some c => compareHeapable x c <=? 0
        | None => true
        end in
      le_child (2 * i + 1)%nat && le_child (2 * i + 2)%nat
  end.

Definition heap_ordered (heap : list A) : bool :=
  forallb (heap_ordered_at heap) (seq 0 (List.length heap)).

End Heap.

(* ================================================================== *)
(** ** Decoration sets *)

Definition BASE_NODE_SIZE_SHIFT : Z := 5.
Definition BASE_NODE_SIZE : Z := JS.shl 1 BASE_NODE_SIZE_SHIFT.

Definition DecorationFilter := Z -> Z -> Spec -> bool.

(** l.488-490 *)
Definition byPos (a b : Decoration.t) : Z :=
  or_else (Decoration.from a - Decoration.from b)
          (Desc.bias (Decoration.desc a) - Desc.bias (Decoration.desc b)).

(** The [while] loop of [insertSorted]: the index the scan from the right
    stops at. *)
Fixpoint insertSorted_index (target : list Decoration.t) (deco : Decoration.t) (i : nat)
  : nat :=
  match i with
  | O => O
  | S i' =>
      match nth_error target i' with
      | Some prev => if byPos prev deco >=? 0 then insertSorted_index target deco i' else i
      | None => i
      end
  end.

(** l.492-496 *)
Definition insertSorted (target : list Decoration.t) (deco : Decoration.t)
  : list Decoration.t :=
  JS.splice (insertSorted_index target deco (List.length target)) 0 [deco] target.

(** The loop of [filterDecorations] from index [i] on; [copy = None] is
    [null]. *)
Fixpoint filterDecorations_loop (decorations : list Decoration.t)
    (filter : DecorationFilter) (filterFrom filterTo offset : Z)
    (i : nat) (rest : list Decoration.t) (copy : option (list Decoration.t))
  : option (list Decoration.t) :=
  match rest with
  | [] => copy
  | deco :: rest' =>
      let from := Decoration.from deco + offset in
      let to := Decoration.to deco + offset in
      if (filterFrom >? to) || (filterTo <? from) || filter from to (Decoration.spec deco)
      then filterDecorations_loop decorations filter filterFrom filterTo offset (S i) rest'
             (match copy with Some c => Some (c ++ [deco]) | None => None end)
      else filterDecorations_loop decorations filter filterFrom filterTo offset (S i) rest'
             (match copy with Some c => Some c | None => Some (JS.slice0 i decorations) end)
  end.

(** l.498-513 *)
Definition filterDecorations (decorations : list Decoration.t)
    (filter : option DecorationFilter) (filterFrom filterTo offset : Z)
  : option (list Decoration.t) :=
  match filter with
  | None => None
  | Some f => filterDecorations_loop decorations f filterFrom filterTo offset 0 decorations None
  end.

(** l.515-523 *)
Fixpoint touchesChange (from to : Z) (changes : list Change.t) : bool :=
  match changes with
  | [] => false
  | change :: rest =>
      if (Change.to change >=? from) && (Change.from change <=? to) then true
      else
        let diff := Change.text_length change - (Change.to change - Change.from change) in
        let from := if from >? Change.from change then from + diff else from in
        let to := if to >? Change.to change then to + diff else to in
        touchesChange from to rest
  end.

Module DecorationSet.

#[local] Set Warnings "-register-all".

(** A tree node; [sid] is the address of the object. *)
Inductive t := mk {
  sid : N;
  length : Z;
  size : Z;
  local : list Decoration.t;
  children : list t
}.

(** [this == other] on two nodes. *)
Definition same (a b : t) : bool := (sid a =? sid b)%N.

(** [DecorationSet.empty], l.342: allocated once, at address 0. *)
Definition empty : t := mk 0 0 0 [] [].

(** [new DecorationSet(length, size, local, children)] *)
Definition new (length size : Z) (local : list Decoration.t) (children : list t) : M t :=
  sid <- alloc ;; ret (mk sid length size local children).

(** l.237-239 *)
Definition grow (this : t) (len : Z) : M t :=
  new (length this + len) (size this) (local this) (children this).

(** l.243-249; returns the target array after the pushes. *)
Fixpoint collect (this : t) (target : list Decoration.t) (offset : Z)
  : list Decoration.t :=
  match this with
  | mk _ _ _ local children =>
      let target := target ++ List.map (fun deco => Decoration.move deco offset) local in
      (fix each (children : list t) (target : list Decoration.t) (offset : Z) :=
         match children with
         | [] => target
         | child :: rest => each rest (collect child target offset) (offset + length child)
         end) children target offset
  end.

(** The depth of a tree, as [depth] in the test file. *)
Fixpoint depth (this : t) : nat :=
  match this with
  | mk _ _ _ _ children =>
      S ((fix each (children : list t) : nat :=
            match children with
            | [] => O
            | child :: rest => Nat.max (depth child) (each rest)
            end) children)
  end.

End DecorationSet.

Definition nonempty {A} (a : list A) : bool :=
  match a with [] => false | _ => true end.

Definition len {A} (a : list A) : Z := Z.of_nat (List.length a).

(** l.525-536.  The parameter [start] is not read by the body. *)
Definition collapseSet (children : list DecorationSet.t) (local : list Decoration.t)
    (add : list Decoration.t) (start : nat) (offset length : Z) : M DecorationSet.t :=
  let mustSort := (len local >? 0) && (len add >? 0) in
  let '(local, off) :=
    fold_left (fun '(local, off) child =>
                 (DecorationSet.collect child local (- off),
                  off + DecorationSet.length child))
              children (local, 0) in
  let local :=
    fold_left (fun local added => local ++ [Decoration.move added (- offset)]) add local in
  let local := if mustSort then JS.sort byPos local else local in
  DecorationSet.new length (len local) local [].

(* ------------------------------------------------------------------ *)
(** *** update (l.158-235, 538-613)

    [updateInner], [appendDecorations] and [rebalanceChildren] call each
    other.  Each is written over [rec], the [updateInner] it calls, and
    [updateInner] ties the knot on a bound [fuel] on the call depth. *)

Definition UpdateInner :=
  DecorationSet.t -> list Decoration.t -> option DecorationFilter ->
  Z -> Z -> Z -> Z -> M DecorationSet.t.

(** [decorations.reduce((l, d) => Math.max(l, d.to), this.length)], l.162. *)
Definition maxLen (this : DecorationSet.t) (decorations : list Decoration.t) : Z :=
  fold_left (fun l d => JS.max l (Decoration.to d)) decorations (DecorationSet.length this).

(** [update], l.158-165, all four arguments given. *)
Definition update_with (rec : UpdateInner) (this : DecorationSet.t)
    (decorations : list Decoration.t) (filter : option DecorationFilter)
    (filterFrom filterTo : Z) : M DecorationSet.t :=
  rec this
      (if nonempty decorations then JS.sort byPos decorations else decorations)
      filter filterFrom filterTo 0 (maxLen this decorations).

(** The [for (; i < end; i++)] loop of [appendDecorations], l.548-552. *)
Fixpoint appendDecorations_group (group : list Decoration.t) (offset endPos : Z)
    (local add : list Decoration.t) : list Decoration.t * list Decoration.t :=
  match group with
  | [] => (local, add)
  | deco :: rest =>
      if Decoration.to deco >? endPos
      then appendDecorations_group rest offset endPos
             (insertSorted local (Decoration.move deco (- offset))) add
      else appendDecorations_group rest offset endPos local (add ++ [deco])
  end.

(** l.538-558; [fuel] bounds the iterations of the outer loop.  Returns the
    arrays [local] and [children] as the loop leaves them. *)
Fixpoint appendDecorations (rec : UpdateInner) (fuel : nat)
    (local : list Decoration.t) (children : list DecorationSet.t)
    (decorations : list Decoration.t) (start : nat)
    (offset length pos childSize : Z) {struct fuel}
  : M (list Decoration.t * list DecorationSet.t) :=
  if (Z.of_nat start <? len decorations) then
    match fuel with
    | O => throw OutOfFuel
    | S fuel' =>
        let i := start in
        let end_z := JS.min (Z.of_nat i + childSize) (len decorations) in
        let end_ := Z.to_nat end_z in
        match (if end_z =? len decorations then Some (offset + length)
               else if end_z <? 0 then None
               else option_map Decoration.from (nth_error decorations end_)) with
        | None => throw TypeError
        | Some endPos =>
            let '(local, add) :=
              appendDecorations_group (JS.slice i end_ decorations) offset endPos local [] in
            let i := Nat.max i end_ in
            if nonempty add then
              child <- rec DecorationSet.empty add None 0 0 pos (endPos - pos) ;;
              appendDecorations rec fuel' local (children ++ [child]) decorations i
                                offset length endPos childSize
            else
              appendDecorations rec fuel' local children decorations i
                                offset length pos childSize
        end
    end
  else ret (local, children).

(** The state of the loop of [rebalanceChildren].  [local] is the caller's
    array; [detached] tells that the variable [local] was rebound to the
    module-level [noDecorations] (l.599) and no longer names that array. *)
Record Rebalance := mkRebalance {
  rb_local : list Decoration.t;
  rb_detached : bool;
  rb_children : list DecorationSet.t;
  rb_i : Z;
  rb_off : Z
}.

(** The loop extending [joinTo], l.585-590: the final [joinTo], [size] and
    [length]. *)
Fixpoint rebalance_joinTo (rest : list DecorationSet.t) (childSize : Z)
    (joinTo : nat) (size length : Z) : nat * Z * Z :=
  match rest with
  | [] => (joinTo, size, length)
  | next :: rest' =>
      let totalSize := size + DecorationSet.size next in
      if totalSize >? childSize then (joinTo, size, length)
      else rebalance_joinTo rest' childSize (S joinTo) totalSize
             (length + DecorationSet.length next)
  end.

(** The loop over [local], l.595-602: what stays in [local], whether the
    variable was rebound to [noDecorations], and [joinedLocals].  After the
    rebinding the loop reads [noDecorations], which is empty. *)
Fixpoint rebalance_pull (rest : list Decoration.t) (off length : Z)
    (kept : list Decoration.t) (joinedLocals : list Decoration.t)
  : list Decoration.t * bool * list Decoration.t :=
  match rest with
  | [] => (kept, false, joinedLocals)
  | deco :: rest' =>
      if (Decoration.from deco >=? off) && (Decoration.to deco <=? off + length) then
        let joinedLocals := joinedLocals ++ [Decoration.move deco (- off)] in
        if nonempty (kept ++ rest')
        then rebalance_pull rest' off length kept joinedLocals
        else ([], true, joinedLocals)
      else rebalance_pull rest' off length (kept ++ [deco]) joinedLocals
  end.

(** One iteration of the loop of [rebalanceChildren], l.563-611, entered
    with [i < children.length]. *)
Definition rebalance_step (rec : UpdateInner) (childSize : Z) (st : Rebalance)
  : M Rebalance :=
  let children := rb_children st in
  let i := rb_i st in
  let off := rb_off st in
  match (if i <? 0 then None else nth_error children (Z.to_nat i)) with
  | None => throw TypeError
  | Some child =>
      let i_n := Z.to_nat i in
      if (DecorationSet.size child =? 0) && ((i >? 0) || (len children =? 1)) then
        (* Drop empty node *)
        let children := JS.splice i_n 1 [] children in
        let i := i - 1 in
        if i >=? 0 then
          match nth_error children (Z.to_nat i) with
          | None => throw TypeError
          | Some prev =>
              grown <- DecorationSet.grow prev (DecorationSet.length child) ;;
              ret (mkRebalance (rb_local st) (rb_detached st)
                     (JS.set_nth (Z.to_nat i) grown children) i off)
          end
        else ret (mkRebalance (rb_local st) (rb_detached st) children i off)
      else if (DecorationSet.size child >? JS.shl childSize 1)
              && (len (DecorationSet.local child) <? JS.sar (DecorationSet.length child) 1)
      then
        (* Unwrap an overly big node *)
        if rb_detached st && nonempty (DecorationSet.local child)
        then throw SharedArrayWrite
        else
          let local :=
            fold_left (fun local deco => insertSorted local (Decoration.move deco off))
                      (DecorationSet.local child) (rb_local st) in
          ret (mkRebalance local (rb_detached st)
                 (JS.splice i_n 1 (DecorationSet.children child) children) i off)
      else
        let joinable :=
          match (if negb (nonempty (DecorationSet.children child)) && (i <? len children - 1)
                 then nth_error children (S i_n) else None) with
          | Some next =>
              if (DecorationSet.size next + DecorationSet.size child <=? BASE_NODE_SIZE)
                 && negb (nonempty (DecorationSet.children next))
              then Some next else None
          | None => None
          end in
        match joinable with
        | Some next =>
            (* Join two small leaf nodes *)
            joined <- DecorationSet.new
                        (DecorationSet.length child + DecorationSet.length next)
                        (DecorationSet.size child + DecorationSet.size next)
                        (DecorationSet.local child ++
                           List.map (fun d => Decoration.move d (DecorationSet.length child))
                                    (DecorationSet.local next))
                        [] ;;
            ret (mkRebalance (rb_local st) (rb_detached st)
                   (JS.splice i_n 2 [joined] children) i
                   (off + (DecorationSet.length child + DecorationSet.length next)))
        | None =>
            (* Join a number of nodes into a wrapper node *)
            let '(joinTo, size, length) :=
              if DecorationSet.size child <? JS.sar childSize 1
              then rebalance_joinTo (skipn (S i_n) children) childSize (S i_n)
                     (DecorationSet.size child) (DecorationSet.length child)
              else (S i_n, DecorationSet.size child, DecorationSet.length child) in
            if (S i_n <? joinTo)%nat then
              joined <- DecorationSet.new length size [] (JS.slice i_n joinTo children) ;;
              let '(local, detached, joinedLocals) :=
                if rb_detached st then (rb_local st, true, [])
                else rebalance_pull (rb_local st) off length [] [] in
              joined <- (if nonempty joinedLocals
                         then update_with rec joined (JS.sort byPos joinedLocals) None
                                0 (DecorationSet.length joined)
                         else ret joined) ;;
              ret (mkRebalance local detached
                     (JS.splice i_n (joinTo - i_n) [joined] children)
                     (Z.of_nat joinTo) (off + length))
            else
              ret (mkRebalance (rb_local st) (rb_detached st) children (i + 1)
                     (off + DecorationSet.length child))
        end
  end.

(** The loop of [rebalanceChildren], bounded by [fuel] iterations. *)
Fixpoint rebalance_loop (rec : UpdateInner) (fuel : nat) (childSize : Z) (st : Rebalance)
  : M Rebalance :=
  if rb_i st <? len (rb_children st) then
    match fuel with
    | O => throw OutOfFuel
    | S fuel' =>
        st' <- rebalance_step rec childSize st ;;
        rebalance_loop rec fuel' childSize st'
    end
  else ret st.

(** l.561-613: the caller's arrays [local] and [children] after the call. *)
Definition rebalanceChildren (rec : UpdateInner) (fuel : nat)
    (local : list Decoration.t) (children : list DecorationSet.t) (childSize : Z)
  : M (list Decoration.t * list DecorationSet.t) :=
  st <- rebalance_loop rec fuel childSize (mkRebalance local false children 0 0) ;;
  ret (rb_local st, rb_children st).

(** The variables of the child loop of [updateInner], l.173-205; [None] is
    [null]. *)
Record Distribute := mkDistribute {
  u_local : option (list Decoration.t);
  u_children : option (list DecorationSet.t);
  u_size : Z;
  u_decI : nat;
  u_pos : Z
}.

(** The [while (decI < decorations.length)] loop, l.184-194, over the
    decorations from [decI] on: the new [decI], [local] and [localDeco]. *)
Fixpoint updateInner_take (this_local : list Decoration.t) (offset endPos : Z)
    (rest : list Decoration.t) (decI : nat)
    (local localDeco : option (list Decoration.t))
  : nat * option (list Decoration.t) * option (list Decoration.t) :=
  match rest with
  | [] => (decI, local, localDeco)
  | next :: rest' =>
      if Decoration.from next >=? endPos then (decI, local, localDeco)
      else if Decoration.to next >? endPos then
        let local := match local with Some l => l | None => this_local end in
        updateInner_take this_local offset endPos rest' (S decI)
          (Some (insertSorted local (Decoration.move next (- offset)))) localDeco
      else
        let localDeco := match localDeco with Some l => l | None => [] end in
        updateInner_take this_local offset endPos rest' (S decI)
          local (Some (localDeco ++ [next]))
  end.

(** One iteration of the child loop, l.182-204, for the child at index [i]. *)
Definition updateInner_child (rec : UpdateInner) (this : DecorationSet.t)
    (decorations : list Decoration.t) (filter : option DecorationFilter)
    (filterFrom filterTo offset : Z) (i : nat) (child : DecorationSet.t)
    (st : Distribute) : M Distribute :=
  let pos := u_pos st in
  let endPos := pos + DecorationSet.length child in
  let '(decI, local, localDeco) :=
    updateInner_take (DecorationSet.local this) offset endPos
      (skipn (u_decI st) decorations) (u_decI st) (u_local st) None in
  newChild <-
    (if is_some localDeco || (is_some filter && (filterFrom <=? endPos) && (filterTo >=? pos))
     then rec child (match localDeco with Some l => l | None => [] end)
              filter filterFrom filterTo pos (DecorationSet.length child)
     else ret child) ;;
  let children :=
    if negb (DecorationSet.same newChild child) then
      Some (match u_children st with
            | Some c => c
            | None => JS.slice0 i (DecorationSet.children this)
            end ++ [newChild])
    else
      match u_children st with
      | Some c => Some (c ++ [newChild])
      | None => None
      end in
  ret (mkDistribute local children (u_size st + DecorationSet.size newChild) decI endPos).

(** The child loop from index [i] on. *)
Fixpoint updateInner_children (rec : UpdateInner) (this : DecorationSet.t)
    (decorations : list Decoration.t) (filter : option DecorationFilter)
    (filterFrom filterTo offset : Z) (i : nat) (rest : list DecorationSet.t)
    (st : Distribute) : M Distribute :=
  match rest with
  | [] => ret st
  | child :: rest' =>
      st' <- updateInner_child rec this decorations filter filterFrom filterTo offset
               i child st ;;
      updateInner_children rec this decorations filter filterFrom filterTo offset
        (S i) rest' st'
  end.

(** The body of [updateInner], l.168-235; [fuel] bounds the loops of
    [appendDecorations] and [rebalanceChildren]. *)
Definition updateInner_body (rec : UpdateInner) (fuel : nat) : UpdateInner :=
  fun this decorations filter filterFrom filterTo offset length =>
  let local := filterDecorations (DecorationSet.local this) filter filterFrom filterTo offset in
  st <- updateInner_children rec this decorations filter filterFrom filterTo offset
          0 (DecorationSet.children this) (mkDistribute local None 0 0 offset) ;;
  let local := u_local st in
  let children := u_children st in
  let decI := u_decI st in
  let pos := u_pos st in
  (* If nothing was actually updated, return the existing object *)
  if negb (is_some local) && negb (is_some children) && (Z.of_nat decI =? len decorations)
  then ret this
  else
    let this_local := DecorationSet.local this in
    let this_children := DecorationSet.children this in
    let size := u_size st + (len (or_ local this_local) + len decorations - Z.of_nat decI) in
    if size <=? BASE_NODE_SIZE
    then collapseSet (or_ children this_children) (or_ local this_local)
           decorations decI offset length
    else
      let childSize := JS.max BASE_NODE_SIZE (JS.sar size BASE_NODE_SIZE_SHIFT) in
      '(local, children) <-
        (if Z.of_nat decI <? len decorations then
           '(l, c) <- appendDecorations rec fuel (or_ local this_local)
                        (or_ children this_children) decorations decI
                        offset length pos childSize ;;
           ret (Some l, Some c)
         else ret (local, children)) ;;
      '(local, children) <-
        (match children with
         | Some c =>
             '(l, c) <- rebalanceChildren rec fuel (or_ local this_local) c childSize ;;
             ret (Some l, Some c)
         | None => ret (local, children)
         end) ;;
      DecorationSet.new length size (or_ local this_local) (or_ children this_children).

(** [updateInner]: [fuel] bounds the depth of nested calls. *)
Fixpoint updateInner (fuel : nat) : UpdateInner :=
  match fuel with
  | O => fun _ _ _ _ _ _ _ => throw OutOfFuel
  | S fuel' => updateInner_body (updateInner fuel') fuel'
  end.

(** [this.update(decorations, filter, filterFrom, filterTo)] *)
Definition update (fuel : nat) (this : DecorationSet.t) (decorations : list Decoration.t)
    (filter : option DecorationFilter) (filterFrom filterTo : Z) : M DecorationSet.t :=
  update_with (updateInner fuel) this decorations filter filterFrom filterTo.

(** [this.update(decorations, filter)], with the default window
    [filterFrom = 0], [filterTo = this.length]. *)
Definition update_default (fuel : nat) (this : DecorationSet.t)
    (decorations : list Decoration.t) (filter : option DecorationFilter)
  : M DecorationSet.t :=
  update fuel this decorations filter 0 (DecorationSet.length this).

(** [DecorationSet.of(decorations)] on an array, l.335-340 ([of] is a
    keyword here). *)
Definition set_of (fuel : nat) (decorations : list Decoration.t) : M DecorationSet.t :=
  if nonempty decorations
  then update_default fuel DecorationSet.empty decorations None
  else ret DecorationSet.empty.

(* ------------------------------------------------------------------ *)
(** *** map (l.251-319) *)

(** What [mapInner] returns: [{set, escaped}]. *)
Definition Mapped := (DecorationSet.t * option (list Decoration.t))%type.

Definition MapInner :=
  DecorationSet.t -> list Change.t -> Z -> Z -> Z -> M Mapped.

(** The loop over [this.local], l.263-269, from index [i] on: [newLocal] and
    [escaped].  [Decoration.map] never returns its receiver, so
    [deco != mapped] holds in every iteration. *)
Fixpoint mapInner_local (this_local : list Decoration.t) (changes : list Change.t)
    (oldStart newStart newLength : Z) (i : nat) (rest : list Decoration.t)
    (newLocal escaped : option (list Decoration.t))
  : option (list Decoration.t) * option (list Decoration.t) :=
  match rest with
  | [] => (newLocal, escaped)
  | deco :: rest' =>
      let mapped := Decoration.map deco changes oldStart newStart in
      let escape :=
        match mapped with
        | Some m => (Decoration.from m <? 0) || (Decoration.to m >? newLength)
        | None => false
        end in
      let deco_ne_mapped := true in
      let newLocal :=
        if negb (is_some newLocal) && (deco_ne_mapped || is_some escaped)
        then Some (JS.slice0 i this_local) else newLocal in
      match mapped with
      | Some m =>
          if escape
          then mapInner_local this_local changes oldStart newStart newLength (S i) rest'
                 newLocal (Some (or_ escaped [] ++ [m]))
          else mapInner_local this_local changes oldStart newStart newLength (S i) rest'
                 (option_map (fun l => l ++ [m]) newLocal) escaped
      | None =>
          mapInner_local this_local changes oldStart newStart newLength (S i) rest'
            newLocal escaped
      end
  end.

(** The loop over [inner.escaped], l.280-288. *)
Fixpoint mapInner_escaped (this_local : list Decoration.t) (shift newLength : Z)
    (inner_escaped : list Decoration.t)
    (newLocal escaped : option (list Decoration.t))
  : option (list Decoration.t) * option (list Decoration.t) :=
  match inner_escaped with
  | [] => (newLocal, escaped)
  | deco :: rest =>
      let deco := Decoration.move deco shift in
      if (Decoration.from deco <? 0) || (Decoration.to deco >? newLength)
      then mapInner_escaped this_local shift newLength rest
             newLocal (Some (or_ escaped [] ++ [deco]))
      else mapInner_escaped this_local shift newLength rest
             (Some (insertSorted (or_ newLocal this_local) deco)) escaped
  end.

(** The variables of the child loop of [mapInner], l.271-312. *)
Record MapChildren := mkMapChildren {
  m_newLocal : option (list Decoration.t);
  m_escaped : option (list Decoration.t);
  m_newChildren : option (list DecorationSet.t);
  m_newSize : Z;
  m_oldPos : Z;
  m_newPos : Z
}.

(** l.273-291: the child that replaces [child], with [newLocal] and
    [escaped] after the escapees of a mapped child were placed. *)
Definition mapInner_newChild (rec : MapInner) (this : DecorationSet.t)
    (changes : list Change.t) (newStart newLength : Z) (child : DecorationSet.t)
    (oldPos newPos : Z) (newLocal escaped : option (list Decoration.t))
  : M (DecorationSet.t * option (list Decoration.t) * option (list Decoration.t)) :=
  let oldChildEnd := oldPos + DecorationSet.length child in
  let newChildEnd := mapPos (oldPos + DecorationSet.length child) changes 1 false in
  if touchesChange oldPos oldChildEnd changes then
    '(set, inner_escaped) <- rec child changes oldPos newPos newChildEnd ;;
    match inner_escaped with
    | Some esc =>
        let '(newLocal, escaped) :=
          mapInner_escaped (DecorationSet.local this) (newPos - newStart) newLength
            esc newLocal escaped in
        ret (set, newLocal, escaped)
    | None => ret (set, newLocal, escaped)
    end
  else if negb (newChildEnd - newPos =? oldChildEnd - oldPos) then
    newChild <- DecorationSet.new (newChildEnd - newPos) (DecorationSet.size child)
                  (DecorationSet.local child) (DecorationSet.children child) ;;
    ret (newChild, newLocal, escaped)
  else ret (child, newLocal, escaped).

(** l.292-308: [newChildren] after the child at index [i] was handled. *)
Definition mapInner_place (this : DecorationSet.t) (i : nat)
    (child newChild : DecorationSet.t) (newChildren : option (list DecorationSet.t))
  : M (option (list DecorationSet.t)) :=
  if negb (DecorationSet.same newChild child) then
    let newChildren := or_ newChildren (JS.slice0 i (DecorationSet.children this)) in
    if (DecorationSet.size newChild =? 0)
       && ((DecorationSet.length newChild =? 0) || nonempty newChildren
           || (Z.of_nat i =? len (DecorationSet.children this)))
    then
      if (DecorationSet.length newChild >? 0) && (0 <? i)%nat then
        let last := (List.length newChildren - 1)%nat in
        match (if nonempty newChildren then nth_error newChildren last else None) with
        | None => throw TypeError
        | Some lastChild =>
            grown <- DecorationSet.new
                       (DecorationSet.length lastChild + DecorationSet.length newChild)
                       (DecorationSet.size lastChild) (DecorationSet.local lastChild)
                       (DecorationSet.children lastChild) ;;
            ret (Some (JS.set_nth last grown newChildren))
        end
      else ret (Some newChildren)
    else ret (Some (newChildren ++ [newChild]))
  else
    match newChildren with
    | Some c => ret (Some (c ++ [newChild]))
    | None => ret None
    end.

(** The child loop from index [i] on. *)
Fixpoint mapInner_children (rec : MapInner) (this : DecorationSet.t)
    (changes : list Change.t) (newStart newLength : Z)
    (i : nat) (rest : list DecorationSet.t) (st : MapChildren) : M MapChildren :=
  match rest with
  | [] => ret st
  | child :: rest' =>
      let oldChildEnd := m_oldPos st + DecorationSet.length child in
      let newChildEnd := mapPos (m_oldPos st + DecorationSet.length child) changes 1 false in
      '(newChild, newLocal, escaped) <-
        mapInner_newChild rec this changes newStart newLength child
          (m_oldPos st) (m_newPos st) (m_newLocal st) (m_escaped st) ;;
      newChildren <- mapInner_place this i child newChild (m_newChildren st) ;;
      mapInner_children rec this changes newStart newLength (S i) rest'
        (mkMapChildren newLocal escaped newChildren
           (m_newSize st + DecorationSet.size newChild) oldChildEnd newChildEnd)
  end.

(** The body of [mapInner], l.256-319. *)
Definition mapInner_body (rec : MapInner) : MapInner :=
  fun this changes oldStart newStart newEnd =>
  let newLength := newEnd - newStart in
  let '(newLocal, escaped) :=
    mapInner_local (DecorationSet.local this) changes oldStart newStart newLength
      0 (DecorationSet.local this) None None in
  st <- mapInner_children rec this changes newStart newLength 0
          (DecorationSet.children this)
          (mkMapChildren newLocal escaped None 0 oldStart newStart) ;;
  let newLocal := m_newLocal st in
  let newChildren := m_newChildren st in
  set <- (if (newLength =? DecorationSet.length this)
             && negb (is_some newChildren) && negb (is_some newLocal)
          then ret this
          else DecorationSet.new newLength
                 (m_newSize st + len (or_ newLocal (DecorationSet.local this)))
                 (or_ newLocal (DecorationSet.local this))
                 (or_ newChildren (DecorationSet.children this))) ;;
  ret (set, m_escaped st).

(** [mapInner]: the recursion follows the tree, and [fuel] bounds its
    depth. *)
Fixpoint mapInner (fuel : nat) : MapInner :=
  match fuel with
  | O => fun _ _ _ _ _ => throw OutOfFuel
  | S fuel' => mapInner_body (mapInner fuel')
  end.

(** [map], l.251-254. *)
Definition map (fuel : nat) (this : DecorationSet.t) (changes : list Change.t)
  : M DecorationSet.t :=
  if negb (nonempty changes) || DecorationSet.same this DecorationSet.empty
  then ret this
  else
    '(set, _) <- mapInner fuel this changes 0 0
                   (mapPos (DecorationSet.length this) changes 1 false) ;;
    ret set.

(* ================================================================== *)
(** ** Structural comparison (l.321-333, 345-387, 615-792) *)

Definition MIN_RANGE_GAP : Z := 4.

(** l.789-792.  On an empty array [ranges[-1] + MIN_RANGE_GAP] is NaN and the
    test is false. *)
Definition addRange (from to : Z) (ranges : list Z) : list Z :=
  match JS.pop ranges with
  | (init, Some last) =>
      if last + MIN_RANGE_GAP >? from then init ++ [to] else ranges ++ [from; to]
  | (_, None) => ranges ++ [from; to]
  end.

(** [class Changes], l.345-348 *)
Record Changes := mkChanges {
  content : list Z;
  height : list Z
}.

(** A [ChangedRange] of the doc package's diff. *)
Record ChangedRange := mkChangedRange {
  fromA : Z;
  toA : Z;
  fromB : Z;
  toB : Z
}.

(** l.776-785.  The objects are association lists with distinct keys;
    [a == b] on two present objects implies what the key-wise test returns. *)
Definition attrsEq (a b : option Attrs) : bool :=
  match a, b with
  | None, None => true
  | Some a', Some b' =>
      let keysA := List.map fst a' in
      let keysB := List.map fst b' in
      let get (o : Attrs) (key : string) :=
        option_map snd (find (fun kv => String.eqb (fst kv) key) o) in
      (List.length keysA =? List.length keysB)%nat
      && forallb (fun key =>
                    existsb (String.eqb key) keysB
                    && match get a' key, get b' key with
                       | Some x, Some y => String.eqb x y
                       | _, _ => false
                       end) keysA
  | _, _ => false
  end.

Definition option_string_eqb (a b : option string) : bool :=
  match a, b with
  | None, None => true
  | Some x, Some y => String.eqb x y
  | _, _ => false
  end.

(** [collA === collB] *)
Definition collapsed_strict_eq (a b : Collapsed) : bool :=
  match a, b with
  | NotCollapsed, NotCollapsed => true
  | CollapsedBool x, CollapsedBool y => Bool.eqb x y
  | CollapsedWidget x, CollapsedWidget y => (WidgetType.wid x =? WidgetType.wid y)%N
  | _, _ => false
  end.

(** [RangeDesc.eq], l.62-69, on two range descriptors and their addresses. *)
Definition RangeDesc_eq (this_id : N) (this : DecorationRangeSpec)
    (other_id : N) (other : DecorationRangeSpec) : bool :=
  let collA := collapsed this in
  let collB := collapsed other in
  (this_id =? other_id)%N
  || (option_string_eqb (tagName this) (tagName other)
      && option_string_eqb (class this) (class other)
      && (collapsed_strict_eq collA collB
          || match collA, collB with
             | CollapsedWidget wa, CollapsedWidget wb => WidgetType.compare wa wb
             | _, _ => false
             end)
      && attrsEq (attributes this) (attributes other)).

(** [desc.eq(other)] for the elements of [active], which are range
    descriptors. *)
Definition desc_eq (d other : DecorationDesc) : bool :=
  match d, other with
  | RangeDesc i s, RangeDesc j s' => RangeDesc_eq i s j s'
  | _, _ => false
  end.

(** [array.indexOf(elt)] on descriptors, by address. *)
Fixpoint indexOf_desc (elt : DecorationDesc) (array : list DecorationDesc) : option nat :=
  match array with
  | [] => None
  | x :: rest =>
      if (Desc.did x =? Desc.did elt)%N then Some O
      else option_map S (indexOf_desc elt rest)
  end.

(** l.750-758 *)
Definition compareActiveSets (active otherActive : list DecorationDesc) : bool :=
  (List.length active =? List.length otherActive)%nat
  && forallb (fun d =>
                is_some (indexOf_desc d otherActive)
                || existsb (desc_eq d) otherActive) active.

(** l.760-768 *)
Definition compareWidgetSets (widgets otherWidgets : list WidgetType.t) : bool :=
  (List.length widgets =? List.length otherWidgets)%nat
  && forallb (fun w =>
                existsb (fun o => (WidgetType.wid o =? WidgetType.wid w)%N) otherWidgets
                || existsb (WidgetType.compare w) otherWidgets) widgets.

(** l.770-774 *)
Definition remove (array : list DecorationDesc) (elt : DecorationDesc)
  : list DecorationDesc :=
  let found := indexOf_desc elt array in
  match JS.pop array with
  | (array', Some last) =>
      match found with
      | Some f => if (f =? List.length array')%nat then array' else JS.set_nth f last array'
      | None => array'
      end
  | (array', None) => array'
  end.

(** [class IteratedSet], l.351-357 *)
Record IteratedSet := mkIteratedSet {
  it_offset : Z;
  it_set : DecorationSet.t;
  it_index : nat
}.

(** [class LocalSet], l.360-369; [lid] is the address of the cursor.  The
    comparison never passes [next]. *)
Record LocalSet := mkLocalSet {
  lid : N;
  ls_offset : Z;
  ls_decorations : list Decoration.t;
  ls_index : nat
}.

(** What a heap of the comparison holds: a cursor or an active range. *)
Inductive HeapElt :=
| Cursor (l : LocalSet)
| Active (d : Decoration.t).

(** The getters of [LocalSet], l.367-368.  A cursor is on a heap only while
    [index < decorations.length]; outside that range the getters throw, and
    the fields below are fillers. *)
#[export] Instance Heapable_HeapElt : Heapable HeapElt := {
  heapPos e :=
    match e with
    | Cursor l =>
        match nth_error (ls_decorations l) (ls_index l) with
        | Some d => Decoration.from d + ls_offset l
        | None => 0
        end
    | Active d => Decoration.heapPos d
    end;
  desc e :=
    match e with
    | Cursor l =>
        match nth_error (ls_decorations l) (ls_index l) with
        | Some d => Decoration.desc d
        | None => PointDesc 0 (mkPointSpec None None None)
        end
    | Active d => Decoration.desc d
    end
}.

(** l.371-387; the stack is the array, top last.  [fuel] bounds the loop. *)
Fixpoint iterDecorationSet (fuel : nat) (stack : list IteratedSet) (skipTo : Z)
  : M (list IteratedSet) :=
  match JS.pop stack with
  | (_, None) => ret stack
  | (below, Some top) =>
      match fuel with
      | O => throw OutOfFuel
      | S fuel' =>
          let children := DecorationSet.children (it_set top) in
          if (it_index top =? List.length children)%nat then
            iterDecorationSet fuel' below skipTo
          else
            match nth_error children (it_index top) with
            | None => throw TypeError
            | Some next =>
                let start := it_offset top in
                let top := mkIteratedSet (it_offset top + DecorationSet.length next)
                             (it_set top) (S (it_index top)) in
                if it_offset top >=? skipTo
                then ret (below ++ [top; mkIteratedSet start next 0])
                else iterDecorationSet fuel' (below ++ [top]) skipTo
            end
      end
  end.

(** [class ComparisonSide], l.617-639 *)
Record ComparisonSide := mkSide {
  heap : list HeapElt;
  active : list DecorationDesc;
  widgets : list WidgetType.t;
  tip : option N;
  collapsedTo : Z;
  stack : list IteratedSet
}.

Definition ComparisonSide_new (stack : list IteratedSet) : ComparisonSide :=
  mkSide [] [] [] None (-1) stack.

(** [forward], l.626-638: the side after the call and [newTip]. *)
Definition forward (fuel : nat) (this : ComparisonSide) (start : Z) (next : IteratedSet)
  : M (ComparisonSide * bool) :=
  '(this, newTip) <-
    (if nonempty (DecorationSet.local (it_set next)) then
       l <- alloc ;;
       let local := mkLocalSet l (it_offset next) (DecorationSet.local (it_set next)) 0 in
       let this := mkSide (addToHeap (heap this) (Cursor local)) (active this)
                     (widgets this) (tip this) (collapsedTo this) (stack this) in
       if negb (nonempty (DecorationSet.children (it_set next)))
       then ret (mkSide (heap this) (active this) (widgets this) (Some l)
                   (collapsedTo this) (stack this), true)
       else ret (this, false)
     else ret (this, false)) ;;
  stack' <- iterDecorationSet fuel (stack this) start ;;
  ret (mkSide (heap this) (active this) (widgets this) (tip this) (collapsedTo this) stack',
       newTip).

(** [class DecorationSetComparison], l.641-748 *)
Record DecorationSetComparison := mkComparison {
  a : ComparisonSide;
  b : ComparisonSide;
  pos : Z;
  end_ : Z;
  changes : Changes
}.

Definition SIDE_A : Z := 1.
Definition SIDE_B : Z := 2.

Definition top_of (stack : list IteratedSet) : option IteratedSet :=
  snd (JS.pop stack).

(** l.657-674 *)
Fixpoint forwardIter (fuel : nat) (this : DecorationSetComparison) (side : Z)
  : M DecorationSetComparison :=
  if side >? 0 then
    match fuel with
    | O => throw OutOfFuel
    | S fuel' =>
        let nextA := top_of (stack (a this)) in
        let nextB := top_of (stack (b this)) in
        let with_a x := mkComparison x (b this) (pos this) (end_ this) (changes this) in
        let with_b x := mkComparison (a this) x (pos this) (end_ this) (changes this) in
        let forward_a nA :=
          '(sideA, newTip) <- forward fuel' (a this) (pos this) nA ;;
          forwardIter fuel' (with_a sideA)
            (if newTip then Z.land side (Z.lnot SIDE_A) else side) in
        let forward_b nB :=
          '(sideB, newTip) <- forward fuel' (b this) (pos this) nB ;;
          forwardIter fuel' (with_b sideB)
            (if newTip then Z.land side (Z.lnot SIDE_B) else side) in
        match nextA, nextB with
        | Some nA, Some nB =>
            if (it_offset nA =? it_offset nB) && DecorationSet.same (it_set nA) (it_set nB)
            then
              stackA <- iterDecorationSet fuel' (stack (a this)) (pos this) ;;
              stackB <- iterDecorationSet fuel' (stack (b this)) (pos this) ;;
              let sa := a this in
              let sb := b this in
              forwardIter fuel'
                (mkComparison
                   (mkSide (heap sa) (active sa) (widgets sa) (tip sa) (collapsedTo sa) stackA)
                   (mkSide (heap sb) (active sb) (widgets sb) (tip sb) (collapsedTo sb) stackB)
                   (pos this) (end_ this) (changes this))
                side
            else if (it_offset nA <? it_offset nB)
                    || ((it_offset nA =? it_offset nB)
                        && ((List.length (stack (a this)) =? 1)%nat
                            || (DecorationSet.length (it_set nA)
                                >=? DecorationSet.length (it_set nB))))
            then forward_a nA
            else forward_b nB
        | Some nA, None => forward_a nA
        | None, Some nB => forward_b nB
        | None, None => ret this
        end
    end
  else ret this.

(** The constructor, l.647-655. *)
Definition DecorationSetComparison_new (fuel : nat)
    (a : DecorationSet.t) (startA : Z) (b : DecorationSet.t) (startB endB : Z)
    (changes : Changes) : M DecorationSetComparison :=
  forwardIter fuel
    (mkComparison (ComparisonSide_new [mkIteratedSet (startB - startA) a 0])
                  (ComparisonSide_new [mkIteratedSet 0 b 0])
                  startB endB changes)
    (Z.lor SIDE_A SIDE_B).

(** l.694-709 *)
Definition advancePos (this : DecorationSetComparison) (pos' : Z) : DecorationSetComparison :=
  let pos' := if pos' >? end_ this then end_ this else pos' in
  if pos' <=? pos this then this
  else
    let sa := a this in
    let sb := b this in
    let ch := changes this in
    let '(ch, sa, sb) :=
      if nonempty (widgets sa) || nonempty (widgets sb) then
        let ch :=
          if negb (compareWidgetSets (widgets sa) (widgets sb))
          then mkChanges (addRange pos' pos' (content ch)) (addRange pos' pos' (height ch))
          else ch in
        (ch,
         mkSide (heap sa) (active sa) [] (tip sa) (collapsedTo sa) (stack sa),
         mkSide (heap sb) (active sb) [] (tip sb) (collapsedTo sb) (stack sb))
      else (ch, sa, sb) in
    let ch :=
      if negb (compareActiveSets (active sa) (active sb)) then
        let ch := mkChanges (addRange (pos this) pos' (content ch)) (height ch) in
        if negb (Bool.eqb (collapsedTo sa >? pos this) (collapsedTo sb >? pos this))
        then mkChanges (content ch) (addRange (pos this) pos' (height ch))
        else ch
      else ch in
    mkComparison sa sb pos' (end_ this) ch.

(** Which [ComparisonSide] a call to [advance] was given. *)
Inductive Which := OnA | OnB.

Definition side_of (this : DecorationSetComparison) (w : Which) : ComparisonSide :=
  match w with OnA => a this | OnB => b this end.

Definition with_side (this : DecorationSetComparison) (w : Which) (s : ComparisonSide)
  : DecorationSetComparison :=
  match w with
  | OnA => mkComparison s (b this) (pos this) (end_ this) (changes this)
  | OnB => mkComparison (a this) s (pos this) (end_ this) (changes this)
  end.

Definition with_pos (this : DecorationSetComparison) (p : Z) : DecorationSetComparison :=
  mkComparison (a this) (b this) p (end_ this) (changes this).

Definition with_heap (s : ComparisonSide) (h : list HeapElt) : ComparisonSide :=
  mkSide h (active s) (widgets s) (tip s) (collapsedTo s) (stack s).

Definition with_active (s : ComparisonSide) (x : list DecorationDesc) : ComparisonSide :=
  mkSide (heap s) x (widgets s) (tip s) (collapsedTo s) (stack s).

Definition with_widgets (s : ComparisonSide) (x : list WidgetType.t) : ComparisonSide :=
  mkSide (heap s) (active s) x (tip s) (collapsedTo s) (stack s).

Definition with_collapsedTo (s : ComparisonSide) (x : Z) : ComparisonSide :=
  mkSide (heap s) (active s) (widgets s) (tip s) x (stack s).

(** l.739-741: the cursor goes back on the heap, or the side that it was
    the tip of moves on. *)
Definition advance_rest (fuel : nat) (this : DecorationSetComparison) (w : Which)
    (next : LocalSet) : M DecorationSetComparison :=
  if (ls_index next <? List.length (ls_decorations next))%nat then
    let s := side_of this w in
    ret (with_side this w (with_heap s (addToHeap (heap s) (Cursor next))))
  else if match tip (a this) with Some l => (l =? lid next)%N | None => false end
  then forwardIter fuel this SIDE_A
  else if match tip (b this) with Some l => (l =? lid next)%N | None => false end
  then forwardIter fuel this SIDE_B
  else ret this.

(** l.711-747 *)
Definition advance (fuel : nat) (this : DecorationSetComparison) (w : Which)
  : M DecorationSetComparison :=
  match takeFromHeap (heap (side_of this w)) with
  | (None, _) => throw TypeError
  | (Some (Cursor next), heap') =>
      let this := with_side this w (with_heap (side_of this w) heap') in
      match nth_error (ls_decorations next) (ls_index next) with
      | None => throw TypeError
      | Some deco =>
          let next := mkLocalSet (lid next) (ls_offset next) (ls_decorations next)
                        (S (ls_index next)) in
          if Decoration.from deco + ls_offset next >? end_ this then
            ret (with_pos (with_side this w (with_heap (side_of this w) [])) (end_ this))
          else
            match Decoration.desc deco with
            | RangeDesc _ spec =>
                if Desc.affectsSpans spec
                   && (Decoration.to deco + ls_offset next >? pos this)
                then
                  let this := advancePos this (Decoration.from deco + ls_offset next) in
                  let deco := Decoration.move deco (ls_offset next) in
                  let this :=
                    if truthy_collapsed (collapsed spec) then
                      let s := side_of this w in
                      let s := match collapsed spec with
                               | CollapsedWidget wd => with_widgets s (widgets s ++ [wd])
                               | _ => s
                               end in
                      let s := with_collapsedTo s (JS.max (collapsedTo s) (Decoration.to deco)) in
                      let this := with_side this w s in
                      let collapsedTo' := JS.min (collapsedTo (a this)) (collapsedTo (b this)) in
                      if collapsedTo' >? pos this then with_pos this collapsedTo' else this
                    else this in
                  let s := side_of this w in
                  let s := with_active s (active s ++ [Decoration.desc deco]) in
                  let s := with_heap s (addToHeap (heap s) (Active deco)) in
                  advance_rest fuel (with_side this w s) w next
                else advance_rest fuel this w next
            | PointDesc _ spec =>
                match widget spec with
                | Some wd =>
                    let this := advancePos this (Decoration.from deco) in
                    let s := side_of this w in
                    advance_rest fuel (with_side this w (with_widgets s (widgets s ++ [wd])))
                      w next
                | None => advance_rest fuel this w next
                end
            end
      end
  | (Some (Active deco), heap') =>
      let this := with_side this w (with_heap (side_of this w) heap') in
      let this := advancePos this (Decoration.to deco) in
      let s := side_of this w in
      ret (with_side this w (with_active s (remove (active s) (Decoration.desc deco))))
  end.

(** l.676-692; [fuel] bounds the iterations. *)
Fixpoint run (fuel : nat) (this : DecorationSetComparison) : M Changes :=
  match fuel with
  | O => throw OutOfFuel
  | S fuel' =>
      match heap (a this), heap (b this) with
      | [], [] =>
          if negb (compareWidgetSets (widgets (a this)) (widgets (b this)))
          then ret (mkChanges (addRange (pos this) (pos this) (content (changes this)))
                              (addRange (pos this) (pos this) (height (changes this))))
          else ret (changes this)
      | hA :: _, [] => this' <- advance fuel' this OnA ;; run fuel' this'
      | [], _ :: _ => this' <- advance fuel' this OnB ;; run fuel' this'
      | hA :: _, hB :: _ =>
          if or_else (heapPos hA - heapPos hB)
                     (Desc.bias (desc hA) - Desc.bias (desc hB)) <? 0
          then this' <- advance fuel' this OnA ;; run fuel' this'
          else this' <- advance fuel' this OnB ;; run fuel' this'
      end
  end.

(** [new DecorationSetComparison(a, startA, b, startB, endB, changes).run()] *)
Definition compare_run (fuel : nat) (a : DecorationSet.t) (startA : Z)
    (b : DecorationSet.t) (startB endB : Z) (changes : Changes) : M Changes :=
  cmp <- DecorationSetComparison_new fuel a startA b startB endB changes ;;
  run fuel cmp.

(** The loop over [textDiff], l.324-329: [changes], [oldPos] and [newPos]
    when it ends. *)
Fixpoint changedRanges_loop (fuel : nat) (this other : DecorationSet.t)
    (textDiff : list ChangedRange) (changes : Changes) (oldPos newPos : Z)
  : M (Changes * Z * Z) :=
  match textDiff with
  | [] => ret (changes, oldPos, newPos)
  | range :: rest =>
      changes <-
        (if (fromB range >? newPos)
            && (negb (DecorationSet.same this other) || negb (oldPos =? newPos))
         then compare_run fuel this oldPos other newPos (fromB range) changes
         else ret changes) ;;
      changedRanges_loop fuel this other rest changes (toA range) (toB range)
  end.

(** l.321-333 *)
Definition changedRanges (fuel : nat) (this other : DecorationSet.t)
    (textDiff : list ChangedRange) : M Changes :=
  '(changes, oldPos, newPos) <-
    changedRanges_loop fuel this other textDiff (mkChanges [] []) 0 0 ;;
  if (oldPos <? DecorationSet.length this) || (newPos <? DecorationSet.length other)
  then compare_run fuel this oldPos other newPos
         (JS.max (DecorationSet.length this - oldPos + newPos) (DecorationSet.length other))
         changes
  else ret changes.

(* ================================================================== *)
(** ** Descriptor equality and range joining (l.84-87, 794-807) *)

(** [PointDesc.eq], l.84-87, on two point descriptors. *)
Definition PointDesc_eq (this other : DecorationPointSpec) : bool :=
  (or_ (side this) 0 =? or_ (side other) 0)
  && match widget this, widget other with
     | None, None => true
     | Some w, Some w' =>
         (WidgetType.wid w =? WidgetType.wid w')%N || WidgetType.compare w w'
     | _, _ => false
     end.

(** The loop of [joinRanges], l.798-805.  [fuel] bounds the iterations.  The
    arrays hold whole pairs; [None] is returned where the loop would read
    past the end of an array of odd length, or when [fuel] runs out. *)
Fixpoint joinRanges_loop (fuel : nat) (a b : list Z) (iA iB : nat) (result : list Z)
  : option (list Z) :=
  match fuel with
  | O => None
  | S fuel' =>
      if (iA <? List.length a)%nat
         && ((iB =? List.length b)%nat
             || match nth_error a iA, nth_error b iB with
                | Some x, Some y => x <? y
                | _, _ => false
                end)
      then
        match nth_error a iA, nth_error a (S iA) with
        | Some from, Some to =>
            joinRanges_loop fuel' a b (S (S iA)) iB (addRange from to result)
        | _, _ => None
        end
      else if (iB <? List.length b)%nat then
        match nth_error b iB, nth_error b (S iB) with
        | Some from, Some to =>
            joinRanges_loop fuel' a b iA (S (S iB)) (addRange from to result)
        | _, _ => None
        end
      else Some result
  end.

(** l.794-807 *)
Definition joinRanges (a b : list Z) : option (list Z) :=
  if (List.length a =? 0)%nat then Some b
  else if (List.length b =? 0)%nat then Some a
  else joinRanges_loop (S (List.length a + List.length b)) a b 0 0 [].

(* ================================================================== *)
(** ** Line elements (l.389-453) *)

(** A call of one of the three methods of the builder that
    [buildLineElements] is handed. *)
Inductive BuilderCall :=
| Advance (pos : Z)
| AdvanceCollapsed (pos : Z)
| AddWidget (widget : WidgetType.t) (side : Z).

(** The builder, l.389-394.  Its class lives in another module: here it is
    the log of the calls it received, in order, and the array [active],
    which [buildLineElements] pushes to and splices itself.  The methods are
    taken not to write [active]. *)
Record LineBuilder := mkLineBuilder {
  lb_calls : list BuilderCall;
  lb_active : list DecorationDesc
}.

Definition call (builder : LineBuilder) (c : BuilderCall) : LineBuilder :=
  mkLineBuilder (lb_calls builder ++ [c]) (lb_active builder).

(** [class LocalSet], l.360-369, as [buildLineElements] uses it: with the
    field [next], the stack to go on with after a leaf.  The stack is named by
    one cursor at a time and only written when that cursor is used up, so the
    cursor holds its value. *)
Record LineLocalSet := mkLineLocalSet {
  ll_offset : Z;
  ll_decorations : list Decoration.t;
  ll_index : nat;
  ll_next : option (list IteratedSet)
}.

(** What the heap of [buildLineElements] holds: a cursor or a range that
    is open. *)
Inductive LineElt :=
| LineCursor (l : LineLocalSet)
| LineActive (d : Decoration.t).

#[export] Instance Heapable_LineElt : Heapable LineElt := {
  heapPos e :=
    match e with
    | LineCursor l =>
        match nth_error (ll_decorations l) (ll_index l) with
        | Some d => Decoration.from d + ll_offset l
        | None => 0
        end
    | LineActive d => Decoration.heapPos d
    end;
  desc e :=
    match e with
    | LineCursor l =>
        match nth_error (ll_decorations l) (ll_index l) with
        | Some d => Decoration.desc d
        | None => PointDesc 0 (mkPointSpec None None None)
        end
    | LineActive d => Decoration.desc d
    end
}.

(** l.444-453: the heap after the call.  [fuel] bounds the loop. *)
Fixpoint addIterToHeap (fuel : nat) (heap : list LineElt) (stack : list IteratedSet)
    (skipTo : Z) : M (list LineElt) :=
  match fuel with
  | O => throw OutOfFuel
  | S fuel' =>
      stack <- iterDecorationSet fuel' stack skipTo ;;
      match top_of stack with
      | None => ret heap
      | Some next =>
          let local := DecorationSet.local (it_set next) in
          let leaf :=
            if nonempty (DecorationSet.children (it_set next)) then None else Some stack in
          let heap :=
            if nonempty local
            then addToHeap heap (LineCursor (mkLineLocalSet (it_offset next) local 0 leaf))
            else heap in
          if is_some leaf then ret heap
          else addIterToHeap fuel' heap stack skipTo
      end
  end.

(** The first loop of [buildLineElements], l.397-400. *)
Definition buildLineElements_heap (fuel : nat) (sets : list DecorationSet.t) (from : Z)
  : M (list LineElt) :=
  foldM (fun heap set =>
           if DecorationSet.size set >? 0 then
             heap <- addIterToHeap fuel heap [mkIteratedSet 0 set 0] from ;;
             ret (if nonempty (DecorationSet.local set)
                  then addToHeap heap
                         (LineCursor (mkLineLocalSet 0 (DecorationSet.local set) 0 None))
                  else heap)
           else ret heap)
        sets [].

(** [builder.active.splice(builder.active.indexOf(desc), 1)], l.434: with
    index [-1] the last element is the one removed. *)
Definition splice_active (active : list DecorationDesc) (d : DecorationDesc)
  : list DecorationDesc :=
  match indexOf_desc d active with
  | Some i => JS.splice i 1 [] active
  | None => removelast active
  end.

(** l.405-426: what a decoration taken from a cursor does to the heap, to
    [from] and to the builder. *)
Definition buildLineElements_visit (heap : list LineElt) (from to : Z) (heightOnly : bool)
    (builder : LineBuilder) (deco : Decoration.t) (offset : Z)
  : list LineElt * Z * LineBuilder :=
  if Decoration.to deco + offset >=? from then
    match Decoration.desc deco with
    | RangeDesc _ spec =>
        if (if heightOnly then truthy_collapsed (collapsed spec) else Desc.affectsSpans spec)
        then
          let deco := Decoration.move deco offset in
          let builder := call builder (Advance (Decoration.from deco)) in
          if truthy_collapsed (collapsed spec) then
            let builder :=
              match collapsed spec with
              | CollapsedWidget w => call builder (AddWidget w 0)
              | _ => builder
              end in
            let from := Decoration.to deco in
            (heap, from, call builder (AdvanceCollapsed (JS.min from to)))
          else
            let builder :=
              mkLineBuilder (lb_calls builder) (lb_active builder ++ [Decoration.desc deco]) in
            (addToHeap heap (LineActive deco), from, builder)
        else (heap, from, builder)
    | PointDesc _ spec =>
        match widget spec with
        | Some w =>
            if (if heightOnly then WidgetType.estimatedHeight w >? -1 else true)
            then
              let builder := call builder (Advance (Decoration.from deco)) in
              (heap, from, call builder (AddWidget w (Desc.bias (Decoration.desc deco))))
            else (heap, from, builder)
        | None => (heap, from, builder)
        end
    end
  else (heap, from, builder).

(** The [while (heap.length > 0)] loop, l.402-436: the builder when it is
    left.  [fuel] bounds the iterations. *)
Fixpoint buildLineElements_loop (fuel : nat) (heap : list LineElt) (from to : Z)
    (heightOnly : bool) (builder : LineBuilder) : M LineBuilder :=
  match heap with
  | [] => ret builder
  | _ :: _ =>
      match fuel with
      | O => throw OutOfFuel
      | S fuel' =>
          match takeFromHeap heap with
          | (None, _) => throw TypeError
          | (Some (LineCursor next), heap) =>
              match nth_error (ll_decorations next) (ll_index next) with
              | None => throw TypeError
              | Some deco =>
                  if Decoration.from deco + ll_offset next >? to then ret builder
                  else
                    let '(heap, from, builder) :=
                      buildLineElements_visit heap from to heightOnly builder deco
                        (ll_offset next) in
                    (* Put the rest of the set back onto the heap *)
                    let next := mkLineLocalSet (ll_offset next) (ll_decorations next)
                                  (S (ll_index next)) (ll_next next) in
                    if (ll_index next <? List.length (ll_decorations next))%nat then
                      buildLineElements_loop fuel' (addToHeap heap (LineCursor next))
                        from to heightOnly builder
                    else
                      match ll_next next with
                      | Some stack =>
                          heap <- addIterToHeap fuel' heap stack from ;;
                          buildLineElements_loop fuel' heap from to heightOnly builder
                      | None => buildLineElements_loop fuel' heap from to heightOnly builder
                      end
              end
          | (Some (LineActive deco), heap) =>
              (* It is a decoration that ends here *)
              if Decoration.to deco >=? to then ret builder
              else
                let builder := call builder (Advance (Decoration.to deco)) in
                buildLineElements_loop fuel' heap from to heightOnly
                  (mkLineBuilder (lb_calls builder)
                     (splice_active (lb_active builder) (Decoration.desc deco)))
          end
      end
  end.

(** l.389-438: the builder after the call. *)
Definition buildLineElements (fuel : nat) (sets : list DecorationSet.t) (from to : Z)
    (builder : LineBuilder) (heightOnly : bool) : M LineBuilder :=
  heap <- buildLineElements_heap fuel sets from ;;
  builder <- buildLineElements_loop fuel heap from to heightOnly builder ;;
  ret (call builder (Advance to)).

(* ================================================================== *)
(** ** Reference definitions and inputs used by the statements below *)

(** [mapPos] with tracking, as the specification words it: the position is
    taken through the changes in order, and there is no result as soon as the
    position reached lies strictly inside the region a change deletes. *)
Fixpoint mapPos_tracked (pos : Z) (changes : list Change.t) (assoc : Z) : option Z :=
  match changes with
  | [] => Some pos
  | change :: rest =>
      if (Change.from change <? pos) && (Change.to change >? pos) then None
      else mapPos_tracked (Change.mapPos change pos assoc) rest assoc
  end.

(** [mapPos] without tracking: every change maps the position in turn. *)
Definition mapPos_plain (pos : Z) (changes : list Change.t) (assoc : Z) : Z :=
  fold_left (fun p change => Change.mapPos change p assoc) changes pos.

(** The reference definition of [Decoration.map], by descriptor variant. *)
Definition Decoration_map_spec (d : Decoration.t) (changes : list Change.t)
    (oldOffset newOffset : Z) : option Decoration.t :=
  match Decoration.desc d with
  | RangeDesc _ spec =>
      let startBias := if inclusiveStart spec then - BIG_BIAS else BIG_BIAS in
      let endBias := if inclusiveEnd spec then BIG_BIAS else - BIG_BIAS in
      let from' := mapPos_plain (Decoration.from d + oldOffset) changes startBias in
      let to' := mapPos_plain (Decoration.to d + oldOffset) changes endBias in
      if from' <? to'
      then Some (Decoration.mk (from' - newOffset) (to' - newOffset) (Decoration.desc d))
      else None
  | PointDesc _ spec =>
      let bias := match side spec with Some s => s | None => 0 end in
      match mapPos_tracked (Decoration.from d + oldOffset) changes bias with
      | None => None
      | Some pos' =>
          Some (Decoration.mk (pos' - newOffset) (pos' - newOffset) (Decoration.desc d))
      end
  end.

(** Positions of a document are not negative, and a change maps positions to
    positions. *)
Definition maps_positions (change : Change.t) : Prop :=
  forall pos assoc, 0 <= pos -> 0 <= Change.mapPos change pos assoc.

Definition is_point (d : Decoration.t) : bool :=
  match Decoration.desc d with PointDesc _ _ => true | RangeDesc _ _ => false end.

(** The value of a computation started at address [1] (address [0] holds
    [DecorationSet.empty]); [None] when it throws. *)
Definition value {A} (c : M A) : option A :=
  match c 1%N with
  | Ok x _ => Some x
  | Throw _ => None
  end.

Definition plainSpec : DecorationRangeSpec :=
  mkRangeSpec false false None None None None NotCollapsed.

(** [ends.map(to => Decoration.range(0, to, {}))]: ranges as the traversals
    put them on a heap when they open, keyed by their end. *)
Definition ranges_to (ends : list Z) : M (list Decoration.t) :=
  foldM (fun acc to => d <- Decoration.range 0 to plainSpec ;; ret (acc ++ [d])) ends [].

(** The heap after [addToHeap] of ranges with the given ends, in order. *)
Definition heap_of (ends : list Z) : list Decoration.t :=
  match value (ranges_to ends) with
  | Some ds => fold_left addToHeap ds []
  | None => []
  end.

(** A sample change, an insertion of [n] characters at [at_]: positions
    before stay, positions after move by [n], and a position at [at_] stays
    for [assoc <= 0] and moves otherwise. *)
Definition insertion (at_ n : Z) : Change.t :=
  Change.mk at_ at_ n
    (fun pos assoc =>
       if pos <? at_ then pos
       else if pos >? at_ then pos + n
       else if assoc <=? 0 then pos else pos + n).

(** [Decoration.range(i, i + 1, {})] for [i = start, ..., start + n - 1]. *)
Fixpoint unit_ranges (n : nat) (start : Z) : M (list Decoration.t) :=
  match n with
  | O => ret []
  | S n' =>
      d <- Decoration.range start (start + 1) plainSpec ;;
      rest <- unit_ranges n' (start + 1) ;;
      ret (d :: rest)
  end.

(** [smallDecorations] of the test file: [Decoration.range(i, i + 1 + i % 4)]
    for [i = start, ..., start + n - 1]. *)
Fixpoint smallDecorations (n : nat) (start : Z) : M (list Decoration.t) :=
  match n with
  | O => ret []
  | S n' =>
      d <- Decoration.range start (start + 1 + start mod 4) plainSpec ;;
      rest <- smallDecorations n' (start + 1) ;;
      ret (d :: rest)
  end.

(** The test "collapses the tree when removing almost all decorations":
    [set0 = DecorationSet.of(smallDecorations)] with 5000 decorations, then
    [set0.update([], from => from == 500 || from == 501)]. *)
Definition collapse_test : M DecorationSet.t :=
  decorations <- smallDecorations 5000 0 ;;
  set0 <- set_of 48 decorations ;;
  update_default 48 set0 [] (Some (fun from _ _ => (from =? 500) || (from =? 501))).

(** [local] is sorted by the comparator [byPos]. *)
Fixpoint sorted_byPos (l : list Decoration.t) : bool :=
  match l with
  | [] => true
  | x :: rest =>
      match rest with
      | [] => true
      | y :: _ => (byPos x y <=? 0) && sorted_byPos rest
      end
  end.

(** The invariants of the data model at one node: [size] is the number of
    local decorations plus the sizes of the children, the lengths of the
    children sum to at most [length], [local] is sorted, and every local
    decoration has [0 <= from <= to <= length]. *)
Definition node_ok (this : DecorationSet.t) : bool :=
  (DecorationSet.size this
   =? len (DecorationSet.local this)
      + fold_left (fun acc c => acc + DecorationSet.size c) (DecorationSet.children this) 0)
  && (fold_left (fun acc c => acc + DecorationSet.length c) (DecorationSet.children this) 0
      <=? DecorationSet.length this)
  && sorted_byPos (DecorationSet.local this)
  && forallb (fun d => (0 <=? Decoration.from d)
                       && (Decoration.from d <=? Decoration.to d)
                       && (Decoration.to d <=? DecorationSet.length this))
             (DecorationSet.local this).

(** The invariants at every node of a tree, as [checkSet] of the test file
    walks it. *)
Fixpoint checkSet (this : DecorationSet.t) : bool :=
  node_ok this
  && match this with
     | DecorationSet.mk _ _ _ _ children =>
         (fix each (children : list DecorationSet.t) : bool :=
            match children with
            | [] => true
            | child :: rest => checkSet child && each rest
            end) children
     end.

(** The positions of the decorations of a set, as [collect] with offset 0
    lists them. *)
Definition positions (this : DecorationSet.t) : list (Z * Z) :=
  List.map (fun d => (Decoration.from d, Decoration.to d))
           (DecorationSet.collect this [] 0).

(** What the contract of [update] asks the result to hold: the old
    decorations outside the window or accepted by the filter, then the new
    ones. *)
Definition update_spec (this : DecorationSet.t) (newDecos : list Decoration.t)
    (filter : DecorationFilter) (filterFrom filterTo : Z) : list (Z * Z) :=
  List.map (fun d => (Decoration.from d, Decoration.to d))
    (List.filter (fun d => (Decoration.to d <? filterFrom) || (filterTo <? Decoration.from d)
                           || filter (Decoration.from d) (Decoration.to d) (Decoration.spec d))
                 (DecorationSet.collect this [] 0)
     ++ newDecos).

(** [set0 = DecorationSet.of(ranges)] for the 33 ranges [i, i+1], then
    [set0.update(added(), from => from >= keepFrom)]. *)
Definition filtered33 (added : M (list Decoration.t)) (keepFrom : Z)
  : M (DecorationSet.t * DecorationSet.t * list (Z * Z)) :=
  ranges <- unit_ranges 33 0 ;;
  set0 <- set_of 4 ranges ;;
  new <- added ;;
  let keep : DecorationFilter := fun from _ _ => from >=? keepFrom in
  set1 <- update_default 4 set0 new (Some keep) ;;
  ret (set0, set1, update_spec set0 new keep 0 (DecorationSet.length set0)).

(** Two widgets of different classes. *)
Definition widgetA : WidgetType.t := WidgetType.mk 1000 1 1 (-1).
Definition widgetB : WidgetType.t := WidgetType.mk 1001 2 2 (-1).

Definition collapsedBy (w : WidgetType.t) : DecorationRangeSpec :=
  mkRangeSpec false false None None None None (CollapsedWidget w).

(** [a = DecorationSet.of([Decoration.range(0, 20, {collapsed: widgetA})])],
    [b = DecorationSet.of([Decoration.range(0, 100, {collapsed: widgetB})])],
    [a.changedRanges(b, textDiff)]. *)
Definition collapsed_diff (textDiff : list ChangedRange) : M Changes :=
  da <- Decoration.range 0 20 (collapsedBy widgetA) ;;
  a <- set_of 4 [da] ;;
  db <- Decoration.range 0 100 (collapsedBy widgetB) ;;
  b <- set_of 4 [db] ;;
  changedRanges 16 a b textDiff.

(** The text length an array of children covers. *)
Definition total_length (children : list DecorationSet.t) : Z :=
  fold_right (fun c acc => DecorationSet.length c + acc) 0 children.

(** A leaf of size 0 and length 5. *)
Definition emptyLeaf : DecorationSet.t := DecorationSet.mk 1 5 0 [] [].

(** A leaf that holds the 32 ranges [i, i+1]. *)
Definition leaf32 (sid : N) : DecorationSet.t :=
  DecorationSet.mk sid 32 32 (or_ (value (unit_ranges 32 0)) []) [].

(** A node over two such leaves. *)
Definition twoLeaves32 : DecorationSet.t :=
  DecorationSet.mk 4 64 64 [] [leaf32 2; leaf32 3].

(** [rebalanceChildren] at its first iteration, in a node that holds 33
    decorations itself and whose only child is the empty leaf. *)
Definition sole_empty_child : Rebalance :=
  mkRebalance (or_ (value (unit_ranges 33 0)) []) false [emptyLeaf] 0 0.

(** The empty leaf in front of a sibling. *)
Definition first_empty_child : Rebalance :=
  mkRebalance [] false [emptyLeaf; twoLeaves32] 0 0.

(** The empty leaf after that sibling, at the second iteration. *)
Definition second_empty_child : Rebalance :=
  mkRebalance [] false [twoLeaves32; emptyLeaf] 1 64.

Definition attr (name : string) : DecorationRangeSpec :=
  mkRangeSpec false false (Some [(name, "y"%string)]) None None None NotCollapsed.

(** The test "notices added decorations": [ranges (2,4), (8,11)], then
    [update([range(3, 9), range(106, 107)])], compared with an empty text
    diff. *)
Definition added_diff : M Changes :=
  d1 <- Decoration.range 2 4 (attr "a") ;;
  d2 <- Decoration.range 8 11 (attr "a") ;;
  old <- set_of 4 [d1; d2] ;;
  d3 <- Decoration.range 3 9 (attr "b") ;;
  d4 <- Decoration.range 106 107 (attr "b") ;;
  new <- update_default 4 old [d3; d4] None ;;
  changedRanges 32 old new [].

(** A node that holds the decorations and the children of [child]. *)
Definition reuses (child c' : DecorationSet.t) : Prop :=
  DecorationSet.local c' = DecorationSet.local child
  /\ DecorationSet.children c' = DecorationSet.children child
  /\ DecorationSet.size c' = DecorationSet.size child.

(** What this file relies on of a [Change]: it replaces the text between
    [from] and [to], with [0 <= from <= to], so that a position before [from]
    stays and a position after [to] moves by the change of length. *)
Definition Change_ok (change : Change.t) : Prop :=
  0 <= Change.from change <= Change.to change
  /\ (forall pos assoc, pos < Change.from change -> Change.mapPos change pos assoc = pos)
  /\ (forall pos assoc,
         Change.to change < pos ->
         Change.mapPos change pos assoc
         = pos + (Change.text_length change - (Change.to change - Change.from change))).

(** The start positions a call of [mapInner] is given: the new start is the
    old start mapped, as for every child after the first, or both are 0, as
    in [map]. *)
Definition start_ok (oldStart newStart : Z) (changes : list Change.t) : Prop :=
  newStart = mapPos oldStart changes 1 false \/ (oldStart = 0 /\ newStart = 0).

(** The old position at which the child at index [i] starts. *)
Definition child_start (this : DecorationSet.t) (oldStart : Z) (i : nat) : Z :=
  oldStart + total_length (firstn i (DecorationSet.children this)).

(** [touchesChange], as the specification words it: some change intersects
    the range, the range being adjusted by every change before it. *)
Inductive touches : Z -> Z -> list Change.t -> Prop :=
| touches_here : forall from to change rest,
    Change.to change >= from -> Change.from change <= to ->
    touches from to (change :: rest)
| touches_later : forall from to change rest,
    ~ (Change.to change >= from /\ Change.from change <= to) ->
    touches
      (if from >? Change.from change
       then from + (Change.text_length change - (Change.to change - Change.from change))
       else from)
      (if to >? Change.to change
       then to + (Change.text_length change - (Change.to change - Change.from change))
       else to)
      rest ->
    touches from to (change :: rest).

(** A node with two leaves of length 5, and a change that inserts two
    characters at position 8, inside the second leaf. *)
Definition twoLeaves : DecorationSet.t :=
  DecorationSet.mk 3 10 2 []
    [DecorationSet.mk 1 5 1 [Decoration.mk 1 2 (RangeDesc 10 plainSpec)] [];
     DecorationSet.mk 2 5 1 [Decoration.mk 1 2 (RangeDesc 11 plainSpec)] []].

(** Every node of [l] has a node in [l'] that reuses it. *)
Definition covers (l l' : list DecorationSet.t) : Prop :=
  forall x, In x l -> exists x', In x' l' /\ reuses x x'.

(** [set0 = DecorationSet.of(ranges)] for the 33 ranges [i, i+1], a root
    with leaves of lengths 32 and 1, and [set0.update([Decoration.range(31,
    33, {})])]: the decoration crosses the end of the first leaf.  Returns
    [set0], the variables of the child loop of the root call when it ends,
    and the result. *)
Definition straddling_update : M (DecorationSet.t * Distribute * DecorationSet.t) :=
  ranges <- unit_ranges 33 0 ;;
  set0 <- set_of 4 ranges ;;
  d <- Decoration.range 31 33 plainSpec ;;
  st <- updateInner_children (updateInner 3) set0 [d] None 0 33 0
          0 (DecorationSet.children set0)
          (mkDistribute (filterDecorations (DecorationSet.local set0) None 0 33 0)
                        None 0 0 0) ;;
  set1 <- update_default 4 set0 [d] None ;;
  ret (set0, st, set1).

(** Case analysis on the innermost scrutinee of a hypothesis. *)
Ltac break_match_in H :=
  match type of H with
  | context [match ?x with _ => _ end] =>
      match x with
      | context [match _ with _ => _ end] => fail 1
      | _ => destruct x eqn:?
      end
  end.

(** The arrays that calls of [addRange] build from the empty array. *)
Inductive Built : list Z -> Prop :=
| Built_empty : Built []
| Built_add : forall from to ranges, Built ranges -> Built (addRange from to ranges).

(** An array of whole pairs [from, to], read from its end: every pair starts
    at least [MIN_RANGE_GAP] after the end of the pair before it. *)
Fixpoint merged_rev (reversed : list Z) : Prop :=
  match reversed with
  | [] => True
  | [_] => False
  | to :: from :: rest =>
      match rest with
      | [] => True
      | to' :: _ => to' + MIN_RANGE_GAP <= from
      end
      /\ merged_rev rest
  end.

Definition merged (ranges : list Z) : Prop := merged_rev (rev ranges).

Definition Changes_built (c : Changes) : Prop :=
  Built (content c) /\ Built (height c).

(** *** Definitions for the properties of the helper functions *)

(** The test of l.506: the decoration is outside the window or the filter
    accepts it. *)
Definition filter_keeps (filter : DecorationFilter) (filterFrom filterTo offset : Z)
    (deco : Decoration.t) : bool :=
  let from := Decoration.from deco + offset in
  let to := Decoration.to deco + offset in
  (filterFrom >? to) || (filterTo <? from) || filter from to (Decoration.spec deco).

(** What [filterDecorations] leaves of [local], whether copied or not. *)
Definition kept_local (local : list Decoration.t) (filter : option DecorationFilter)
    (filterFrom filterTo offset : Z) : list Decoration.t :=
  match filter with
  | Some f => List.filter (filter_keeps f filterFrom filterTo offset) local
  | None => local
  end.

(** [o[key]] on an attribute object. *)
Definition attr_get (o : Attrs) (key : string) : option string :=
  option_map snd (find (fun kv => String.eqb (fst kv) key) o).

(** The keys of an object are distinct. *)
Definition attrs_distinct (a : option Attrs) : Prop :=
  match a with Some a' => NoDup (List.map fst a') | None => True end.

(** The children of index [i] in the array of a binary heap. *)
Definition child_of (i j : nat) : Prop := j = (2 * i + 1)%nat \/ j = (2 * i + 2)%nat.

Section HeapOrder.

Context {A : Type} `{Heapable A}.

(** The element at [i] is at most each of its children. *)
Definition below (heap : list A) (i : nat) : Prop :=
  forall x j c,
    nth_error heap i = Some x -> child_of i j -> nth_error heap j = Some c ->
    compareHeapable x c <= 0.

End HeapOrder.

(** The loop of [collect] over the children. *)
Definition collect_each :=
  fix each (children : list DecorationSet.t) (target : list Decoration.t) (offset : Z) :=
    match children with
    | [] => target
    | child :: rest =>
        each rest (DecorationSet.collect child target offset)
          (offset + DecorationSet.length child)
    end.

(** What [mapInner] keeps of a local decoration: its image, unless there is
    none or it falls outside [0, newLength]. *)
Definition mapped_inside (cs : list Change.t) (oldStart newStart newLength : Z)
    (deco : Decoration.t) : list Decoration.t :=
  match Decoration.map deco cs oldStart newStart with
  | Some m =>
      if (Decoration.from m <? 0) || (Decoration.to m >? newLength) then [] else [m]
  | None => []
  end.

(** The heap element is a cursor, not an open range. *)
Definition is_cursor (e : LineElt) : Prop :=
  match e with LineCursor _ => True | LineActive _ => False end.

(** Every node of the tree covers a length that is not negative. *)
Fixpoint lengths_nonneg (this : DecorationSet.t) : bool :=
  match this with
  | DecorationSet.mk _ length _ _ children =>
      (0 <=? length)
      && (fix each (children : list DecorationSet.t) : bool :=
            match children with
            | [] => true
            | child :: rest => lengths_nonneg child && each rest
            end) children
  end.

(** A call that does not take the builder past [to]. *)
Definition call_within (to : Z) (c : BuilderCall) : Prop :=
  match c with
  | Advance p | AdvanceCollapsed p => p <= to
  | AddWidget _ _ => True
  end.

(** The entries of a traversal stack start at offsets that are not
    negative, in trees of lengths that are not negative. *)
Definition stack_ok (stack : list IteratedSet) : Prop :=
  Forall (fun e => 0 <= it_offset e /\ lengths_nonneg (it_set e) = true) stack.

(** The same for a cursor on the heap and the stack it carries. *)
Definition elt_ok (e : LineElt) : Prop :=
  match e with
  | LineCursor l =>
      0 <= ll_offset l
      /\ match ll_next l with Some stack => stack_ok stack | None => True end
  | LineActive _ => True
  end.

(** The iterations [iterDecorationSet] has left at most: one for every
    child not yet entered and one to leave each node. *)
Definition stack_work (stack : list IteratedSet) : nat :=
  fold_right (fun e acc =>
                (S (List.length (DecorationSet.children (it_set e)) - it_index e) + acc)%nat)
             O stack.

(** No entry of the stack is past the children of its node. *)
Definition indices_ok (stack : list IteratedSet) : Prop :=
  Forall (fun e => (it_index e <= List.length (DecorationSet.children (it_set e)))%nat) stack.

(** The number of nodes of a tree. *)
Fixpoint nodes (this : DecorationSet.t) : nat :=
  match this with
  | DecorationSet.mk _ _ _ _ children => S (list_sum (List.map nodes children))
  end.

(** The number of decorations a tree holds, whatever its [size] fields say. *)
Fixpoint decos (this : DecorationSet.t) : nat :=
  match this with
  | DecorationSet.mk _ _ _ local children =>
      (List.length local + list_sum (List.map decos children))%nat
  end.

(** The children a stack entry has not moved past. *)
Definition ahead (e : IteratedSet) : list DecorationSet.t :=
  skipn (it_index e) (DecorationSet.children (it_set e)).

(** A bound on the iterations of [iterDecorationSet] a stack can still take
    part in, over all later calls: one to leave each entry and two for every
    node ahead of it. *)
Definition stack_steps (stack : list IteratedSet) : nat :=
  list_sum (List.map (fun e => S (2 * list_sum (List.map nodes (ahead e)))) stack).

(** The decorations in the nodes a stack has ahead. *)
Definition stack_decos (stack : list IteratedSet) : nat :=
  list_sum (List.map (fun e => list_sum (List.map decos (ahead e))) stack).

(** A bound on the iterations of the loop of [buildLineElements] an element
    of the heap accounts for. *)
Definition elt_weight (e : LineElt) : nat :=
  match e with
  | LineActive _ => 1
  | LineCursor l =>
      2 * (List.length (ll_decorations l) - ll_index l)
      + match ll_next l with Some stack => 2 * stack_decos stack | None => 0 end
  end.

Definition heap_weight (heap : list LineElt) : nat :=
  list_sum (List.map elt_weight heap).

(** A cursor on the heap points at a decoration, and the stack it carries
    can be taken up within [bound] steps. *)
Definition elt_live (bound : nat) (e : LineElt) : Prop :=
  match e with
  | LineActive _ => True
  | LineCursor l =>
      (ll_index l < List.length (ll_decorations l))%nat
      /\ match ll_next l with
         | Some stack => indices_ok stack /\ (stack_steps stack <= bound)%nat
         | None => True
         end
  end.

(** The decorations a stack still leads to: those in the nodes ahead, and
    those of its top entry, which no cursor was made for yet. *)
Definition stack_pending (stack : list IteratedSet) : nat :=
  (stack_decos stack
   + match top_of stack with
     | Some top => List.length (DecorationSet.local (it_set top))
     | None => 0
     end)%nat.

(** A bound on the calls of [advance] an element of a heap of the
    comparison accounts for. *)
Definition cmp_weight (e : HeapElt) : nat :=
  match e with
  | Active _ => 1
  | Cursor l => 2 * (List.length (ls_decorations l) - ls_index l)
  end.

Definition side_weight (s : ComparisonSide) : nat :=
  (list_sum (List.map cmp_weight (heap s)) + 2 * stack_pending (stack s))%nat.

(** A cursor on the heap points at a decoration. *)
Definition cmp_live (e : HeapElt) : Prop :=
  match e with
  | Active _ => True
  | Cursor l => (ls_index l < List.length (ls_decorations l))%nat
  end.

Definition side_ok (s : ComparisonSide) : Prop :=
  Forall cmp_live (heap s) /\ indices_ok (stack s).

Definition cmp_ok (this : DecorationSetComparison) : Prop :=
  side_ok (a this) /\ side_ok (b this).

Definition cmp_total (this : DecorationSetComparison) : nat :=
  (side_weight (a this) + side_weight (b this))%nat.

Definition cmp_steps (this : DecorationSetComparison) : nat :=
  (stack_steps (stack (a this)) + stack_steps (stack (b this)))%nat.

(** Three ranges as they sit on a heap in order: ends 1, 3, 2. *)
Definition ordered_heap : list Decoration.t :=
  [Decoration.mk 0 1 (RangeDesc 1 plainSpec);
   Decoration.mk 0 3 (RangeDesc 2 plainSpec);
   Decoration.mk 0 2 (RangeDesc 3 plainSpec)].

(** A leaf of length 20 with two styled ranges, a range collapsed by a
    widget and a point widget. *)
Definition line_leaf : DecorationSet.t :=
  DecorationSet.mk 1 20 4
    [Decoration.mk 2 4 (RangeDesc 10 (attr "a"));
     Decoration.mk 3 9 (RangeDesc 11 (collapsedBy widgetA));
     Decoration.mk 5 5 (PointDesc 12 (mkPointSpec (Some 1) None (Some widgetB)));
     Decoration.mk 8 11 (RangeDesc 13 (attr "a"))]
    [].

(** The builder a run over [sets] leaves, started empty. *)
Definition line_run (sets : list DecorationSet.t) (from to : Z) (heightOnly : bool)
  : LineBuilder :=
  match buildLineElements 16 sets from to (mkLineBuilder [] []) heightOnly 1%N with
  | Ok builder _ => builder
  | Throw _ => mkLineBuilder [] []
  end.

(* ================================================================== *)
(** * Properties *)

(** ** Decoration construction (C5) *)

(** C5.  [Decoration.range(from, to, spec)] throws the range error exactly when
    [from >= to], and otherwise returns a decoration whose [from] and [to]
    are the ones given; [Decoration.point(pos, spec)] never throws and returns
    a decoration with [from = to = pos]. *)
Theorem range_point_construction :
  forall (from to pos : Z) (rspec : DecorationRangeSpec) (pspec : DecorationPointSpec)
         (n : N),
    ((exists e, Decoration.range from to rspec n = Throw e) <-> from >= to)
    /\ (Decoration.range from to rspec n = Throw RangeError
        \/ exists d n', Decoration.range from to rspec n = Ok d n'
                        /\ Decoration.from d = from /\ Decoration.to d = to)
    /\ (exists d n', Decoration.point pos pspec n = Ok d n'
                     /\ Decoration.from d = pos /\ Decoration.to d = pos).
Proof.
  intros from to pos rspec pspec n.
  unfold Decoration.range, Decoration.point, throw, bind, alloc, ret.
  destruct (from >=? to) eqn:Hcmp.
  - assert (from >= to) by (apply Z.geb_le in Hcmp; lia).
    split; [| split].
    + split; [intros _; assumption | intros _; eexists; reflexivity].
    + left; reflexivity.
    + do 2 eexists; repeat split.
  - assert (from < to) by (rewrite Z.geb_leb in Hcmp; apply Z.leb_gt in Hcmp; lia).
    split; [| split].
    + split; [intros [e He]; discriminate | lia].
    + right; do 2 eexists; repeat split.
    + do 2 eexists; repeat split.
Qed.

(** ** Mapping one decoration (C3) *)

Lemma mapPos_untracked :
  forall changes pos assoc,
    mapPos pos changes assoc false = mapPos_plain pos changes assoc.
Proof.
  intros cs; induction cs as [| c rest IH]; intros p assoc; simpl; [reflexivity |].
  apply IH.
Qed.

Lemma mapPos_tracked_nonneg :
  forall changes pos assoc,
    Forall maps_positions changes -> 0 <= pos ->
    match mapPos_tracked pos changes assoc with
    | Some p => mapPos pos changes assoc true = p /\ 0 <= p
    | None => mapPos pos changes assoc true = -1
    end.
Proof.
  intros cs; induction cs as [| c rest IH]; intros pos assoc Hall Hpos; simpl.
  - split; [reflexivity | assumption].
  - inversion Hall as [| c' rest' Hc Hrest]; subst.
    destruct ((Change.from c <? pos) && (Change.to c >? pos)); [reflexivity |].
    apply IH; [assumption | apply Hc; assumption].
Qed.


Lemma insertion_maps_positions : forall at_ n, 0 <= n -> maps_positions (insertion at_ n).
Proof.
  intros at_ n Hn pos assoc Hpos. unfold insertion; simpl.
  destruct (pos <? at_); [assumption |].
  destruct (pos >? at_); [lia |].
  destruct (assoc <=? 0); lia.
Qed.


(** ** The heap (C4) *)

(** C4, evaluated.  After [addToHeap] of ranges that end at 1, 2, 5, 3, 6, 7,
    4 on an empty array, the element at index 2 (end 5) is greater than its
    child at index 6 (end 4); and after three more that end at 8, 9, 10,
    [takeFromHeap] returns the range that ends at 5 while the one that ends
    at 4 is still in the heap, so the elements come out as 1, 2, 3, 5, 4,
    ... *)
Theorem heap_order_broken :
  List.map Decoration.to (heap_of [1; 2; 5; 3; 6; 7; 4]) = [1; 2; 5; 3; 6; 7; 4]
  /\ heap_ordered (heap_of [1; 2; 5; 3; 6; 7; 4]) = false
  /\ List.map Decoration.to (drain 10 (heap_of [1; 2; 5; 3; 6; 7; 4; 8; 9; 10]))
     = [1; 2; 3; 5; 4; 6; 7; 8; 9; 10].
Proof. vm_compute. repeat split. Qed.

(** ** Invariants and contents after update (C1, C2) *)

(** C1, evaluated.  [set0] is built by [DecorationSet.of] from the 33 ranges
    [i, i+1] and satisfies the invariants; [set0.update([], from => from >= 32)]
    is a leaf whose only decoration is at [-32, -31], so [0 <= d.from] fails;
    adding [range(5, 6)] with the filter [from >= 30] gives a leaf whose
    [local] is not sorted. *)
Theorem update_breaks_invariants :
  (exists set0 set1 kept,
      value (filtered33 (ret []) 32) = Some (set0, set1, kept)
      /\ checkSet set0 = true
      /\ positions set1 = [(-32, -31)]
      /\ checkSet set1 = false)
  /\ (exists set0 set1 kept,
         value (filtered33 (d <- Decoration.range 5 6 plainSpec ;; ret [d]) 30)
         = Some (set0, set1, kept)
         /\ checkSet set0 = true
         /\ List.map Decoration.from (DecorationSet.local set1) = [5; 30; 31; -32; 5]
         /\ sorted_byPos (DecorationSet.local set1) = false).
Proof.
  split.
  - do 3 eexists. split; [vm_compute; reflexivity |].
    vm_compute. repeat split.
  - do 3 eexists. split; [vm_compute; reflexivity |].
    vm_compute. repeat split.
Qed.

(** C2, evaluated.  On the same inputs the contract asks for the decoration
    at [32, 33], and [update] returns it at [-32, -31]; with [range(5, 6)]
    added and the filter [from >= 30] the contract asks for four
    decorations, and [update] returns five, the added one twice.  The length
    of the result is the one the contract gives, 33. *)
Theorem update_misplaces_decorations :
  (exists set0 set1 kept,
      value (filtered33 (ret []) 32) = Some (set0, set1, kept)
      /\ kept = [(32, 33)]
      /\ positions set1 = [(-32, -31)]
      /\ DecorationSet.length set1 = 33)
  /\ (exists set0 set1 kept,
         value (filtered33 (d <- Decoration.range 5 6 plainSpec ;; ret [d]) 30)
         = Some (set0, set1, kept)
         /\ kept = [(30, 31); (31, 32); (32, 33); (5, 6)]
         /\ positions set1 = [(5, 6); (30, 31); (31, 32); (-32, -31); (5, 6)]
         /\ DecorationSet.size set1 = 5).
Proof.
  split.
  - do 3 eexists. split; [vm_compute; reflexivity |].
    vm_compute. repeat split.
  - do 3 eexists. split; [vm_compute; reflexivity |].
    vm_compute. repeat split.
Qed.

(** The same defect in the test "collapses the tree when removing almost all
    decorations", which only asserts the size and the depth: the two
    decorations kept, at [500, 501] and [501, 503], are returned at
    [-500, -499] and [-499, -497]. *)
Lemma collapse_test_positions :
  option_map (fun s => (DecorationSet.size s, DecorationSet.depth s, positions s))
             (value collapse_test)
  = Some (2, 1%nat, [(-500, -499); (-499, -497)]).
Proof. vm_compute. reflexivity. Qed.

(** ** The final comparison of changedRanges (C10) *)

Lemma changedRanges_loop_positions :
  forall fuel this other textDiff changes0 oldPos0 newPos0 n changes1 oldPos newPos n',
    changedRanges_loop fuel this other textDiff changes0 oldPos0 newPos0 n
    = Ok (changes1, oldPos, newPos) n' ->
    (oldPos, newPos)
    = last (List.map (fun r => (toA r, toB r)) textDiff) (oldPos0, newPos0).
Proof.
  intros fuel this other textDiff.
  induction textDiff as [| r rest IH]; intros c0 o0 p0 n c1 o p n' H.
  - simpl in H. unfold ret in H. inversion H; reflexivity.
  - simpl in H. unfold bind in H at 1.
    match type of H with
    | match ?c with _ => _ end = _ => destruct c as [c' m | e]; [| discriminate]
    end.
    apply IH in H. rewrite H. simpl.
    destruct (List.map (fun r0 => (toA r0, toB r0)) rest) as [| x l]; [reflexivity |].
    clear. revert x. induction l as [| y l IHl]; intros x; [reflexivity |].
    change (last (x :: y :: l) (toA r, toB r)) with (last (y :: l) (toA r, toB r)).
    change (last (x :: y :: l) (o0, p0)) with (last (y :: l) (o0, p0)).
    apply IHl.
Qed.


(** ** Dropping empty children in rebalanceChildren (C8) *)

Lemma total_length_app :
  forall l1 l2, total_length (l1 ++ l2) = total_length l1 + total_length l2.
Proof.
  induction l1 as [| x l1 IH]; intros l2; simpl; [reflexivity |].
  rewrite IH. lia.
Qed.


(** The loop that follows the removal of an only child reads
    [children[-1].size] and throws. *)
Lemma rebalance_sole_empty_child_throws :
  rebalanceChildren (updateInner 1) 4 (rb_local sole_empty_child) [emptyLeaf] 32 5%N
  = Throw TypeError.
Proof. vm_compute. reflexivity. Qed.

Lemma rebalance_step_index :
  forall rec childSize st i child n st' n',
    rb_i st = Z.of_nat i ->
    nth_error (rb_children st) i = Some child ->
    rebalance_step rec childSize st n = Ok st' n' ->
    if (DecorationSet.size child =? 0)
       && ((rb_i st >? 0) || (len (rb_children st) =? 1))
    then rb_i st' = rb_i st - 1
    else rb_i st <= rb_i st'.
Proof.
  intros rec childSize st i child n st' n' Hi Hchild Hstep.
  unfold rebalance_step in Hstep.
  rewrite Hi, Nat2Z.id, Hchild in Hstep.
  assert (Hneg : (Z.of_nat i <? 0) = false) by (apply Z.ltb_ge; lia).
  rewrite Hneg in Hstep. rewrite Hi.
  destruct ((DecorationSet.size child =? 0)
            && ((Z.of_nat i >? 0) || (len (rb_children st) =? 1))).
  - unfold bind, ret, throw, DecorationSet.grow, DecorationSet.new, alloc in Hstep.
    repeat (break_match_in Hstep; try discriminate);
      inversion Hstep; subst; reflexivity.
  - unfold bind, ret, throw, DecorationSet.new, alloc in Hstep.
    repeat (break_match_in Hstep; try discriminate);
      inversion Hstep; subst; simpl; try lia.
    all: match goal with
         | Hlt : (S _ <? _)%nat = true |- _ => apply Nat.ltb_lt in Hlt; lia
         end.
Qed.

Lemma set_nth_middle :
  forall {A} (l1 l2 : list A) x y,
    JS.set_nth (List.length l1) x (l1 ++ y :: l2) = l1 ++ x :: l2.
Proof.
  intros A l1; induction l1 as [| z l1 IH]; intros l2 x y; simpl; [reflexivity |].
  rewrite IH. reflexivity.
Qed.

Lemma nth_error_middle :
  forall {A} (l1 l2 : list A) y, nth_error (l1 ++ y :: l2) (List.length l1) = Some y.
Proof.
  intros A l1; induction l1 as [| z l1 IH]; intros l2 y; simpl; [reflexivity | apply IH].
Qed.

Lemma splice_one :
  forall {A} (l1 l2 : list A) x,
    JS.splice (List.length l1) 1 [] (l1 ++ x :: l2) = l1 ++ l2.
Proof.
  intros A l1 l2 x. unfold JS.splice. simpl app.
  rewrite firstn_app, firstn_all, Nat.sub_diag. simpl firstn. rewrite app_nil_r.
  f_equal. replace (List.length l1 + 1)%nat with (List.length l1 + 1)%nat by reflexivity.
  rewrite skipn_app, skipn_all2 by lia. simpl.
  replace (List.length l1 + 1 - List.length l1)%nat with 1%nat by lia. reflexivity.
Qed.



(** ** Returning the receiver (C6) *)

Lemma filterDecorations_loop_keeps_all :
  forall decorations (f : DecorationFilter) filterFrom filterTo offset,
    (forall from to spec, f from to spec = true) ->
    forall rest i,
      filterDecorations_loop decorations f filterFrom filterTo offset i rest None = None.
Proof.
  intros decorations f filterFrom filterTo offset Hf rest.
  induction rest as [| deco rest IH]; intros i; simpl; [reflexivity |].
  rewrite Hf, Bool.orb_true_r. apply IH.
Qed.

Lemma depth_child :
  forall (this child : DecorationSet.t),
    In child (DecorationSet.children this) ->
    (DecorationSet.depth child < DecorationSet.depth this)%nat.
Proof.
  intros [sid length size local children] child Hin. simpl in *.
  apply Nat.lt_succ_r.
  induction children as [| c rest IH]; [contradiction |].
  destruct Hin as [-> | Hin].
  - apply Nat.le_max_l.
  - etransitivity; [apply IH; exact Hin | apply Nat.le_max_r].
Qed.

Lemma depth_pos : forall this, (0 < DecorationSet.depth this)%nat.
Proof. intros [sid length size local children]; simpl; lia. Qed.

(** With nothing to add and a filter that keeps everything, the child loop
    leaves [local] and [children] null, provided the calls on the children
    return the children themselves. *)
Lemma updateInner_children_untouched :
  forall (rec : UpdateInner) this (f : DecorationFilter) filterFrom filterTo offset rest,
    (forall child ff ft off length n,
        In child rest -> rec child [] (Some f) ff ft off length n = Ok child n) ->
    forall i size pos n,
    exists size' pos',
      updateInner_children rec this [] (Some f) filterFrom filterTo offset i rest
        (mkDistribute None None size 0 pos) n
      = Ok (mkDistribute None None size' 0 pos') n.
Proof.
  intros rec this f filterFrom filterTo offset rest.
  induction rest as [| child rest IH]; intros Hrec i size pos n; simpl.
  - do 2 eexists. reflexivity.
  - unfold bind at 1. unfold updateInner_child. simpl.
    assert (Hnew :
              (if filterFrom <=? pos + DecorationSet.length child
               then if filterTo >=? pos
                    then rec child [] (Some f) filterFrom filterTo pos
                           (DecorationSet.length child)
                    else ret child
               else ret child) n = Ok child n).
    { destruct (filterFrom <=? pos + DecorationSet.length child);
        [destruct (filterTo >=? pos) |]; try reflexivity.
      apply Hrec. left; reflexivity. }
    unfold bind at 1.
    replace ((if (filterFrom <=? pos + DecorationSet.length child) && (filterTo >=? pos)
              then rec child [] (Some f) filterFrom filterTo pos (DecorationSet.length child)
              else ret child) n)
      with (Ok child n).
    2:{ rewrite <- Hnew.
        destruct (filterFrom <=? pos + DecorationSet.length child);
          destruct (filterTo >=? pos); reflexivity. }
    unfold DecorationSet.same. rewrite N.eqb_refl. cbv [ret negb].
    apply IH. intros; apply Hrec; right; assumption.
Qed.

Lemma updateInner_noop :
  forall fuel (f : DecorationFilter),
    (forall from to spec, f from to spec = true) ->
    forall this filterFrom filterTo offset length n,
      (DecorationSet.depth this <= fuel)%nat ->
      updateInner fuel this [] (Some f) filterFrom filterTo offset length n = Ok this n.
Proof.
  intros fuel f Hf. induction fuel as [| fuel IH];
    intros this filterFrom filterTo offset length n Hdepth.
  - pose proof (depth_pos this). lia.
  - simpl. unfold updateInner_body.
    unfold filterDecorations. rewrite filterDecorations_loop_keeps_all by exact Hf.
    destruct (updateInner_children_untouched (updateInner fuel) this f filterFrom filterTo
                offset (DecorationSet.children this)) with (i := O) (size := 0)
                (pos := offset) (n := n) as [size' [pos' Hloop]].
    { intros child ff ft off len' m Hin. apply IH.
      pose proof (depth_child this child Hin). lia. }
    unfold bind. rewrite Hloop. simpl. reflexivity.
Qed.




(** ** Sharing in map (C9) *)

Lemma touchesChange_iff :
  forall cs from to, touchesChange from to cs = true <-> touches from to cs.
Proof.
  intros cs; induction cs as [| c rest IH]; intros from to; simpl.
  - split; [discriminate | intros H; inversion H].
  - destruct ((Change.to c >=? from) && (Change.from c <=? to)) eqn:Hhere.
    + apply andb_true_iff in Hhere. destruct Hhere as [H1 H2].
      apply Z.geb_le in H1. apply Z.leb_le in H2.
      split; [intros _; apply touches_here; lia | reflexivity].
    + assert (Hnot : ~ (Change.to c >= from /\ Change.from c <= to)).
      { intros [H1 H2]. apply andb_false_iff in Hhere.
        destruct Hhere as [H | H];
          [rewrite Z.geb_leb in H; apply Z.leb_gt in H | apply Z.leb_gt in H]; lia. }
      rewrite IH. split.
      * intros H. apply touches_later; assumption.
      * intros H. inversion H; subst; [exfalso; apply Hnot; split; assumption | assumption].
Qed.

Lemma mapPos_untouched :
  forall cs from to assoc,
    Forall Change_ok cs -> from <= to ->
    touchesChange from to cs = false ->
    mapPos to cs assoc false - mapPos from cs assoc false = to - from.
Proof.
  intros cs; induction cs as [| c rest IH]; intros from to assoc Hok Hle Htouch; simpl.
  - reflexivity.
  - inversion Hok as [| c' rest' [[Hc0 Hc1] [Hbefore Hafter]] Hrest]; subst.
    simpl in Htouch.
    destruct ((Change.to c >=? from) && (Change.from c <=? to)) eqn:Hhere;
      [discriminate |].
    apply andb_false_iff in Hhere.
    destruct (Z.ltb_spec (Change.to c) from) as [Hlt | Hge].
    + (* the change ends before the range *)
      replace (from >? Change.from c) with true in Htouch by (symmetry; apply Z.gtb_lt; lia).
      replace (to >? Change.to c) with true in Htouch by (symmetry; apply Z.gtb_lt; lia).
      rewrite (Hafter from assoc) by lia. rewrite (Hafter to assoc) by lia.
      rewrite (IH _ _ assoc Hrest) by (try assumption; lia). lia.
    + (* the change starts after the range *)
      assert (Hgt : to < Change.from c).
      { destruct Hhere as [H | H];
          [rewrite Z.geb_leb in H; apply Z.leb_gt in H | apply Z.leb_gt in H]; lia. }
      replace (from >? Change.from c) with false in Htouch
        by (symmetry; rewrite Z.gtb_ltb; apply Z.ltb_ge; lia).
      replace (to >? Change.to c) with false in Htouch
        by (symmetry; rewrite Z.gtb_ltb; apply Z.ltb_ge; lia).
      rewrite (Hbefore from assoc) by lia. rewrite (Hbefore to assoc) by lia.
      apply IH; assumption.
Qed.

Lemma mapPos_untouched_from_zero :
  forall cs to assoc,
    Forall Change_ok cs -> 0 <= to ->
    touchesChange 0 to cs = false ->
    mapPos 0 cs assoc false = 0.
Proof.
  intros cs; induction cs as [| c rest IH]; intros to assoc Hok Hle Htouch; simpl.
  - reflexivity.
  - inversion Hok as [| c' rest' [[Hc0 Hc1] [Hbefore Hafter]] Hrest]; subst.
    simpl in Htouch.
    destruct ((Change.to c >=? 0) && (Change.from c <=? to)) eqn:Hhere; [discriminate |].
    apply andb_false_iff in Hhere.
    assert (Hgt : to < Change.from c).
    { destruct Hhere as [H | H];
        [rewrite Z.geb_leb in H; apply Z.leb_gt in H | apply Z.leb_gt in H]; lia. }
    replace (0 >? Change.from c) with false in Htouch
      by (symmetry; rewrite Z.gtb_ltb; apply Z.ltb_ge; lia).
    replace (to >? Change.to c) with false in Htouch
      by (symmetry; rewrite Z.gtb_ltb; apply Z.ltb_ge; lia).
    rewrite (Hbefore 0 assoc) by lia.
    apply (IH to); assumption.
Qed.

(** An untouched child keeps its length, whatever start the call was given. *)
Lemma untouched_length :
  forall cs oldPos newPos length,
    Forall Change_ok cs -> 0 <= length ->
    start_ok oldPos newPos cs ->
    touchesChange oldPos (oldPos + length) cs = false ->
    mapPos (oldPos + length) cs 1 false - newPos = oldPos + length - oldPos.
Proof.
  intros cs oldPos newPos length Hok Hlen [Hstart | [Hold Hnew]] Htouch.
  - subst newPos. apply mapPos_untouched; [assumption | lia | assumption].
  - subst oldPos newPos.
    pose proof (mapPos_untouched cs 0 (0 + length) 1 Hok ltac:(lia) Htouch) as H.
    rewrite (mapPos_untouched_from_zero cs (0 + length) 1 Hok ltac:(lia) Htouch) in H.
    lia.
Qed.

Lemma reuses_refl : forall x, reuses x x.
Proof. intros x; repeat split. Qed.

Lemma reuses_trans : forall x y z, reuses x y -> reuses y z -> reuses x z.
Proof.
  intros x y z [H1 [H2 H3]] [H4 [H5 H6]].
  repeat split; congruence.
Qed.

Lemma covers_refl : forall l, covers l l.
Proof. intros l x Hx; exists x; split; [assumption | apply reuses_refl]. Qed.

Lemma covers_app : forall l x, covers l (l ++ [x]).
Proof.
  intros l x y Hy. exists y. split; [apply in_or_app; left; assumption | apply reuses_refl].
Qed.

Lemma covers_set_nth :
  forall l k old grown,
    nth_error l k = Some old -> reuses old grown -> covers l (JS.set_nth k grown l).
Proof.
  intros l; induction l as [| y l IH]; intros k old grown Hnth Hre x Hx.
  - contradiction.
  - destruct k as [| k]; simpl in *.
    + inversion Hnth; subst. destruct Hx as [-> | Hx].
      * exists grown; split; [left; reflexivity | assumption].
      * exists x; split; [right; assumption | apply reuses_refl].
    + destruct Hx as [-> | Hx].
      * exists x; split; [left; reflexivity | apply reuses_refl].
      * destruct (IH k old grown Hnth Hre x Hx) as [x' [Hin Hx']].
        exists x'; split; [right; assumption | assumption].
Qed.

Lemma firstn_S_nth :
  forall {A} (l : list A) i x,
    nth_error l i = Some x -> firstn (S i) l = firstn i l ++ [x].
Proof.
  intros A l; induction l as [| y l IH]; intros [| i] x H; simpl in *; try discriminate.
  - inversion H; reflexivity.
  - f_equal. apply IH; assumption.
Qed.

Lemma nth_error_last :
  forall {A} (l : list A), nonempty l = true ->
    exists x, nth_error l (List.length l - 1) = Some x.
Proof.
  intros A l Hl. destruct l as [| y l]; [discriminate |].
  assert (Hlt : (List.length (y :: l) - 1 < List.length (y :: l))%nat) by (simpl; lia).
  apply nth_error_Some in Hlt.
  destruct (nth_error (y :: l) (List.length (y :: l) - 1)) as [x |]; [| congruence].
  exists x; reflexivity.
Qed.

(** An untouched child is not mapped: it is returned as it is when its
    mapped length is its length, and copied with the mapped length
    otherwise. *)
Lemma mapInner_newChild_untouched :
  forall (rec : MapInner) this cs newStart newLength child oldPos newPos newLocal escaped n,
    touchesChange oldPos (oldPos + DecorationSet.length child) cs = false ->
    mapInner_newChild rec this cs newStart newLength child oldPos newPos newLocal escaped n
    = if mapPos (oldPos + DecorationSet.length child) cs 1 false - newPos
         =? oldPos + DecorationSet.length child - oldPos
      then Ok (child, newLocal, escaped) n
      else Ok (DecorationSet.mk n
                 (mapPos (oldPos + DecorationSet.length child) cs 1 false - newPos)
                 (DecorationSet.size child) (DecorationSet.local child)
                 (DecorationSet.children child), newLocal, escaped) (N.succ n).
Proof.
  intros rec this cs newStart newLength child oldPos newPos newLocal escaped n Htouch.
  unfold mapInner_newChild. rewrite Htouch.
  destruct (mapPos (oldPos + DecorationSet.length child) cs 1 false - newPos
            =? oldPos + DecorationSet.length child - oldPos); reflexivity.
Qed.

(** Placing the new child keeps a node for every node placed before, and one
    for the child itself unless it is an empty node that changed. *)
Lemma mapInner_place_covers :
  forall this i child newChild newChildren n placed n',
    nth_error (DecorationSet.children this) i = Some child ->
    mapInner_place this i child newChild newChildren n = Ok placed n' ->
    covers (or_ newChildren (firstn i (DecorationSet.children this)))
           (or_ placed (firstn (S i) (DecorationSet.children this)))
    /\ (reuses child newChild ->
        DecorationSet.size newChild <> 0 \/ DecorationSet.same newChild child = true ->
        exists c', In c' (or_ placed (firstn (S i) (DecorationSet.children this)))
                   /\ reuses child c').
Proof.
  intros this i child newChild newChildren n placed n' Hnth Hplace.
  unfold mapInner_place in Hplace.
  rewrite (firstn_S_nth _ _ _ Hnth).
  destruct (DecorationSet.same newChild child) eqn:Hsame; simpl negb in Hplace; cbv iota in Hplace.
  - destruct newChildren as [c |]; inversion Hplace; subst; simpl or_.
    + split; [apply covers_app |].
      intros Hre _. exists newChild. split; [apply in_or_app; right; left; reflexivity | assumption].
    + split; [apply covers_app |].
      intros _ _. exists child. split; [apply in_or_app; right; left; reflexivity | apply reuses_refl].
  - set (nc := or_ newChildren (JS.slice0 i (DecorationSet.children this))) in *.
    assert (Hnc : or_ newChildren (firstn i (DecorationSet.children this)) = nc) by reflexivity.
    rewrite Hnc.
    destruct (DecorationSet.size newChild =? 0) eqn:Hsize; simpl andb in Hplace.
    + destruct ((DecorationSet.length newChild =? 0) || nonempty nc
                || (Z.of_nat i =? len (DecorationSet.children this))) eqn:Hdrop.
      * assert (Hno : reuses child newChild ->
                      DecorationSet.size newChild <> 0 \/ false = true ->
                      False).
        { intros _ [H | H]; [apply Z.eqb_eq in Hsize; contradiction | discriminate]. }
        destruct ((DecorationSet.length newChild >? 0) && (0 <? i)%nat).
        -- destruct (if nonempty nc then nth_error nc (List.length nc - 1) else None)
             as [lastChild |] eqn:Hlast; [| discriminate].
           cbv [bind DecorationSet.new alloc ret] in Hplace. inversion Hplace; subst.
           simpl or_. split.
           ++ destruct (nonempty nc); [| discriminate].
              eapply covers_set_nth; [exact Hlast | repeat split].
           ++ intros Hre Hor. exfalso. apply Hno; assumption.
        -- inversion Hplace; subst. simpl or_. split; [apply covers_refl |].
           intros Hre Hor. exfalso. apply Hno; assumption.
      * inversion Hplace; subst. simpl or_. split; [apply covers_app |].
        intros Hre _. exists newChild.
        split; [apply in_or_app; right; left; reflexivity | assumption].
    + inversion Hplace; subst. simpl or_. split; [apply covers_app |].
      intros Hre _. exists newChild.
      split; [apply in_or_app; right; left; reflexivity | assumption].
Qed.

Lemma mapInner_place_total :
  forall this i child newChild newChildren n,
    (i < List.length (DecorationSet.children this))%nat ->
    exists placed n', mapInner_place this i child newChild newChildren n = Ok placed n'.
Proof.
  intros this i child newChild newChildren n Hi.
  unfold mapInner_place.
  destruct (negb (DecorationSet.same newChild child)).
  - set (nc := or_ newChildren (JS.slice0 i (DecorationSet.children this))).
    destruct (DecorationSet.size newChild =? 0); simpl andb.
    + destruct ((DecorationSet.length newChild =? 0) || nonempty nc
                || (Z.of_nat i =? len (DecorationSet.children this))) eqn:Hdrop.
      * destruct ((DecorationSet.length newChild >? 0) && (0 <? i)%nat) eqn:Hgrow.
        -- destruct (nonempty nc) eqn:Hnc.
           ++ destruct (nth_error_last nc Hnc) as [x Hx]. rewrite Hx.
              cbv [bind DecorationSet.new alloc ret]. do 2 eexists; reflexivity.
           ++ exfalso.
              apply andb_true_iff in Hgrow. destruct Hgrow as [Hlen _].
              apply Z.gtb_lt in Hlen.
              rewrite Bool.orb_false_r in Hdrop.
              apply orb_true_iff in Hdrop. destruct Hdrop as [H | H].
              ** apply Z.eqb_eq in H. lia.
              ** apply Z.eqb_eq in H. unfold len in H. lia.
        -- do 2 eexists; reflexivity.
      * do 2 eexists; reflexivity.
    + do 2 eexists; reflexivity.
  - destruct newChildren; do 2 eexists; reflexivity.
Qed.

Lemma mapInner_children_cons :
  forall (rec : MapInner) this cs newStart newLength i child rest st,
    mapInner_children rec this cs newStart newLength i (child :: rest) st
    = ('(newChild, newLocal, escaped) <-
         mapInner_newChild rec this cs newStart newLength child
           (m_oldPos st) (m_newPos st) (m_newLocal st) (m_escaped st) ;;
       newChildren <- mapInner_place this i child newChild (m_newChildren st) ;;
       mapInner_children rec this cs newStart newLength (S i) rest
         (mkMapChildren newLocal escaped newChildren
            (m_newSize st + DecorationSet.size newChild)
            (m_oldPos st + DecorationSet.length child)
            (mapPos (m_oldPos st + DecorationSet.length child) cs 1 false))).
Proof. reflexivity. Qed.

Lemma firstn_length_app :
  forall {A} (l1 l2 : list A), firstn (List.length l1) (l1 ++ l2) = l1.
Proof.
  intros A l1 l2. rewrite firstn_app, Nat.sub_diag, firstn_all. simpl.
  apply app_nil_r.
Qed.

Section MapSharing.

Variable rec : MapInner.
Variable this : DecorationSet.t.
Variable cs : list Change.t.
Variables oldStart newStart newLength : Z.

Hypothesis Hok : Forall Change_ok cs.
Hypothesis Hlen :
  forall c, In c (DecorationSet.children this) -> 0 <= DecorationSet.length c.

(** The child loop of [mapInner] keeps, for every untouched child, a node
    that reuses it. *)
Lemma mapInner_children_covers :
  forall rest processed st n st' n',
    DecorationSet.children this = processed ++ rest ->
    m_oldPos st = oldStart + total_length processed ->
    start_ok (m_oldPos st) (m_newPos st) cs ->
    (forall j child,
        nth_error processed j = Some child ->
        touchesChange (child_start this oldStart j)
          (child_start this oldStart j + DecorationSet.length child) cs = false ->
        exists c', In c' (or_ (m_newChildren st) processed) /\ reuses child c') ->
    mapInner_children rec this cs newStart newLength (List.length processed) rest st n
    = Ok st' n' ->
    forall j child,
      nth_error (DecorationSet.children this) j = Some child ->
      touchesChange (child_start this oldStart j)
        (child_start this oldStart j + DecorationSet.length child) cs = false ->
      exists c', In c' (or_ (m_newChildren st') (DecorationSet.children this))
                 /\ reuses child c'.
Proof.
  intros rest; induction rest as [| child rest IH];
    intros processed st n st' n' Hchildren Hold Hstart Hcov Hloop.
  - simpl in Hloop. inversion Hloop; subst st' n'.
    rewrite Hchildren, app_nil_r. exact Hcov.
  - rewrite mapInner_children_cons in Hloop. unfold bind in Hloop.
    destruct (mapInner_newChild rec this cs newStart newLength child (m_oldPos st)
                (m_newPos st) (m_newLocal st) (m_escaped st) n)
      as [[[newChild newLocal] escaped] n1 | e] eqn:Hnew; [| discriminate].
    destruct (mapInner_place this (List.length processed) child newChild
                (m_newChildren st) n1) as [placed n2 | e] eqn:Hplace; [| discriminate].
    assert (Hnth : nth_error (DecorationSet.children this) (List.length processed)
                   = Some child)
      by (rewrite Hchildren; apply nth_error_middle).
    destruct (mapInner_place_covers _ _ _ _ _ _ _ _ Hnth Hplace) as [Hcovers Hself].
    rewrite (firstn_S_nth _ _ _ Hnth) in Hcovers, Hself.
    assert (Hfirst : firstn (List.length processed) (DecorationSet.children this)
                     = processed)
      by (rewrite Hchildren; apply firstn_length_app).
    rewrite Hfirst in Hcovers, Hself.
    apply (IH (processed ++ [child])
              (mkMapChildren newLocal escaped placed
                 (m_newSize st + DecorationSet.size newChild)
                 (m_oldPos st + DecorationSet.length child)
                 (mapPos (m_oldPos st + DecorationSet.length child) cs 1 false)) n2
              st' n').
    + rewrite Hchildren, <- app_assoc. reflexivity.
    + simpl. rewrite Hold, total_length_app. simpl. lia.
    + left. reflexivity.
    + intros j c Hj Htouch. simpl m_newChildren.
      destruct (Nat.lt_ge_cases j (List.length processed)) as [Hlt | Hge].
      * rewrite nth_error_app1 in Hj by assumption.
        destruct (Hcov j c Hj Htouch) as [c' [Hin Hre]].
        destruct (Hcovers c' Hin) as [c'' [Hin' Hre']].
        exists c''. split; [assumption | eapply reuses_trans; eassumption].
      * rewrite nth_error_app2 in Hj by assumption.
        destruct (j - List.length processed)%nat as [| k] eqn:Hk;
          [| destruct k; discriminate].
        simpl in Hj. inversion Hj; subst c.
        assert (j = List.length processed) by lia. subst j.
        unfold child_start in Htouch. rewrite Hfirst, <- Hold in Htouch.
        rewrite (mapInner_newChild_untouched _ _ _ _ _ _ _ _ _ _ _ Htouch) in Hnew.
        assert (Hsame : mapPos (m_oldPos st + DecorationSet.length child) cs 1 false
                        - m_newPos st
                        = m_oldPos st + DecorationSet.length child - m_oldPos st).
        { apply untouched_length; try assumption.
          apply Hlen. rewrite Hchildren. apply in_or_app; right; left; reflexivity. }
        rewrite Hsame, Z.eqb_refl in Hnew. inversion Hnew; subst.
        apply Hself; [apply reuses_refl |].
        right. unfold DecorationSet.same. apply N.eqb_refl.
    + rewrite length_app. simpl. rewrite Nat.add_1_r. exact Hloop.
Qed.

(** The child loop returns when the calls on the children return. *)
Lemma mapInner_children_total :
  forall rest processed st n,
    DecorationSet.children this = processed ++ rest ->
    (forall child os ns ne m,
        In child rest -> exists res m', rec child cs os ns ne m = Ok res m') ->
    exists st' n',
      mapInner_children rec this cs newStart newLength (List.length processed) rest st n
      = Ok st' n'.
Proof.
  intros rest; induction rest as [| child rest IH]; intros processed st n Hchildren Hrec.
  - do 2 eexists. reflexivity.
  - rewrite mapInner_children_cons. unfold bind.
    assert (Hnew : exists r m,
               mapInner_newChild rec this cs newStart newLength child (m_oldPos st)
                 (m_newPos st) (m_newLocal st) (m_escaped st) n = Ok r m).
    { unfold mapInner_newChild.
      destruct (touchesChange (m_oldPos st) (m_oldPos st + DecorationSet.length child) cs).
      - unfold bind.
        destruct (Hrec child (m_oldPos st) (m_newPos st)
                    (mapPos (m_oldPos st + DecorationSet.length child) cs 1 false) n
                    (or_introl eq_refl)) as [[set inner] [m Hm]].
        rewrite Hm. destruct inner as [esc |].
        + destruct (mapInner_escaped (DecorationSet.local this) (m_newPos st - newStart)
                      newLength esc (m_newLocal st) (m_escaped st)).
          do 2 eexists; reflexivity.
        + do 2 eexists; reflexivity.
      - destruct (negb _); cbv [bind DecorationSet.new alloc ret];
          do 2 eexists; reflexivity. }
    destruct Hnew as [[[newChild newLocal] escaped] [n1 Hnew]]. rewrite Hnew.
    destruct (mapInner_place_total this (List.length processed) child newChild
                (m_newChildren st) n1) as [placed [n2 Hplace]].
    { rewrite Hchildren, length_app. simpl. lia. }
    rewrite Hplace.
    specialize (IH (processed ++ [child])).
    rewrite length_app, Nat.add_1_r in IH. simpl in IH.
    apply IH.
    + rewrite Hchildren, <- app_assoc. reflexivity.
    + intros c os ns ne m Hin. apply Hrec. right; assumption.
Qed.

End MapSharing.

Lemma mapInner_total :
  forall fuel this cs oldStart newStart newEnd n,
    (DecorationSet.depth this <= fuel)%nat ->
    exists res n', mapInner fuel this cs oldStart newStart newEnd n = Ok res n'.
Proof.
  intros fuel; induction fuel as [| fuel IH];
    intros this cs oldStart newStart newEnd n Hdepth.
  - pose proof (depth_pos this). lia.
  - simpl. unfold mapInner_body.
    destruct (mapInner_local (DecorationSet.local this) cs oldStart newStart
                (newEnd - newStart) 0 (DecorationSet.local this) None None)
      as [newLocal escaped].
    destruct (mapInner_children_total (mapInner fuel) this cs newStart (newEnd - newStart)
                (DecorationSet.children this) []
                (mkMapChildren newLocal escaped None 0 oldStart newStart) n eq_refl)
      as [st [n1 Hloop]].
    { intros child os ns ne m Hin. apply IH.
      pose proof (depth_child this child Hin). lia. }
    simpl List.length in Hloop. unfold bind. rewrite Hloop.
    destruct ((newEnd - newStart =? DecorationSet.length this)
              && negb (is_some (m_newChildren st)) && negb (is_some (m_newLocal st)));
      cbv [DecorationSet.new bind alloc ret]; do 2 eexists; reflexivity.
Qed.

(** In the result of any call of [mapInner] given coherent start positions,
    every untouched child has a node that reuses it. *)
Lemma mapInner_reuses :
  forall fuel this cs oldStart newStart newEnd n,
    (DecorationSet.depth this <= fuel)%nat ->
    Forall Change_ok cs ->
    start_ok oldStart newStart cs ->
    (forall c, In c (DecorationSet.children this) -> 0 <= DecorationSet.length c) ->
    exists r esc n',
      mapInner fuel this cs oldStart newStart newEnd n = Ok (r, esc) n'
      /\ forall j child,
           nth_error (DecorationSet.children this) j = Some child ->
           touchesChange (child_start this oldStart j)
             (child_start this oldStart j + DecorationSet.length child) cs = false ->
           exists c', In c' (DecorationSet.children r) /\ reuses child c'.
Proof.
  intros fuel this cs oldStart newStart newEnd n Hdepth Hok Hstart Hlen.
  destruct (mapInner_total fuel this cs oldStart newStart newEnd n Hdepth)
    as [[r esc] [n' Hmap]].
  exists r, esc, n'. split; [exact Hmap |].
  destruct fuel as [| fuel]; [discriminate |].
  simpl in Hmap. unfold mapInner_body in Hmap.
  destruct (mapInner_local (DecorationSet.local this) cs oldStart newStart
              (newEnd - newStart) 0 (DecorationSet.local this) None None)
    as [newLocal escaped].
  unfold bind in Hmap.
  destruct (mapInner_children (mapInner fuel) this cs newStart (newEnd - newStart) 0
              (DecorationSet.children this)
              (mkMapChildren newLocal escaped None 0 oldStart newStart) n)
    as [st n1 |] eqn:Hloop; [| discriminate].
  assert (Hchildren : DecorationSet.children r
                      = or_ (m_newChildren st) (DecorationSet.children this)).
  { destruct ((newEnd - newStart =? DecorationSet.length this)
              && negb (is_some (m_newChildren st)) && negb (is_some (m_newLocal st)))
      eqn:Hsame; cbv [DecorationSet.new bind alloc ret] in Hmap;
      inversion Hmap; subst; [| reflexivity].
    destruct (m_newChildren st); [| reflexivity].
    simpl in Hsame. rewrite Bool.andb_false_r in Hsame. discriminate. }
  rewrite Hchildren.
  apply (mapInner_children_covers (mapInner fuel) this cs oldStart newStart
           (newEnd - newStart) Hok Hlen (DecorationSet.children this) []
           (mkMapChildren newLocal escaped None 0 oldStart newStart) n st n1);
    try reflexivity.
  - simpl. lia.
  - exact Hstart.
  - intros j child Hj. destruct j; discriminate.
  - exact Hloop.
Qed.


Lemma insertion_ok : forall at_ n, 0 <= at_ -> Change_ok (insertion at_ n).
Proof.
  intros at_ n Hat. unfold Change_ok, insertion; simpl.
  split; [lia |]. split.
  - intros pos assoc Hpos.
    replace (pos <? at_) with true by (symmetry; apply Z.ltb_lt; lia). reflexivity.
  - intros pos assoc Hpos.
    replace (pos <? at_) with false by (symmetry; apply Z.ltb_ge; lia).
    replace (pos >? at_) with true by (symmetry; apply Z.gtb_lt; lia). lia.
Qed.


(** ** The arrays of changedRanges (C7) *)

(** [addRange] overwrites the last end when it is within [MIN_RANGE_GAP] of
    the new start, and appends the pair otherwise. *)
Lemma addRange_last :
  forall from to init lastTo,
    addRange from to (init ++ [lastTo])
    = if lastTo + MIN_RANGE_GAP >? from
      then init ++ [to]
      else (init ++ [lastTo]) ++ [from; to].
Proof.
  intros from to init lastTo. unfold addRange, JS.pop.
  rewrite removelast_last, map_app. simpl List.map. rewrite last_last. reflexivity.
Qed.

Lemma addRange_empty : forall from to, addRange from to [] = [from; to].
Proof. reflexivity. Qed.

(** An array built by [addRange] alone holds whole pairs. *)
Lemma addRange_even :
  forall from to ranges,
    Nat.even (List.length ranges) = true ->
    Nat.even (List.length (addRange from to ranges)) = true.
Proof.
  intros from to ranges Heven.
  induction ranges as [| lastTo init _] using rev_ind.
  - reflexivity.
  - rewrite addRange_last.
    destruct (lastTo + MIN_RANGE_GAP >? from).
    + rewrite length_app in *. exact Heven.
    + rewrite length_app. simpl List.length.
      rewrite Nat.add_comm. simpl. exact Heven.
Qed.

Lemma Built_merged : forall ranges, Built ranges -> merged ranges.
Proof.
  intros ranges HB. induction HB as [| from to ranges HB IH].
  - exact I.
  - unfold merged in *.
    induction ranges as [| lastTo init _] using rev_ind.
    + simpl. split; exact I.
    + rewrite addRange_last.
      rewrite rev_app_distr in IH. simpl in IH.
      destruct (Z.gtb_spec (lastTo + MIN_RANGE_GAP) from) as [Hnear | Hfar].
      * rewrite rev_app_distr. simpl.
        destruct (rev init) as [| f rest]; [contradiction | exact IH].
      * rewrite !rev_app_distr. simpl.
        split; [lia |]. exact IH.
Qed.

Lemma merged_rev_even :
  forall reversed, merged_rev reversed -> Nat.even (List.length reversed) = true.
Proof.
  fix IH 1. intros [| to [| from rest]] H; simpl in *.
  - reflexivity.
  - contradiction.
  - apply IH. apply H.
Qed.

Lemma Built_even : forall ranges, Built ranges -> Nat.even (List.length ranges) = true.
Proof.
  intros ranges HB. rewrite <- length_rev.
  apply merged_rev_even. apply Built_merged. exact HB.
Qed.

Lemma advancePos_built :
  forall this p, Changes_built (changes this) -> Changes_built (changes (advancePos this p)).
Proof.
  intros this p [Hc Hh]. unfold advancePos.
  destruct ((if p >? end_ this then end_ this else p) <=? pos this); [split; assumption |].
  destruct (nonempty (widgets (a this)) || nonempty (widgets (b this)));
    [destruct (negb (compareWidgetSets (widgets (a this)) (widgets (b this)))) |];
    simpl;
    repeat match goal with
           | |- context [if ?c then _ else _] => destruct c; simpl
           end;
    split; repeat apply Built_add; assumption.
Qed.

Lemma forwardIter_changes :
  forall fuel this side n this' n',
    forwardIter fuel this side n = Ok this' n' -> changes this' = changes this.
Proof.
  intros fuel; induction fuel as [| fuel IH]; intros this side n this' n' Hrun;
    simpl in Hrun.
  - destruct (side >? 0); [discriminate | inversion Hrun; reflexivity].
  - destruct (side >? 0); [| inversion Hrun; reflexivity].
    unfold bind in Hrun.
    repeat (break_match_in Hrun; try discriminate);
      first [ apply IH in Hrun; simpl in Hrun; exact Hrun
            | inversion Hrun; reflexivity ].
Qed.

Lemma changes_with_side :
  forall this w s, changes (with_side this w s) = changes this.
Proof. intros this [|] s; reflexivity. Qed.

Lemma advance_rest_changes :
  forall fuel this w next n this' n',
    advance_rest fuel this w next n = Ok this' n' -> changes this' = changes this.
Proof.
  intros fuel this w next n this' n' Hrun. unfold advance_rest in Hrun.
  repeat (break_match_in Hrun; try discriminate);
    first [ apply forwardIter_changes in Hrun; exact Hrun
          | inversion Hrun; subst; try apply changes_with_side; reflexivity ].
Qed.

Lemma changes_with_pos : forall this p, changes (with_pos this p) = changes this.
Proof. reflexivity. Qed.

Lemma ret_changes :
  forall (x this' : DecorationSetComparison) (n n' : N),
    ret x n = Ok this' n' -> changes this' = changes x.
Proof. intros x this' n n' H. inversion H; reflexivity. Qed.

Lemma advance_built :
  forall fuel this w n this' n',
    advance fuel this w n = Ok this' n' ->
    Changes_built (changes this) -> Changes_built (changes this').
Proof.
  intros fuel this w n this' n' Hrun HB. unfold advance in Hrun.
  repeat (break_match_in Hrun; try discriminate).
  all: first [ apply advance_rest_changes in Hrun | apply ret_changes in Hrun ];
    rewrite Hrun;
    repeat first [ rewrite changes_with_side
                 | rewrite changes_with_pos
                 | apply advancePos_built ];
    exact HB.
Qed.

Lemma run_built :
  forall fuel this n c n',
    run fuel this n = Ok c n' -> Changes_built (changes this) -> Changes_built c.
Proof.
  intros fuel; induction fuel as [| fuel IH]; intros this n c n' Hrun HB;
    simpl in Hrun; [discriminate |].
  unfold bind in Hrun.
  repeat (break_match_in Hrun; try discriminate);
    try (eapply IH; [exact Hrun | eapply advance_built; eassumption]);
    inversion Hrun; subst; destruct HB as [Hc Hh];
    first [ split; assumption | split; apply Built_add; assumption ].
Qed.

Lemma compare_run_built :
  forall fuel a startA b startB endB c0 n c n',
    compare_run fuel a startA b startB endB c0 n = Ok c n' ->
    Changes_built c0 -> Changes_built c.
Proof.
  intros fuel a0 startA b0 startB endB c0 n c n' Hrun HB.
  unfold compare_run, bind, DecorationSetComparison_new in Hrun.
  destruct (forwardIter fuel _ _ n) as [cmp n1 |] eqn:Hnew; [| discriminate].
  apply forwardIter_changes in Hnew. simpl in Hnew.
  eapply run_built; [exact Hrun | rewrite Hnew; exact HB].
Qed.

Lemma changedRanges_loop_built :
  forall fuel this other textDiff c0 oldPos0 newPos0 n c oldPos newPos n',
    changedRanges_loop fuel this other textDiff c0 oldPos0 newPos0 n
    = Ok (c, oldPos, newPos) n' ->
    Changes_built c0 -> Changes_built c.
Proof.
  intros fuel this other textDiff.
  induction textDiff as [| r rest IH]; intros c0 o0 p0 n c o p n' Hrun HB.
  - simpl in Hrun. inversion Hrun; subst. exact HB.
  - simpl in Hrun. unfold bind in Hrun at 1.
    match type of Hrun with
    | match ?x with _ => _ end = _ => destruct x as [c1 n1 |] eqn:Hstep; [| discriminate]
    end.
    eapply IH; [exact Hrun |].
    destruct ((fromB r >? p0) && _) in Hstep.
    + eapply compare_run_built; eassumption.
    + inversion Hstep; subst. exact HB.
Qed.

(** The part of C7 that holds for every call: [content] and [height] are
    built by [addRange] alone, so they hold whole pairs, and each pair
    starts at least [MIN_RANGE_GAP] after the end of the pair before it. *)
Lemma changedRanges_merged :
  forall fuel this other textDiff n c n',
    changedRanges fuel this other textDiff n = Ok c n' ->
    (merged (content c) /\ Nat.even (List.length (content c)) = true)
    /\ (merged (height c) /\ Nat.even (List.length (height c)) = true).
Proof.
  intros fuel this other textDiff n c n' Hrun.
  assert (HB : Changes_built c).
  { unfold changedRanges, bind in Hrun.
    destruct (changedRanges_loop fuel this other textDiff (mkChanges [] []) 0 0 n)
      as [[[c1 o] p] n1 |] eqn:Hloop; [| discriminate].
    apply changedRanges_loop_built in Hloop; [| split; apply Built_empty].
    destruct ((o <? DecorationSet.length this) || (p <? DecorationSet.length other)).
    - eapply compare_run_built; eassumption.
    - inversion Hrun; subst. exact Hloop. }
  destruct HB as [Hc Hh].
  repeat split; first [ apply Built_merged | apply Built_even ]; assumption.
Qed.

(** C7, evaluated.  With the text diff [(5, 30) -> (5, 6)], [(34, 34) ->
    (10, 200)], comparing a set that collapses [0, 20] with one that
    collapses [0, 100] by another widget returns the arrays [20, 10]: one
    pair, whose end is before its start. *)
Theorem changedRanges_not_ascending :
  option_map (fun c => (content c, height c))
    (value (collapsed_diff [mkChangedRange 5 30 5 6; mkChangedRange 34 34 10 200]))
  = Some ([20; 10], [20; 10]).
Proof. vm_compute. reflexivity. Qed.

(* ================================================================== *)
(** * Properties of the helper functions and of the other entry points *)

(* ------------------------------------------------------------------ *)
(** ** Sorted insertion (l.488-496) *)

Lemma byPos_flip : forall x y, byPos x y >= 0 -> byPos y x <= 0.
Proof.
  intros x y. unfold byPos, or_else.
  destruct (Z.eqb_spec (Decoration.from x - Decoration.from y) 0);
    destruct (Z.eqb_spec (Decoration.from y - Decoration.from x) 0); lia.
Qed.

Lemma byPos_flip_lt : forall x y, byPos x y > 0 -> byPos y x <= 0.
Proof. intros x y H. apply byPos_flip. lia. Qed.

Lemma byPos_trans : forall x y z, byPos x y <= 0 -> byPos y z <= 0 -> byPos x z <= 0.
Proof.
  intros x y z. unfold byPos, or_else.
  destruct (Z.eqb_spec (Decoration.from x - Decoration.from y) 0);
    destruct (Z.eqb_spec (Decoration.from y - Decoration.from z) 0);
    destruct (Z.eqb_spec (Decoration.from x - Decoration.from z) 0); lia.
Qed.

Lemma sorted_byPos_app_mid :
  forall l1 x l2,
    sorted_byPos (l1 ++ x :: l2) = sorted_byPos (l1 ++ [x]) && sorted_byPos (x :: l2).
Proof.
  induction l1 as [| a l1 IH]; intros x l2.
  - reflexivity.
  - destruct l1 as [| b l1].
    + simpl. rewrite Bool.andb_true_r. reflexivity.
    + change (sorted_byPos ((a :: b :: l1) ++ x :: l2))
        with ((byPos a b <=? 0) && sorted_byPos ((b :: l1) ++ x :: l2)).
      change (sorted_byPos ((a :: b :: l1) ++ [x]))
        with ((byPos a b <=? 0) && sorted_byPos ((b :: l1) ++ [x])).
      rewrite IH, Bool.andb_assoc. reflexivity.
Qed.

Lemma sorted_byPos_app_l :
  forall l1 l2, sorted_byPos (l1 ++ l2) = true -> sorted_byPos l1 = true.
Proof.
  induction l1 as [| a l1 IH]; intros l2 H.
  - reflexivity.
  - destruct l1 as [| b l1].
    + reflexivity.
    + change (sorted_byPos ((a :: b :: l1) ++ l2))
        with ((byPos a b <=? 0) && sorted_byPos ((b :: l1) ++ l2)) in H.
      change (sorted_byPos (a :: b :: l1))
        with ((byPos a b <=? 0) && sorted_byPos (b :: l1)).
      apply Bool.andb_true_iff in H as [H1 H2].
      rewrite H1, (IH l2 H2). reflexivity.
Qed.

Lemma sorted_byPos_tail :
  forall x l, sorted_byPos (x :: l) = true -> sorted_byPos l = true.
Proof.
  intros x [| y l] H; [reflexivity |].
  change (sorted_byPos (x :: y :: l)) with ((byPos x y <=? 0) && sorted_byPos (y :: l)) in H.
  apply Bool.andb_true_iff in H as [_ H]. exact H.
Qed.

Lemma insertSorted_index_le :
  forall target deco i, (insertSorted_index target deco i <= i)%nat.
Proof.
  intros target deco i. induction i as [| i IH]; simpl.
  - lia.
  - destruct (nth_error target i) as [prev |]; [| lia].
    destruct (byPos prev deco >=? 0); lia.
Qed.

Lemma insertSorted_index_app :
  forall init extra deco i,
    (i <= List.length init)%nat ->
    insertSorted_index (init ++ extra) deco i = insertSorted_index init deco i.
Proof.
  intros init extra deco i. induction i as [| i IH]; intros Hi; simpl.
  - reflexivity.
  - rewrite nth_error_app1 by lia.
    destruct (nth_error init i) as [prev |]; [| reflexivity].
    destruct (byPos prev deco >=? 0); [apply IH; lia | reflexivity].
Qed.

(** [insertSorted] read from the end of the array. *)
Lemma insertSorted_snoc :
  forall init lastd deco,
    insertSorted (init ++ [lastd]) deco
    = if byPos lastd deco >=? 0
      then insertSorted init deco ++ [lastd]
      else init ++ [lastd; deco].
Proof.
  intros init lastd deco. unfold insertSorted, JS.splice.
  rewrite length_app. simpl List.length. rewrite Nat.add_1_r.
  cbn [insertSorted_index].
  rewrite nth_error_app2 by lia. rewrite Nat.sub_diag. cbn [nth_error].
  destruct (byPos lastd deco >=? 0).
  - rewrite insertSorted_index_app by lia.
    pose proof (insertSorted_index_le init deco (List.length init)) as Hle.
    set (k := insertSorted_index init deco (List.length init)) in *.
    rewrite !Nat.add_0_r.
    rewrite firstn_app, skipn_app.
    replace (k - List.length init)%nat with O by lia.
    simpl. rewrite app_nil_r, <- !app_assoc. reflexivity.
  - rewrite Nat.add_0_r.
    replace (S (List.length init)) with (List.length (init ++ [lastd]))
      by (rewrite length_app; simpl; lia).
    rewrite firstn_all, skipn_all. rewrite <- app_assoc. reflexivity.
Qed.

Lemma insertSorted_split :
  forall target deco,
    exists before after,
      target = before ++ after
      /\ insertSorted target deco = before ++ deco :: after
      /\ Forall (fun x => byPos x deco >= 0) after
      /\ (forall init z, before = init ++ [z] -> byPos z deco < 0).
Proof.
  intros target deco. induction target as [| lastd init IH] using rev_ind.
  - exists [], []. repeat split; [constructor |].
    intros init z H. destruct init; discriminate.
  - rewrite insertSorted_snoc.
    destruct (Z.geb_spec (byPos lastd deco) 0) as [Hge | Hlt].
    + destruct IH as [before [after [Ht [Hi [Hall Hbefore]]]]].
      exists before, (after ++ [lastd]). rewrite Hi, Ht, <- !app_assoc.
      repeat split; [| exact Hbefore].
      apply Forall_app. split; [exact Hall |]. constructor; [lia | constructor].
    + exists (init ++ [lastd]), []. rewrite app_nil_r, <- app_assoc.
      repeat split; [constructor |].
      intros init' z H. apply app_inj_tail in H as [_ H]. subst z. lia.
Qed.

(** X1.  [insertSorted(target, deco)] adds [deco] and nothing else: the array
    afterwards is [before ++ deco :: after] for a split [before ++ after] of
    the array given, where every element of [after] compares at or after
    [deco] by [byPos] and the last element of [before], if any, compares
    strictly before it.  An array sorted by [byPos] stays sorted. *)
Theorem insertSorted_sorted :
  forall target deco,
    Permutation (insertSorted target deco) (deco :: target)
    /\ (exists before after,
          target = before ++ after
          /\ insertSorted target deco = before ++ deco :: after
          /\ Forall (fun x => byPos x deco >= 0) after
          /\ (forall init z, before = init ++ [z] -> byPos z deco < 0))
    /\ (sorted_byPos target = true -> sorted_byPos (insertSorted target deco) = true).
Proof.
  intros target deco.
  destruct (insertSorted_split target deco) as [before [after [Ht [Hi [Hall Hbefore]]]]].
  split; [| split].
  - rewrite Hi, Ht. symmetry. apply Permutation_middle.
  - exists before, after. repeat split; assumption.
  - intros Hs. rewrite Hi. rewrite Ht in Hs.
    rewrite sorted_byPos_app_mid. apply Bool.andb_true_iff. split.
    + destruct before as [| z init _] using rev_ind; [reflexivity |].
      rewrite <- app_assoc. simpl.
      rewrite sorted_byPos_app_mid. apply Bool.andb_true_iff. split.
      * apply sorted_byPos_app_l in Hs. exact Hs.
      * simpl. pose proof (Hbefore init z eq_refl).
        rewrite Bool.andb_true_r. apply Z.leb_le. lia.
    + destruct after as [| a after]; [reflexivity |].
      change (sorted_byPos (deco :: a :: after))
        with ((byPos deco a <=? 0) && sorted_byPos (a :: after)).
      apply Bool.andb_true_iff. split.
      * apply Z.leb_le. apply byPos_flip. inversion Hall; subst. assumption.
      * rewrite sorted_byPos_app_mid in Hs. apply Bool.andb_true_iff in Hs as [_ Hs].
        exact Hs.
Qed.

(* ------------------------------------------------------------------ *)
(** ** Filtering (l.498-513) *)

Lemma filterDecorations_loop_spec :
  forall decorations f ff ft off rest pre copy,
    decorations = pre ++ rest ->
    filterDecorations_loop decorations f ff ft off (List.length pre) rest copy
    = match copy with
      | Some c => Some (c ++ List.filter (filter_keeps f ff ft off) rest)
      | None =>
          if forallb (filter_keeps f ff ft off) rest then None
          else Some (pre ++ List.filter (filter_keeps f ff ft off) rest)
      end.
Proof.
  intros decorations f ff ft off rest.
  induction rest as [| deco rest IH]; intros pre copy Hd.
  - simpl. destruct copy; [rewrite app_nil_r |]; reflexivity.
  - cbn [filterDecorations_loop List.filter forallb].
    fold (filter_keeps f ff ft off deco).
    assert (Hd' : decorations = (pre ++ [deco]) ++ rest)
      by (rewrite <- app_assoc; exact Hd).
    assert (Hlen : S (List.length pre) = List.length (pre ++ [deco]))
      by (rewrite length_app; simpl; lia).
    rewrite Hlen.
    destruct (filter_keeps f ff ft off deco).
    + rewrite (IH _ _ Hd'). destruct copy as [c |].
      * rewrite <- app_assoc. reflexivity.
      * simpl. rewrite <- app_assoc. reflexivity.
    + rewrite (IH _ _ Hd'). destruct copy as [c |]; [reflexivity |].
      unfold JS.slice0. rewrite Hd.
      rewrite firstn_app, firstn_all, Nat.sub_diag. simpl. rewrite app_nil_r.
      reflexivity.
Qed.

Lemma filterDecorations_some :
  forall decorations f ff ft off,
    filterDecorations decorations (Some f) ff ft off
    = if forallb (filter_keeps f ff ft off) decorations then None
      else Some (List.filter (filter_keeps f ff ft off) decorations).
Proof.
  intros decorations f ff ft off. unfold filterDecorations.
  apply (filterDecorations_loop_spec decorations f ff ft off decorations [] None eq_refl).
Qed.

(** X2.  [filterDecorations] returns [null] without a filter.  With a filter it
    returns [null] exactly when no decoration is dropped, and otherwise a
    copy that holds, in order, the decorations that lie outside the window
    or that the filter accepts; the copy is then shorter than the array. *)
Theorem filterDecorations_spec :
  forall decorations f ff ft off,
    filterDecorations decorations None ff ft off = None
    /\ match filterDecorations decorations (Some f) ff ft off with
       | None => List.filter (filter_keeps f ff ft off) decorations = decorations
       | Some copy =>
           copy = List.filter (filter_keeps f ff ft off) decorations
           /\ (List.length copy < List.length decorations)%nat
       end.
Proof.
  intros decorations f ff ft off. split; [reflexivity |].
  rewrite filterDecorations_some.
  destruct (forallb (filter_keeps f ff ft off) decorations) eqn:Hall.
  - induction decorations as [| d rest IH]; [reflexivity |].
    simpl in *. apply Bool.andb_true_iff in Hall as [Hd Hrest].
    rewrite Hd, (IH Hrest). reflexivity.
  - split; [reflexivity |].
    induction decorations as [| d rest IH]; [discriminate |].
    simpl in *. destruct (filter_keeps f ff ft off d).
    + simpl. apply -> Nat.succ_lt_mono. apply IH. exact Hall.
    + pose proof (filter_length_le (filter_keeps f ff ft off) rest). lia.
Qed.

(* ------------------------------------------------------------------ *)
(** ** Removal from the active array (l.770-774) *)

Lemma set_nth_perm :
  forall {A} (l : list A) i x y,
    nth_error l i = Some x -> Permutation (y :: l) (x :: JS.set_nth i y l).
Proof.
  intros A l. induction l as [| h t IH]; intros i x y H.
  - destruct i; discriminate.
  - destruct i as [| i]; simpl in *.
    + inversion H; subst. apply perm_swap.
    + eapply perm_trans; [apply perm_swap |].
      eapply perm_trans; [apply perm_skip; apply (IH i x y H) |].
      apply perm_swap.
Qed.

Lemma set_nth_length :
  forall {A} (l : list A) i x, List.length (JS.set_nth i x l) = List.length l.
Proof.
  intros A l. induction l as [| h t IH]; intros i x; [destruct i; reflexivity |].
  destruct i; simpl; [reflexivity | rewrite IH; reflexivity].
Qed.

Lemma set_nth_same :
  forall {A} (l : list A) i x,
    (i < List.length l)%nat -> nth_error (JS.set_nth i x l) i = Some x.
Proof.
  intros A l. induction l as [| h t IH]; intros i x Hi; simpl in *; [lia |].
  destruct i; simpl; [reflexivity | apply IH; lia].
Qed.

Lemma set_nth_other :
  forall {A} (l : list A) i j x,
    i <> j -> nth_error (JS.set_nth i x l) j = nth_error l j.
Proof.
  intros A l. induction l as [| h t IH]; intros i j x Hij; [destruct i; reflexivity |].
  destruct i, j; simpl; try reflexivity; try congruence.
  apply IH. congruence.
Qed.

Lemma set_nth_id :
  forall {A} (l : list A) i x, nth_error l i = Some x -> JS.set_nth i x l = l.
Proof.
  intros A l. induction l as [| h t IH]; intros i x H; [destruct i; reflexivity |].
  destruct i; simpl in *; [inversion H; reflexivity | rewrite IH by exact H; reflexivity].
Qed.

(** Writing [y] at [i] and [x] at [j], where [x] was at [i] and [y] at [j],
    exchanges two elements. *)
Lemma swap_perm :
  forall {A} (l : list A) i j x y,
    nth_error l i = Some x -> nth_error l j = Some y ->
    Permutation (JS.set_nth j x (JS.set_nth i y l)) l.
Proof.
  intros A l i j x y Hi Hj.
  destruct (Nat.eq_dec i j) as [-> | Hne].
  - assert (x = y) by congruence. subst y.
    rewrite (set_nth_id l j x Hi), (set_nth_id l j x Hi). apply Permutation_refl.
  - apply (Permutation_cons_inv (a := y)). symmetry.
    assert (Hj' : nth_error (JS.set_nth i y l) j = Some y)
      by (rewrite set_nth_other by exact Hne; exact Hj).
    eapply perm_trans; [apply (set_nth_perm l i x y Hi) |].
    apply (set_nth_perm _ j y x Hj').
Qed.

Lemma indexOf_desc_Some :
  forall elt array f,
    indexOf_desc elt array = Some f ->
    exists x, nth_error array f = Some x /\ Desc.did x = Desc.did elt
              /\ forall j y, (j < f)%nat -> nth_error array j = Some y ->
                             Desc.did y <> Desc.did elt.
Proof.
  intros elt array. induction array as [| h t IH]; intros f H; simpl in H; [discriminate |].
  destruct (N.eqb_spec (Desc.did h) (Desc.did elt)) as [Heq | Hne].
  - inversion H; subst. exists h. repeat split; [exact Heq |]. intros j y Hj. lia.
  - destruct (indexOf_desc elt t) as [f' |] eqn:Hf; [| discriminate].
    inversion H; subst. destruct (IH f' eq_refl) as [x [Hx [Hd Hfirst]]].
    exists x. repeat split; [exact Hx | exact Hd |].
    intros j y Hj Hy. destruct j as [| j]; simpl in Hy.
    + inversion Hy; subst. exact Hne.
    + apply (Hfirst j y); [lia | exact Hy].
Qed.

Lemma indexOf_desc_None :
  forall elt array,
    indexOf_desc elt array = None ->
    forall y, In y array -> Desc.did y <> Desc.did elt.
Proof.
  intros elt array. induction array as [| h t IH]; intros H y Hin; simpl in *; [contradiction |].
  destruct (N.eqb_spec (Desc.did h) (Desc.did elt)) as [Heq | Hne]; [discriminate |].
  destruct (indexOf_desc elt t); [discriminate |].
  destruct Hin as [-> | Hin]; [exact Hne | apply IH; [reflexivity | exact Hin]].
Qed.

Lemma pop_snoc :
  forall {A} (init : list A) x, JS.pop (init ++ [x]) = (init, Some x).
Proof.
  intros A init x. unfold JS.pop.
  rewrite removelast_last, map_app. simpl List.map. rewrite last_last. reflexivity.
Qed.

(** X3.  [remove(array, elt)]: when [elt] is in the array, at first index [f],
    the array afterwards holds the other elements, one fewer, possibly in
    another order (the last element takes the place of [elt]).  When [elt] is
    not in the array, it is the last element that is removed. *)
Theorem remove_spec :
  forall array elt,
    match indexOf_desc elt array with
    | Some f =>
        exists x, nth_error array f = Some x
                  /\ Desc.did x = Desc.did elt
                  /\ Permutation array (x :: remove array elt)
    | None => remove array elt = removelast array
    end.
Proof.
  intros array elt.
  destruct (indexOf_desc elt array) as [f |] eqn:Hf.
  - destruct (indexOf_desc_Some elt array f Hf) as [x [Hx [Hd _]]].
    exists x. repeat split; [exact Hx | exact Hd |].
    unfold remove. rewrite Hf.
    destruct array as [| lastd init _] using rev_ind; [destruct f; discriminate |].
    rewrite pop_snoc.
    destruct (Nat.eqb_spec f (List.length init)) as [-> | Hne].
    + rewrite nth_error_app2, Nat.sub_diag in Hx by lia. simpl in Hx.
      inversion Hx; subst. symmetry. apply Permutation_cons_append.
    + assert (Hlt : (f < List.length (init ++ [lastd]))%nat)
        by (apply nth_error_Some; congruence).
      rewrite length_app in Hlt. simpl in Hlt.
      rewrite nth_error_app1 in Hx by lia.
      eapply perm_trans; [symmetry; apply Permutation_cons_append |].
      apply set_nth_perm. exact Hx.
  - unfold remove. rewrite Hf.
    destruct array as [| lastd init _] using rev_ind; [reflexivity |].
    rewrite pop_snoc, removelast_last. reflexivity.
Qed.

(* ------------------------------------------------------------------ *)
(** ** The heap keeps its elements (l.457-486) *)

Section HeapFacts.

Context {A : Type} `{Heapable A}.

Lemma addToHeap_loop_perm :
  forall fuel (heap : list A) elt index,
    nth_error heap index = Some elt ->
    Permutation (addToHeap_loop fuel heap elt index) heap.
Proof.
  intros fuel; induction fuel as [| fuel IH]; intros heap elt index Hindex; simpl.
  - apply Permutation_refl.
  - destruct (0 <? index)%nat; [| apply Permutation_refl].
    set (parentIndex := Z.to_nat (JS.sar (Z.of_nat index) 1)).
    destruct (nth_error heap parentIndex) as [parent |] eqn:Hparent;
      [| apply Permutation_refl].
    destruct (compareHeapable elt parent >=? 0); [apply Permutation_refl |].
    eapply perm_trans.
    + apply IH. apply set_nth_same. rewrite set_nth_length.
      apply nth_error_Some. congruence.
    + apply (swap_perm heap index parentIndex elt parent Hindex Hparent).
Qed.

Lemma takeFromHeap_loop_perm :
  forall fuel (heap : list A) replacement index,
    nth_error heap index = Some replacement ->
    Permutation (takeFromHeap_loop fuel heap replacement index) heap.
Proof.
  intros fuel; induction fuel as [| fuel IH]; intros heap replacement index Hindex; simpl.
  - apply Permutation_refl.
  - set (childIndex := Z.to_nat (JS.shl (Z.of_nat index) 1 + 1)).
    destruct (List.length heap <=? childIndex)%nat; [apply Permutation_refl |].
    destruct (nth_error heap childIndex) as [child |] eqn:Hchild;
      [| apply Permutation_refl].
    assert (Hpick :
      exists c ci, nth_error heap ci = Some c
                   /\ match nth_error heap (childIndex + 1) with
                      | Some sibling =>
                          if compareHeapable child sibling >=? 0
                          then (sibling, (childIndex + 1)%nat)
                          else (child, childIndex)
                      | None => (child, childIndex)
                      end = (c, ci)).
    { destruct (nth_error heap (childIndex + 1)) as [sibling |] eqn:Hsib.
      - destruct (compareHeapable child sibling >=? 0).
        + exists sibling, (childIndex + 1)%nat. split; [exact Hsib | reflexivity].
        + exists child, childIndex. split; [exact Hchild | reflexivity].
      - exists child, childIndex. split; [exact Hchild | reflexivity]. }
    destruct Hpick as [c [ci [Hc ->]]].
    destruct (compareHeapable replacement c <? 0); [apply Permutation_refl |].
    eapply perm_trans.
    + apply IH.
      destruct (Nat.eq_dec index ci) as [-> | Hne].
      * assert (c = replacement) by congruence. subst c.
        apply set_nth_same. rewrite set_nth_length. apply nth_error_Some. congruence.
      * rewrite set_nth_other by exact Hne.
        apply set_nth_same. apply nth_error_Some. congruence.
    + apply (swap_perm heap ci index c replacement Hc Hindex).
Qed.

Lemma addToHeap_perm :
  forall (heap : list A) elt, Permutation (addToHeap heap elt) (elt :: heap).
Proof.
  intros heap elt. unfold addToHeap.
  eapply perm_trans.
  - apply addToHeap_loop_perm.
    rewrite length_app. simpl List.length.
    replace (List.length heap + 1 - 1)%nat with (List.length heap) by lia.
    rewrite nth_error_app2, Nat.sub_diag by lia. reflexivity.
  - symmetry. apply Permutation_cons_append.
Qed.

Lemma takeFromHeap_cons :
  forall elt (rest : list A),
    exists heap', takeFromHeap (elt :: rest) = (Some elt, heap')
                  /\ Permutation heap' rest.
Proof.
  intros elt rest. unfold takeFromHeap. cbn [nth_error].
  destruct rest as [| lastd mid _] using rev_ind.
  - exists []. split; [reflexivity | apply Permutation_refl].
  - rewrite app_comm_cons, pop_snoc.
    eexists. split; [reflexivity |].
    cbn [JS.set_nth].
    eapply perm_trans.
    + apply takeFromHeap_loop_perm. reflexivity.
    + apply Permutation_cons_append.
Qed.

(** X4.  [addToHeap(heap, elt)] adds [elt] and loses nothing: the array
    afterwards is a rearrangement of the old elements and [elt], one longer. *)
Theorem addToHeap_keeps_elements :
  forall (heap : list A) elt,
    Permutation (addToHeap heap elt) (elt :: heap)
    /\ List.length (addToHeap heap elt) = S (List.length heap)
    /\ forall x, In x (addToHeap heap elt) <-> x = elt \/ In x heap.
Proof.
  intros heap elt. pose proof (addToHeap_perm heap elt) as Hperm.
  split; [exact Hperm |]. split.
  - rewrite (Permutation_length Hperm). reflexivity.
  - intros x. split; intros Hx.
    + apply (Permutation_in x Hperm) in Hx. destruct Hx as [-> | Hx]; auto.
    + apply (Permutation_in x (Permutation_sym Hperm)).
      destruct Hx as [-> | Hx]; [left; reflexivity | right; exact Hx].
Qed.

(** X5.  [takeFromHeap] on an empty array returns [undefined] and leaves it
    empty; on any other array it returns the first element and leaves a
    rearrangement of the others. *)
Theorem takeFromHeap_takes_first :
  takeFromHeap (@nil A) = (None, [])
  /\ forall elt (rest : list A),
       exists heap',
         takeFromHeap (elt :: rest) = (Some elt, heap')
         /\ Permutation heap' rest
         /\ List.length heap' = List.length rest.
Proof.
  split; [reflexivity |]. intros elt rest.
  destruct (takeFromHeap_cons elt rest) as [heap' [Htake Hperm]].
  exists heap'. split; [exact Htake |]. split; [exact Hperm |].
  apply Permutation_length. exact Hperm.
Qed.

End HeapFacts.

(* ------------------------------------------------------------------ *)
(** ** takeFromHeap restores the heap order (l.440-442, 468-486) *)

Section HeapOrderFacts.

Context {A : Type} `{Heapable A}.

Lemma compareHeapable_refl : forall x : A, compareHeapable x x = 0.
Proof.
  intros x. unfold compareHeapable, or_else. rewrite Z.sub_diag. simpl. lia.
Qed.

Lemma compareHeapable_flip :
  forall x y : A, compareHeapable x y >= 0 -> compareHeapable y x <= 0.
Proof.
  intros x y. unfold compareHeapable, or_else.
  destruct (Z.eqb_spec (heapPos x - heapPos y) 0);
    destruct (Z.eqb_spec (heapPos y - heapPos x) 0); lia.
Qed.

Lemma compareHeapable_trans :
  forall x y z : A,
    compareHeapable x y <= 0 -> compareHeapable y z <= 0 -> compareHeapable x z <= 0.
Proof.
  intros x y z. unfold compareHeapable, or_else.
  destruct (Z.eqb_spec (heapPos x - heapPos y) 0);
    destruct (Z.eqb_spec (heapPos y - heapPos z) 0);
    destruct (Z.eqb_spec (heapPos x - heapPos z) 0); lia.
Qed.

Lemma heap_ordered_at_below :
  forall (heap : list A) i, heap_ordered_at heap i = true <-> below heap i.
Proof.
  intros heap i. unfold heap_ordered_at, below, child_of. split.
  - intros Hat x j c Hx Hj Hc. rewrite Hx in Hat.
    apply Bool.andb_true_iff in Hat as [H1 H2].
    destruct Hj as [-> | ->].
    + rewrite Hc in H1. apply Z.leb_le. exact H1.
    + rewrite Hc in H2. apply Z.leb_le. exact H2.
  - intros Hb. destruct (nth_error heap i) as [x |] eqn:Hx; [| reflexivity].
    apply Bool.andb_true_iff. split.
    + destruct (nth_error heap (2 * i + 1)) as [c |] eqn:Hc; [| reflexivity].
      apply Z.leb_le. apply (Hb x (2 * i + 1)%nat c eq_refl); [left; reflexivity | exact Hc].
    + destruct (nth_error heap (2 * i + 2)) as [c |] eqn:Hc; [| reflexivity].
      apply Z.leb_le. apply (Hb x (2 * i + 2)%nat c eq_refl); [right; reflexivity | exact Hc].
Qed.

Lemma heap_ordered_below :
  forall heap : list A, heap_ordered heap = true <-> forall i, below heap i.
Proof.
  intros heap. unfold heap_ordered. rewrite forallb_forall. split.
  - intros Hall i. destruct (Nat.lt_ge_cases i (List.length heap)) as [Hlt | Hge].
    + apply heap_ordered_at_below. apply Hall. apply in_seq. lia.
    + intros x j c Hx. apply nth_error_None in Hge. congruence.
  - intros Hb i _. apply heap_ordered_at_below. apply Hb.
Qed.

(** In an ordered heap the first element is a least one. *)
Lemma ordered_root_least :
  forall (heap : list A) r,
    (forall i, below heap i) -> nth_error heap 0 = Some r ->
    forall i x, nth_error heap i = Some x -> compareHeapable r x <= 0.
Proof.
  intros heap r Hb Hr i.
  induction i as [i IH] using (well_founded_induction lt_wf). intros x Hx.
  destruct i as [| k].
  - assert (x = r) by congruence. subst. rewrite compareHeapable_refl. lia.
  - set (p := (k / 2)%nat).
    assert (Hp : child_of p (S k)).
    { unfold child_of, p. pose proof (Nat.div_mod_eq k 2) as Hdm.
      pose proof (Nat.mod_upper_bound k 2). lia. }
    assert (Hlt : (p < S k)%nat).
    { unfold p. pose proof (Nat.div_mod_eq k 2). lia. }
    destruct (nth_error heap p) as [y |] eqn:Hy.
    + apply (compareHeapable_trans r y x).
      * apply (IH p Hlt y Hy).
      * apply (Hb p y (S k) x Hy Hp Hx).
    + apply nth_error_None in Hy.
      assert (S k < List.length heap)%nat by (apply nth_error_Some; congruence). lia.
Qed.

Lemma toInt32_small : forall x, - 2 ^ 31 <= x < 2 ^ 31 -> JS.toInt32 x = x.
Proof.
  intros x Hx. unfold JS.toInt32. rewrite Z.mod_small by lia. lia.
Qed.

Lemma childIndex_small :
  forall index : nat,
    Z.of_nat index < 2 ^ 30 ->
    Z.to_nat (JS.shl (Z.of_nat index) 1 + 1) = (2 * index + 1)%nat.
Proof.
  intros index Hi. unfold JS.shl.
  rewrite (toInt32_small (Z.of_nat index)) by lia.
  rewrite Z.shiftl_mul_pow2 by lia.
  rewrite toInt32_small by lia. lia.
Qed.

Lemma swap_lookup :
  forall (heap : list A) i j x y k,
    (i < List.length heap)%nat -> (j < List.length heap)%nat -> i <> j ->
    nth_error (JS.set_nth j x (JS.set_nth i y heap)) k
    = if (k =? j)%nat then Some x
      else if (k =? i)%nat then Some y
      else nth_error heap k.
Proof.
  intros heap i j x y k Hi Hj Hne.
  destruct (Nat.eqb_spec k j) as [-> | Hkj].
  - apply set_nth_same. rewrite set_nth_length. exact Hj.
  - rewrite set_nth_other by congruence.
    destruct (Nat.eqb_spec k i) as [-> | Hki].
    + apply set_nth_same. exact Hi.
    + apply set_nth_other. congruence.
Qed.

Lemma takeFromHeap_loop_ordered :
  forall fuel (heap : list A) replacement index,
    Z.of_nat (List.length heap) < 2 ^ 30 ->
    (List.length heap <= fuel + index)%nat ->
    nth_error heap index = Some replacement ->
    (forall i, i <> index -> below heap i) ->
    (forall p x j c,
        child_of p index -> child_of index j ->
        nth_error heap p = Some x -> nth_error heap j = Some c ->
        compareHeapable x c <= 0) ->
    forall i, below (takeFromHeap_loop fuel heap replacement index) i.
Proof.
  intros fuel; induction fuel as [| fuel IH];
    intros heap replacement index Hsize Hfuel Hindex Hothers Hgrand.
  - assert (index < List.length heap)%nat by (apply nth_error_Some; congruence). lia.
  - assert (Hilt : (index < List.length heap)%nat) by (apply nth_error_Some; congruence).
    cbn [takeFromHeap_loop].
    rewrite childIndex_small by lia.
    set (childIndex := (2 * index + 1)%nat).
    assert (Hleaf : (forall j, child_of index j -> nth_error heap j = None) ->
                    forall i, below heap i).
    { intros Hnone i. destruct (Nat.eq_dec i index) as [-> | Hne]; [| apply Hothers; exact Hne].
      intros x j c _ Hj Hc. rewrite (Hnone j Hj) in Hc. discriminate. }
    destruct (Nat.leb_spec (List.length heap) childIndex) as [Hout | Hin].
    { apply Hleaf. intros j [-> | ->]; apply nth_error_None; unfold childIndex in Hout; lia. }
    destruct (nth_error heap childIndex) as [child |] eqn:Hchild.
    2: { apply nth_error_None in Hchild. lia. }
    assert (Hpick :
      exists c ci,
        match nth_error heap (childIndex + 1) with
        | Some sibling =>
            if compareHeapable child sibling >=? 0
            then (sibling, (childIndex + 1)%nat)
            else (child, childIndex)
        | None => (child, childIndex)
        end = (c, ci)
        /\ nth_error heap ci = Some c
        /\ child_of index ci
        /\ forall j s, child_of index j -> nth_error heap j = Some s ->
                       compareHeapable c s <= 0).
    { destruct (nth_error heap (childIndex + 1)) as [sibling |] eqn:Hsib.
      - destruct (Z.geb_spec (compareHeapable child sibling) 0) as [Hge | Hlt].
        + exists sibling, (childIndex + 1)%nat.
          repeat split; [exact Hsib | right; unfold childIndex; lia |].
          intros j s [-> | ->] Hs.
          * fold childIndex in Hs. assert (s = child) by congruence. subst s.
            apply compareHeapable_flip. lia.
          * replace (2 * index + 2)%nat with (childIndex + 1)%nat in Hs
              by (unfold childIndex; lia).
            assert (s = sibling) by congruence. subst s.
            rewrite compareHeapable_refl. lia.
        + exists child, childIndex.
          repeat split; [exact Hchild | left; reflexivity |].
          intros j s [-> | ->] Hs.
          * fold childIndex in Hs. assert (s = child) by congruence. subst s.
            rewrite compareHeapable_refl. lia.
          * replace (2 * index + 2)%nat with (childIndex + 1)%nat in Hs
              by (unfold childIndex; lia).
            assert (s = sibling) by congruence. subst s. lia.
      - exists child, childIndex.
        repeat split; [exact Hchild | left; reflexivity |].
        intros j s [-> | ->] Hs.
        + fold childIndex in Hs. assert (s = child) by congruence. subst s.
          rewrite compareHeapable_refl. lia.
        + replace (2 * index + 2)%nat with (childIndex + 1)%nat in Hs
            by (unfold childIndex; lia).
          congruence. }
    destruct Hpick as [c [ci [-> [Hc [Hci Hleast]]]]].
    assert (Hcilt : (ci < List.length heap)%nat) by (apply nth_error_Some; congruence).
    assert (Hne : ci <> index) by (destruct Hci; lia).
    destruct (Z.ltb_spec (compareHeapable replacement c) 0) as [Hstop | Hgo].
    + intros i. destruct (Nat.eq_dec i index) as [-> | Hi]; [| apply Hothers; exact Hi].
      intros x j s Hx Hj Hs. assert (x = replacement) by congruence. subst x.
      apply (compareHeapable_trans replacement c s); [lia |].
      apply (Hleast j s Hj Hs).
    + assert (Hlook := fun k => swap_lookup heap ci index c replacement k Hcilt Hilt Hne).
      apply IH.
      * rewrite !set_nth_length. exact Hsize.
      * rewrite !set_nth_length. destruct Hci; lia.
      * rewrite Hlook.
        destruct (Nat.eqb_spec ci index); [contradiction |].
        rewrite Nat.eqb_refl. reflexivity.
      * intros i Hi x j s Hx Hj Hs.
        rewrite Hlook in Hx, Hs.
        destruct (Nat.eqb_spec i index) as [-> | Hii].
        -- (* the place the child moved to *)
           inversion Hx; subst x.
           destruct (Nat.eqb_spec j index) as [-> | _]; [destruct Hj; lia |].
           destruct (Nat.eqb_spec j ci) as [-> | Hjc].
           ++ inversion Hs; subst s. apply compareHeapable_flip. lia.
           ++ apply (Hleast j s Hj Hs).
        -- destruct (Nat.eqb_spec i ci) as [-> | Hic]; [contradiction |].
           destruct (Nat.eqb_spec j index) as [-> | Hji].
           ++ (* the parent of [index] *)
              inversion Hs; subst s.
              apply (Hgrand i x ci c Hj Hci Hx Hc).
           ++ destruct (Nat.eqb_spec j ci) as [-> | Hjc].
              ** exfalso. destruct Hj, Hci; lia.
              ** apply (Hothers i Hii x j s Hx Hj Hs).
      * intros p x j s Hp Hj Hx Hs.
        rewrite Hlook in Hx, Hs.
        assert (p = index) by (destruct Hp, Hci; lia). subst p.
        rewrite Nat.eqb_refl in Hx. inversion Hx; subst x.
        destruct (Nat.eqb_spec j index) as [-> | _]; [destruct Hj, Hci; lia |].
        destruct (Nat.eqb_spec j ci) as [-> | _]; [destruct Hj; lia |].
        apply (Hothers ci Hne c j s Hc Hj Hs).
Qed.

(** X6.  On an array of fewer than 2^30 elements in which every element is at
    most its children at [2i+1] and [2i+2] by [compareHeapable],
    [takeFromHeap] returns the first element, which is at most every element
    left, and leaves an array that is ordered in the same way. *)
Theorem takeFromHeap_keeps_order :
  forall heap : list A,
    Z.of_nat (List.length heap) < 2 ^ 30 ->
    heap_ordered heap = true ->
    match takeFromHeap heap with
    | (Some elt, heap') =>
        nth_error heap 0 = Some elt
        /\ heap_ordered heap' = true
        /\ Forall (fun x => compareHeapable elt x <= 0) heap'
    | (None, heap') => heap = [] /\ heap' = []
    end.
Proof.
  intros heap Hsize Hord0.
  pose proof (proj1 (heap_ordered_below heap) Hord0) as Hord.
  destruct heap as [| elt rest]; [split; reflexivity |].
  assert (Hleast : forall x, In x rest -> compareHeapable elt x <= 0).
  { intros x Hin. apply In_nth_error in Hin as [k Hk].
    apply (ordered_root_least (elt :: rest) elt Hord eq_refl (S k) x Hk). }
  destruct (takeFromHeap_cons elt rest) as [heap' [Htake Hperm]].
  rewrite Htake. split; [reflexivity |]. split.
  2: { apply Forall_forall. intros x Hin. apply Hleast.
       apply (Permutation_in x Hperm Hin). }
  clear Hperm. unfold takeFromHeap in Htake. cbn [nth_error] in Htake.
  destruct rest as [| lastd mid _] using rev_ind.
  - inversion Htake; subst. reflexivity.
  - rewrite app_comm_cons, pop_snoc in Htake. inversion Htake; subst heap'. clear Htake.
    cbn [JS.set_nth].
    apply (proj2 (heap_ordered_below _)).
    assert (Hsub : forall k x, (0 < k)%nat -> nth_error (lastd :: mid) k = Some x ->
                               nth_error (elt :: mid ++ [lastd]) k = Some x).
    { intros k x Hk Hx. destruct k as [| k]; [lia |]. simpl in *.
      rewrite nth_error_app1; [exact Hx |]. apply nth_error_Some. congruence. }
    apply (takeFromHeap_loop_ordered (List.length (lastd :: mid)) (lastd :: mid) lastd 0%nat).
    + simpl List.length in *. rewrite length_app in Hsize. simpl in Hsize. lia.
    + lia.
    + reflexivity.
    + intros i Hi x j c Hx Hj Hc.
      apply (Hord i x j c); [apply Hsub; [lia | exact Hx] | exact Hj |].
      apply Hsub; [destruct Hj; lia | exact Hc].
    + intros p x j c Hp. destruct Hp; lia.
Qed.

End HeapOrderFacts.

Lemma takeFromHeap_keeps_order_witness :
  match takeFromHeap ordered_heap with
  | (Some elt, heap') =>
      nth_error ordered_heap 0 = Some elt
      /\ heap_ordered heap' = true
      /\ Forall (fun x => compareHeapable elt x <= 0) heap'
  | (None, heap') => ordered_heap = [] /\ heap' = []
  end.
Proof.
  apply (takeFromHeap_keeps_order ordered_heap); [vm_compute; reflexivity | reflexivity].
Defined.

(* ------------------------------------------------------------------ *)
(** ** Attribute and descriptor equality (l.27-29, 62-69, 84-87, 776-785) *)

Lemma attr_get_In :
  forall (o : Attrs) key, In key (List.map fst o) <-> exists v, attr_get o key = Some v.
Proof.
  intros o key. unfold attr_get. induction o as [| [k v] o IH]; simpl.
  - split; [contradiction | intros [v H]; discriminate].
  - destruct (String.eqb_spec k key) as [-> | Hne].
    + split; [intros _; exists v; reflexivity | intros _; left; reflexivity].
    + rewrite <- IH. split; [intros [H | H]; [contradiction | exact H] | intros H; right; exact H].
Qed.

Lemma existsb_eqb_In :
  forall key keys, existsb (String.eqb key) keys = true <-> In key keys.
Proof.
  intros key keys. rewrite existsb_exists. split.
  - intros [x [Hin Heq]]. apply String.eqb_eq in Heq. subst. exact Hin.
  - intros Hin. exists key. split; [exact Hin | apply String.eqb_refl].
Qed.

Lemma attrsEq_unfold :
  forall a b : Attrs,
    attrsEq (Some a) (Some b)
    = (List.length (List.map fst a) =? List.length (List.map fst b))%nat
      && forallb (fun key =>
                    existsb (String.eqb key) (List.map fst b)
                    && match attr_get a key, attr_get b key with
                       | Some x, Some y => String.eqb x y
                       | _, _ => false
                       end) (List.map fst a).
Proof. reflexivity. Qed.

Lemma attrsEq_iff :
  forall a b : Attrs,
    NoDup (List.map fst a) -> NoDup (List.map fst b) ->
    (attrsEq (Some a) (Some b) = true <-> forall key, attr_get a key = attr_get b key).
Proof.
  intros a b Ha Hb. rewrite attrsEq_unfold.
  rewrite Bool.andb_true_iff, Nat.eqb_eq, forallb_forall. split.
  - intros [Hlen Hall] key.
    assert (Hab : incl (List.map fst a) (List.map fst b)).
    { intros k Hk. specialize (Hall k Hk).
      apply Bool.andb_true_iff in Hall as [Hex _]. apply existsb_eqb_In. exact Hex. }
    assert (Hba : incl (List.map fst b) (List.map fst a)).
    { apply NoDup_length_incl; [exact Ha | lia | exact Hab]. }
    destruct (attr_get a key) as [x |] eqn:Hx.
    + assert (Hk : In key (List.map fst a)) by (apply attr_get_In; exists x; exact Hx).
      specialize (Hall key Hk). apply Bool.andb_true_iff in Hall as [_ Hval].
      rewrite Hx in Hval. destruct (attr_get b key) as [y |]; [| discriminate].
      apply String.eqb_eq in Hval. subst. reflexivity.
    + destruct (attr_get b key) as [y |] eqn:Hy; [| reflexivity].
      assert (Hk : In key (List.map fst a)).
      { apply Hba. apply attr_get_In. exists y. exact Hy. }
      apply attr_get_In in Hk as [v Hv]. congruence.
  - intros Hsame.
    assert (Hab : incl (List.map fst a) (List.map fst b)).
    { intros k Hk. apply attr_get_In in Hk as [v Hv]. apply attr_get_In.
      exists v. rewrite <- Hsame. exact Hv. }
    assert (Hba : incl (List.map fst b) (List.map fst a)).
    { intros k Hk. apply attr_get_In in Hk as [v Hv]. apply attr_get_In.
      exists v. rewrite Hsame. exact Hv. }
    split.
    + apply Nat.le_antisymm; apply NoDup_incl_length; assumption.
    + intros key Hk. apply Bool.andb_true_iff. split.
      * apply existsb_eqb_In. apply Hab. exact Hk.
      * apply attr_get_In in Hk as [v Hv]. rewrite <- Hsame, Hv. apply String.eqb_refl.
Qed.

Lemma attrsEq_refl : forall a, attrsEq a a = true.
Proof.
  intros [a |]; [| reflexivity]. rewrite attrsEq_unfold.
  rewrite Nat.eqb_refl. apply forallb_forall. intros key Hk.
  apply Bool.andb_true_iff. split; [apply existsb_eqb_In; exact Hk |].
  apply attr_get_In in Hk as [v Hv]. rewrite Hv. apply String.eqb_refl.
Qed.

Lemma attrsEq_sym :
  forall a b, attrs_distinct a -> attrs_distinct b -> attrsEq a b = attrsEq b a.
Proof.
  intros [a |] [b |] Ha Hb; try reflexivity. simpl in Ha, Hb.
  apply Bool.eq_true_iff_eq.
  rewrite (attrsEq_iff a b Ha Hb), (attrsEq_iff b a Hb Ha).
  split; intros Hs key; symmetry; apply Hs.
Qed.

(** X7.  On two objects, [attrsEq] is true exactly when they map every key to
    the same value, whatever the order of their keys; so it is reflexive and
    symmetric.  An object never equals [null] or [undefined]. *)
Theorem attrsEq_same_entries :
  forall a b : Attrs,
    NoDup (List.map fst a) -> NoDup (List.map fst b) ->
    (attrsEq (Some a) (Some b) = true <-> forall key, attr_get a key = attr_get b key)
    /\ attrsEq (Some a) (Some a) = true
    /\ attrsEq (Some a) (Some b) = attrsEq (Some b) (Some a)
    /\ attrsEq (Some a) None = false
    /\ attrsEq None (Some b) = false.
Proof.
  intros a b Ha Hb. split; [apply attrsEq_iff; assumption |].
  split; [apply attrsEq_refl |].
  split; [apply attrsEq_sym; assumption |].
  split; reflexivity.
Qed.

Lemma attrsEq_same_entries_witness :
  let a := [("class", "x"); ("id", "y")]%string in
  let b := [("id", "y"); ("class", "x")]%string in
  (attrsEq (Some a) (Some b) = true <-> forall key, attr_get a key = attr_get b key)
  /\ attrsEq (Some a) (Some a) = true
  /\ attrsEq (Some a) (Some b) = attrsEq (Some b) (Some a)
  /\ attrsEq (Some a) None = false
  /\ attrsEq None (Some b) = false.
Proof.
  apply (attrsEq_same_entries [("class", "x"); ("id", "y")]%string
           [("id", "y"); ("class", "x")]%string);
    (constructor; [simpl; intros [H | []]; discriminate |]);
    (constructor; [simpl; intros [] | constructor]).
Defined.

Lemma WidgetType_compare_sym :
  forall w w', WidgetType.compare w w' = WidgetType.compare w' w.
Proof.
  intros w w'. unfold WidgetType.compare, WidgetType.eq.
  rewrite (N.eqb_sym (WidgetType.wid w)), (N.eqb_sym (WidgetType.ctor w)),
    (Z.eqb_sym (WidgetType.spec w)).
  reflexivity.
Qed.

Lemma WidgetType_compare_refl : forall w, WidgetType.compare w w = true.
Proof. intros w. unfold WidgetType.compare. rewrite N.eqb_refl. reflexivity. Qed.

Lemma option_string_eqb_sym :
  forall a b, option_string_eqb a b = option_string_eqb b a.
Proof. intros [a |] [b |]; simpl; try reflexivity. apply String.eqb_sym. Qed.

Lemma option_string_eqb_refl : forall a, option_string_eqb a a = true.
Proof. intros [a |]; simpl; [apply String.eqb_refl | reflexivity]. Qed.

Lemma collapsed_strict_eq_sym :
  forall a b, collapsed_strict_eq a b = collapsed_strict_eq b a.
Proof.
  intros [| x | x] [| y | y]; simpl; try reflexivity.
  - destruct x, y; reflexivity.
  - apply N.eqb_sym.
Qed.



(* ------------------------------------------------------------------ *)
(** ** Comparing active sets and widget sets (l.750-768) *)

Lemma forallb_Permutation :
  forall {A} (f : A -> bool) l l', Permutation l l' -> forallb f l = forallb f l'.
Proof.
  intros A f l l' HP. induction HP; simpl.
  - reflexivity.
  - rewrite IHHP. reflexivity.
  - destruct (f x), (f y); reflexivity.
  - congruence.
Qed.

Lemma existsb_Permutation :
  forall {A} (f : A -> bool) l l', Permutation l l' -> existsb f l = existsb f l'.
Proof.
  intros A f l l' HP. induction HP; simpl.
  - reflexivity.
  - rewrite IHHP. reflexivity.
  - destruct (f x), (f y); reflexivity.
  - congruence.
Qed.

Lemma forallb_ext_all :
  forall {A} (f g : A -> bool) l, (forall x, f x = g x) -> forallb f l = forallb g l.
Proof.
  intros A f g l Hfg. induction l as [| x l IH]; simpl; [reflexivity |].
  rewrite Hfg, IH. reflexivity.
Qed.

Lemma indexOf_desc_existsb :
  forall elt array,
    is_some (indexOf_desc elt array)
    = existsb (fun x => (Desc.did x =? Desc.did elt)%N) array.
Proof.
  intros elt array. induction array as [| x rest IH]; simpl; [reflexivity |].
  destruct (Desc.did x =? Desc.did elt)%N; [reflexivity |].
  rewrite <- IH. destruct (indexOf_desc elt rest); reflexivity.
Qed.

(** X9.  [compareActiveSets] and [compareWidgetSets] do not depend on the
    order of the elements of either array, and an array compares equal to
    every rearrangement of itself. *)
Theorem set_comparison_unordered :
  forall (active active' other other' : list DecorationDesc)
         (widgets widgets' others others' : list WidgetType.t),
    Permutation active active' -> Permutation other other' ->
    Permutation widgets widgets' -> Permutation others others' ->
    compareActiveSets active other = compareActiveSets active' other'
    /\ compareWidgetSets widgets others = compareWidgetSets widgets' others'
    /\ compareActiveSets active active' = true
    /\ compareWidgetSets widgets widgets' = true.
Proof.
  intros active active' other other' widgets widgets' others others' Ha Ho Hw Hos.
  assert (Hactive : forall x x' y y',
             Permutation x x' -> Permutation y y' ->
             compareActiveSets x y = compareActiveSets x' y').
  { intros x x' y y' Hx Hy. unfold compareActiveSets.
    rewrite (Permutation_length Hx), (Permutation_length Hy). f_equal.
    rewrite (forallb_Permutation _ _ _ Hx). apply forallb_ext_all. intros d.
    rewrite !indexOf_desc_existsb.
    rewrite (existsb_Permutation _ _ _ Hy), (existsb_Permutation (desc_eq d) _ _ Hy).
    reflexivity. }
  assert (Hwidgets : forall x x' y y',
             Permutation x x' -> Permutation y y' ->
             compareWidgetSets x y = compareWidgetSets x' y').
  { intros x x' y y' Hx Hy. unfold compareWidgetSets.
    rewrite (Permutation_length Hx), (Permutation_length Hy). f_equal.
    rewrite (forallb_Permutation _ _ _ Hx). apply forallb_ext_all. intros w.
    rewrite (existsb_Permutation _ _ _ Hy), (existsb_Permutation (WidgetType.compare w) _ _ Hy).
    reflexivity. }
  split; [apply Hactive; assumption |].
  split; [apply Hwidgets; assumption |].
  split.
  - rewrite <- (Hactive active active active active' (Permutation_refl _) Ha).
    unfold compareActiveSets. rewrite Nat.eqb_refl. apply forallb_forall. intros d Hd.
    rewrite indexOf_desc_existsb. apply Bool.orb_true_iff. left.
    apply existsb_exists. exists d. split; [exact Hd | apply N.eqb_refl].
  - rewrite <- (Hwidgets widgets widgets widgets widgets' (Permutation_refl _) Hw).
    unfold compareWidgetSets. rewrite Nat.eqb_refl. apply forallb_forall. intros w Hin.
    apply Bool.orb_true_iff. left.
    apply existsb_exists. exists w. split; [exact Hin | apply N.eqb_refl].
Qed.

Lemma set_comparison_unordered_witness :
  let d1 := RangeDesc 1 (attr "a") in
  let d2 := RangeDesc 2 (attr "b") in
  compareActiveSets [d1; d2] [d2; d1] = compareActiveSets [d2; d1] [d1; d2]
  /\ compareWidgetSets [widgetA; widgetB] [widgetA; widgetB]
     = compareWidgetSets [widgetB; widgetA] [widgetB; widgetA]
  /\ compareActiveSets [d1; d2] [d2; d1] = true
  /\ compareWidgetSets [widgetA; widgetB] [widgetB; widgetA] = true.
Proof.
  apply (set_comparison_unordered
           [RangeDesc 1 (attr "a"); RangeDesc 2 (attr "b")]
           [RangeDesc 2 (attr "b"); RangeDesc 1 (attr "a")]
           [RangeDesc 2 (attr "b"); RangeDesc 1 (attr "a")]
           [RangeDesc 1 (attr "a"); RangeDesc 2 (attr "b")]
           [widgetA; widgetB] [widgetB; widgetA] [widgetA; widgetB] [widgetB; widgetA]);
    apply perm_swap.
Defined.

(* ------------------------------------------------------------------ *)
(** ** joinRanges (l.794-807) *)

Lemma even_index_next :
  forall (l : list Z) i,
    Nat.even (List.length l) = true -> Nat.even i = true -> (i < List.length l)%nat ->
    (S i < List.length l)%nat.
Proof.
  intros l i Hl Hi Hlt.
  destruct (Nat.eq_dec (S i) (List.length l)) as [Heq | Hne]; [| lia].
  rewrite <- Heq, Nat.even_succ, <- Nat.negb_even, Hi in Hl. discriminate.
Qed.

Lemma addRange_In :
  forall from to ranges x,
    In x (addRange from to ranges) -> x = from \/ x = to \/ In x ranges.
Proof.
  intros from to ranges x.
  destruct ranges as [| lastTo init _] using rev_ind.
  - simpl. intros [H | [H | []]]; auto.
  - rewrite addRange_last. destruct (lastTo + MIN_RANGE_GAP >? from); intros Hin.
    + apply in_app_or in Hin as [Hin | [Hin | []]]; [| auto].
      right; right. apply in_or_app. left. exact Hin.
    + apply in_app_or in Hin as [Hin | [Hin | [Hin | []]]]; auto.
Qed.

Lemma addRange_nonempty : forall from to ranges, addRange from to ranges <> [].
Proof.
  intros from to ranges.
  destruct ranges as [| lastTo init _] using rev_ind; [discriminate |].
  rewrite addRange_last. destruct (lastTo + MIN_RANGE_GAP >? from);
    intros Heq; apply app_eq_nil in Heq as [_ Heq]; discriminate.
Qed.

Lemma joinRanges_loop_built :
  forall fuel a b iA iB result,
    Nat.even (List.length a) = true -> Nat.even (List.length b) = true ->
    Nat.even iA = true -> Nat.even iB = true ->
    (iA <= List.length a)%nat -> (iB <= List.length b)%nat ->
    (List.length a - iA + (List.length b - iB) < 2 * fuel)%nat ->
    Built result ->
    exists r, joinRanges_loop fuel a b iA iB result = Some r
              /\ Built r
              /\ (forall x, In x r -> In x result \/ In x a \/ In x b)
              /\ (result <> [] \/ (iA < List.length a)%nat \/ (iB < List.length b)%nat ->
                  r <> []).
Proof.
  intros fuel; induction fuel as [| fuel IH];
    intros a b iA iB result Ha Hb HiA HiB HleA HleB Hfuel HB; [lia |].
  cbn [joinRanges_loop].
  match goal with |- context [if ?c then _ else _] => destruct c eqn:Htake end.
  - apply Bool.andb_true_iff in Htake as [HltA _]. apply Nat.ltb_lt in HltA.
    pose proof (even_index_next a iA Ha HiA HltA) as HltA'.
    destruct (nth_error a iA) as [from |] eqn:Hfrom;
      [| apply nth_error_None in Hfrom; lia].
    destruct (nth_error a (S iA)) as [to |] eqn:Hto;
      [| apply nth_error_None in Hto; lia].
    assert (Hev : Nat.even (S (S iA)) = true) by (rewrite Nat.even_succ_succ; exact HiA).
    destruct (IH a b (S (S iA)) iB (addRange from to result) Ha Hb Hev HiB
                ltac:(lia) HleB ltac:(lia) (Built_add _ _ _ HB)) as [r [Hr [HBr [Hin Hne]]]].
    exists r. split; [exact Hr |]. split; [exact HBr |]. split.
    2: { intros _. apply Hne. left. apply addRange_nonempty. }
      intros x Hx. destruct (Hin x Hx) as [H | H]; [| auto].
      apply addRange_In in H as [-> | [-> | H]]; auto.
      * right; left. eapply nth_error_In; eassumption.
      * right; left. eapply nth_error_In; eassumption.
  - destruct (Nat.ltb_spec iB (List.length b)) as [HltB | HgeB].
    + pose proof (even_index_next b iB Hb HiB HltB) as HltB'.
      destruct (nth_error b iB) as [from |] eqn:Hfrom;
        [| apply nth_error_None in Hfrom; lia].
      destruct (nth_error b (S iB)) as [to |] eqn:Hto;
        [| apply nth_error_None in Hto; lia].
      assert (Hev : Nat.even (S (S iB)) = true) by (rewrite Nat.even_succ_succ; exact HiB).
      destruct (IH a b iA (S (S iB)) (addRange from to result) Ha Hb HiA Hev
                  HleA ltac:(lia) ltac:(lia) (Built_add _ _ _ HB)) as [r [Hr [HBr [Hin Hne]]]].
      exists r. split; [exact Hr |]. split; [exact HBr |]. split.
      2: { intros _. apply Hne. left. apply addRange_nonempty. }
        intros x Hx. destruct (Hin x Hx) as [H | H]; [| auto].
        apply addRange_In in H as [-> | [-> | H]]; auto.
        -- right; right. eapply nth_error_In; eassumption.
        -- right; right. eapply nth_error_In; eassumption.
    + exists result. split; [reflexivity |]. split; [exact HB |]. split; [auto |].
      intros [Hne | [Hlt | Hlt]]; [exact Hne | | lia].
      apply Bool.andb_false_iff in Htake as [Hf | Hf].
      * apply Nat.ltb_ge in Hf. lia.
      * apply Bool.orb_false_iff in Hf as [Hf _]. apply Nat.eqb_neq in Hf. lia.
Qed.

(** X10.  On arrays of whole pairs: [joinRanges] returns the other array when
    one is empty.  When neither is, it returns a non-empty array of whole
    pairs in which every pair starts at least [MIN_RANGE_GAP] after the end of
    the pair before it, and whose numbers all come from the two arrays. *)
Theorem joinRanges_merges :
  forall a b : list Z,
    Nat.even (List.length a) = true -> Nat.even (List.length b) = true ->
    joinRanges [] b = Some b
    /\ joinRanges a [] = Some a
    /\ (a <> [] -> b <> [] ->
        exists r, joinRanges a b = Some r
                  /\ r <> []
                  /\ merged r
                  /\ Nat.even (List.length r) = true
                  /\ forall x, In x r -> In x a \/ In x b).
Proof.
  intros a b Ha Hb. split; [reflexivity |]. split.
  - unfold joinRanges. destruct a; reflexivity.
  - intros Hna Hnb. unfold joinRanges.
    destruct a as [| a0 a']; [contradiction |].
    destruct b as [| b0 b']; [contradiction |].
    cbn [List.length Nat.eqb].
    destruct (joinRanges_loop_built (S (S (List.length a') + S (List.length b')))
                (a0 :: a') (b0 :: b') 0 0 [] Ha Hb eq_refl eq_refl
                ltac:(lia) ltac:(lia) ltac:(simpl; lia) Built_empty) as [r [Hr [HB [Hin Hne]]]].
    exists r. cbn [List.length] in Hr. rewrite Hr.
    repeat split.
    + apply Hne. right; left. simpl. lia.
    + apply Built_merged. exact HB.
    + apply Built_even. exact HB.
    + intros x Hx. destruct (Hin x Hx) as [[] | H]; exact H.
Qed.

Lemma joinRanges_merges_witness :
  joinRanges [] [20; 30] = Some [20; 30]
  /\ joinRanges [0; 5] [] = Some [0; 5]
  /\ ([0; 5] <> [] -> [20; 30] <> [] ->
      exists r, joinRanges [0; 5] [20; 30] = Some r
                /\ r <> []
                /\ merged r
                /\ Nat.even (List.length r) = true
                /\ forall x, In x r -> In x [0; 5] \/ In x [20; 30]).
Proof.
  apply (joinRanges_merges [0; 5] [20; 30]); reflexivity.
Defined.

(* ------------------------------------------------------------------ *)
(** ** collect (l.243-249) *)

(** Induction on a tree, with the property of every child at hand. *)
Lemma DecorationSet_ind_children :
  forall P : DecorationSet.t -> Prop,
    (forall sid length size local children,
        Forall P children -> P (DecorationSet.mk sid length size local children)) ->
    forall this, P this.
Proof.
  intros P Hnode. fix IH 1. intros [sid length size local children].
  apply Hnode. induction children as [| child rest IHrest]; constructor.
  - apply IH.
  - exact IHrest.
Qed.

Lemma move_unfold :
  forall d offset,
    Decoration.move d offset
    = Decoration.mk (Decoration.from d + offset) (Decoration.to d + offset)
        (Decoration.desc d).
Proof.
  intros [from to desc] offset. unfold Decoration.move. simpl.
  destruct (Z.eqb_spec offset 0) as [-> | _]; [| reflexivity].
  rewrite !Z.add_0_r. reflexivity.
Qed.

Lemma move_move :
  forall d x y, Decoration.move (Decoration.move d x) y = Decoration.move d (x + y).
Proof.
  intros d x y. rewrite !move_unfold. simpl. f_equal; lia.
Qed.

Lemma collect_unfold :
  forall this target offset,
    DecorationSet.collect this target offset
    = collect_each (DecorationSet.children this)
        (target ++ List.map (fun deco => Decoration.move deco offset)
                              (DecorationSet.local this))
        offset.
Proof. intros [sid length size local children] target offset. reflexivity. Qed.

Lemma collect_each_cons :
  forall child rest target offset,
    collect_each (child :: rest) target offset
    = collect_each rest (DecorationSet.collect child target offset)
        (offset + DecorationSet.length child).
Proof. reflexivity. Qed.

Lemma collect_each_shift :
  forall children,
    Forall (fun child =>
              forall target offset,
                DecorationSet.collect child target offset
                = target ++ List.map (fun d => Decoration.move d offset)
                                     (DecorationSet.collect child [] 0)) children ->
    forall target offset,
      collect_each children target offset
      = target ++ List.map (fun d => Decoration.move d offset)
                           (collect_each children [] 0).
Proof.
  intros children Hall. induction Hall as [| child rest Hchild _ IH]; intros target offset.
  - simpl. rewrite app_nil_r. reflexivity.
  - rewrite !collect_each_cons.
    rewrite IH, (IH (DecorationSet.collect child [] 0)), Hchild.
    rewrite map_app, map_map, <- !app_assoc. do 2 f_equal.
    apply map_ext. intros d. rewrite move_move. f_equal. lia.
Qed.

Lemma map_move_0 :
  forall l, List.map (fun d => Decoration.move d 0) l = l.
Proof.
  intros l. induction l as [| d l IH]; simpl; [reflexivity |].
  rewrite IH. reflexivity.
Qed.

Lemma collect_shift :
  forall this target offset,
    DecorationSet.collect this target offset
    = target ++ List.map (fun d => Decoration.move d offset)
                         (DecorationSet.collect this [] 0).
Proof.
  intros this. induction this as [sid length size local children IH]
    using DecorationSet_ind_children.
  intros target offset. rewrite !collect_unfold. cbn [DecorationSet.children DecorationSet.local].
  rewrite map_move_0. simpl app.
  rewrite (collect_each_shift children IH (target ++ _)).
  rewrite (collect_each_shift children IH local 0).
  rewrite map_move_0, map_app, <- app_assoc. reflexivity.
Qed.

Lemma checkSet_unfold :
  forall this,
    checkSet this = node_ok this && forallb checkSet (DecorationSet.children this).
Proof.
  intros [sid length size local children]. reflexivity.
Qed.

Lemma fold_left_sum :
  forall {A} (f : A -> Z) (l : list A) (acc : Z),
    fold_left (fun acc c => acc + f c) l acc = acc + fold_left (fun acc c => acc + f c) l 0.
Proof.
  intros A f l. induction l as [| x l IH]; intros acc; simpl; [lia |].
  rewrite IH, (IH (f x)). lia.
Qed.

Lemma len_app : forall {A} (l l' : list A), len (l ++ l') = len l + len l'.
Proof. intros A l l'. unfold len. rewrite length_app. lia. Qed.

Lemma len_map : forall {A B} (f : A -> B) (l : list A), len (List.map f l) = len l.
Proof. intros A B f l. unfold len. rewrite length_map. reflexivity. Qed.

Lemma collect_each_count :
  forall children,
    Forall (fun child => checkSet child = true ->
                         len (DecorationSet.collect child [] 0) = DecorationSet.size child)
           children ->
    forallb checkSet children = true ->
    len (collect_each children [] 0)
    = fold_left (fun acc c => acc + DecorationSet.size c) children 0.
Proof.
  intros children Hall. induction Hall as [| child rest Hchild _ IH]; intros Hok.
  - reflexivity.
  - cbn [forallb] in Hok. apply Bool.andb_true_iff in Hok as [Hc Hrest].
    rewrite collect_each_cons. cbn [fold_left].
    rewrite fold_left_sum.
    rewrite collect_each_shift.
    + rewrite len_app, len_map, (IH Hrest), (Hchild Hc). lia.
    + apply Forall_forall. intros c _. apply collect_shift.
Qed.

(** X11.  [collect(target, offset)] appends to [target] what it collects with
    offset 0, every decoration moved by [offset].  In a tree whose [size]
    fields are consistent it appends exactly [size] decorations. *)
Theorem collect_lists_every_decoration :
  forall this target offset,
    checkSet this = true ->
    DecorationSet.collect this target offset
    = target ++ List.map (fun d => Decoration.move d offset)
                         (DecorationSet.collect this [] 0)
    /\ len (DecorationSet.collect this target offset)
       = len target + DecorationSet.size this.
Proof.
  intros this target offset Hok. split; [apply collect_shift |].
  rewrite collect_shift, len_app, len_map. f_equal.
  clear target offset. revert Hok.
  induction this as [sid length size local children IH] using DecorationSet_ind_children.
  intros Hok. rewrite checkSet_unfold in Hok.
  apply Bool.andb_true_iff in Hok as [Hnode Hchildren].
  rewrite collect_unfold. cbn [DecorationSet.children DecorationSet.local DecorationSet.size] in *.
  rewrite map_move_0. simpl app.
  rewrite collect_each_shift by (apply Forall_forall; intros c _; apply collect_shift).
  rewrite len_app, len_map, (collect_each_count children IH Hchildren).
  unfold node_ok in Hnode. cbn [DecorationSet.children DecorationSet.local DecorationSet.size] in Hnode.
  apply Bool.andb_true_iff in Hnode as [Hnode _].
  apply Bool.andb_true_iff in Hnode as [Hnode _].
  apply Bool.andb_true_iff in Hnode as [Hnode _].
  apply Z.eqb_eq in Hnode. lia.
Qed.

Lemma collect_lists_every_decoration_witness :
  DecorationSet.collect twoLeaves [] 3
  = [] ++ List.map (fun d => Decoration.move d 3) (DecorationSet.collect twoLeaves [] 0)
  /\ len (DecorationSet.collect twoLeaves [] 3) = len (@nil Decoration.t) + DecorationSet.size twoLeaves.
Proof.
  apply (collect_lists_every_decoration twoLeaves [] 3). reflexivity.
Defined.

(* ------------------------------------------------------------------ *)
(** ** update on a small leaf (l.158-235, 525-536) *)

Lemma sort_insert_perm :
  forall {A} (cmp : A -> A -> Z) x l, Permutation (JS.sort_insert cmp x l) (x :: l).
Proof.
  intros A cmp x l. induction l as [| y t IH]; simpl.
  - apply Permutation_refl.
  - destruct (cmp x y >? 0); [| apply Permutation_refl].
    eapply perm_trans; [apply perm_skip; exact IH | apply perm_swap].
Qed.

Lemma sort_perm :
  forall {A} (cmp : A -> A -> Z) l, Permutation (JS.sort cmp l) l.
Proof.
  intros A cmp l. unfold JS.sort. induction l as [| x l IH]; simpl.
  - apply Permutation_refl.
  - eapply perm_trans; [apply sort_insert_perm | apply perm_skip; exact IH].
Qed.

Lemma sort_insert_sorted :
  forall x l, sorted_byPos l = true -> sorted_byPos (JS.sort_insert byPos x l) = true.
Proof.
  intros x l. induction l as [| y t IH]; intros Hs.
  - reflexivity.
  - cbn [JS.sort_insert].
    destruct (Z.gtb_spec (byPos x y) 0) as [Hgt | Hle].
    + pose proof (sorted_byPos_tail y t Hs) as Ht. specialize (IH Ht).
      destruct t as [| z t].
      * simpl. rewrite Bool.andb_true_r. apply Z.leb_le. apply byPos_flip. lia.
      * cbn [JS.sort_insert] in *.
        change (sorted_byPos (y :: z :: t)) with ((byPos y z <=? 0) && sorted_byPos (z :: t)) in Hs.
        apply Bool.andb_true_iff in Hs as [Hyz _].
        destruct (byPos x z >? 0).
        -- change (sorted_byPos (y :: z :: JS.sort_insert byPos x t))
             with ((byPos y z <=? 0) && sorted_byPos (z :: JS.sort_insert byPos x t)).
           rewrite Hyz, IH. reflexivity.
        -- change (sorted_byPos (y :: x :: z :: t))
             with ((byPos y x <=? 0) && sorted_byPos (x :: z :: t)).
           rewrite IH, Bool.andb_true_r. apply Z.leb_le. apply byPos_flip. lia.
    + change (sorted_byPos (x :: y :: t)) with ((byPos x y <=? 0) && sorted_byPos (y :: t)).
      rewrite Hs, Bool.andb_true_r. apply Z.leb_le. lia.
Qed.

Lemma sort_sorted : forall l, sorted_byPos (JS.sort byPos l) = true.
Proof.
  intros l. unfold JS.sort. induction l as [| x l IH]; simpl; [reflexivity |].
  apply sort_insert_sorted. exact IH.
Qed.

Lemma sorted_byPos_cons :
  forall x l,
    sorted_byPos (x :: l) = true
    <-> Forall (fun y => byPos x y <= 0) l /\ sorted_byPos l = true.
Proof.
  intros x l. revert x. induction l as [| y t IH]; intros x.
  - split; [intros _; split; [constructor | reflexivity] | reflexivity].
  - change (sorted_byPos (x :: y :: t)) with ((byPos x y <=? 0) && sorted_byPos (y :: t)).
    rewrite Bool.andb_true_iff, Z.leb_le. split.
    + intros [Hxy Hs]. split; [| exact Hs].
      constructor; [exact Hxy |].
      apply IH in Hs as [Hall _].
      eapply Forall_impl; [| exact Hall].
      intros z Hyz. simpl in Hyz. apply (byPos_trans x y z Hxy Hyz).
    + intros [Hall Hs]. inversion Hall; subst. split; assumption.
Qed.

Lemma filter_sorted :
  forall f l, sorted_byPos l = true -> sorted_byPos (List.filter f l) = true.
Proof.
  intros f l. induction l as [| x l IH]; intros Hs; [reflexivity |].
  apply sorted_byPos_cons in Hs as [Hall Hs]. simpl.
  destruct (f x); [| apply IH; exact Hs].
  apply sorted_byPos_cons. split; [| apply IH; exact Hs].
  apply Forall_forall. intros y Hy. apply filter_In in Hy as [Hy _].
  revert y Hy. apply Forall_forall. exact Hall.
Qed.

Lemma filter_all :
  forall {A} (f : A -> bool) l, forallb f l = true -> List.filter f l = l.
Proof.
  intros A f l. induction l as [| x l IH]; simpl; intros H; [reflexivity |].
  apply Bool.andb_true_iff in H as [Hx Hl]. rewrite Hx, IH by exact Hl. reflexivity.
Qed.

Lemma push_moved :
  forall add local offset,
    fold_left (fun local added => local ++ [Decoration.move added offset]) add local
    = local ++ List.map (fun d => Decoration.move d offset) add.
Proof.
  intros add. induction add as [| d add IH]; intros local offset; simpl.
  - rewrite app_nil_r. reflexivity.
  - rewrite IH, <- app_assoc. reflexivity.
Qed.

Lemma or_filterDecorations :
  forall local filter ff ft off,
    or_ (filterDecorations local filter ff ft off) local = kept_local local filter ff ft off.
Proof.
  intros local [f |] ff ft off; [| reflexivity].
  rewrite filterDecorations_some. unfold kept_local.
  destruct (forallb (filter_keeps f ff ft off) local) eqn:Hall; [| reflexivity].
  simpl. symmetry. apply filter_all. exact Hall.
Qed.

Lemma updateInner_leaf :
  forall fuel this decorations filter ff ft offset length n,
    DecorationSet.children this = [] ->
    len (kept_local (DecorationSet.local this) filter ff ft offset) + len decorations
      <= BASE_NODE_SIZE ->
    updateInner (S fuel) this decorations filter ff ft offset length n
    = if negb (is_some (filterDecorations (DecorationSet.local this) filter ff ft offset))
         && (0 =? len decorations)
      then Ok this n
      else
        let kept := kept_local (DecorationSet.local this) filter ff ft offset in
        let local := kept ++ List.map (fun d => Decoration.move d (- offset)) decorations in
        let local := if (len kept >? 0) && (len decorations >? 0)
                     then JS.sort byPos local else local in
        Ok (DecorationSet.mk n length (len local) local []) (N.succ n).
Proof.
  intros fuel this decorations filter ff ft offset length n Hleaf Hsmall.
  change (updateInner (S fuel)) with (updateInner_body (updateInner fuel) fuel).
  unfold updateInner_body. rewrite Hleaf.
  cbn [updateInner_children bind ret u_local u_children u_decI u_size u_pos is_some negb].
  rewrite Bool.andb_true_r. change (Z.of_nat 0) with 0.
  destruct (negb (is_some (filterDecorations (DecorationSet.local this) filter ff ft offset))
            && (0 =? len decorations)); [reflexivity |].
  rewrite or_filterDecorations.
  destruct (Z.leb_spec (0 + (len (kept_local (DecorationSet.local this) filter ff ft offset)
                             + len decorations - 0)) BASE_NODE_SIZE) as [_ | Hbig]; [| lia].
  unfold collapseSet. cbn [or_ fold_left]. rewrite push_moved.
  reflexivity.
Qed.

Lemma filter_id_forallb :
  forall {A} (f : A -> bool) l, List.filter f l = l -> forallb f l = true.
Proof.
  intros A f l. induction l as [| x l IH]; simpl; intros H; [reflexivity |].
  destruct (f x) eqn:Hx.
  - inversion H as [H']. rewrite H'. simpl. apply IH. exact H'.
  - exfalso. pose proof (filter_length_le f l) as Hle. rewrite H in Hle. simpl in Hle. lia.
Qed.

Lemma len_nil_iff : forall {A} (l : list A), (len l >? 0) = false -> l = [].
Proof.
  intros A [| x l] H; [reflexivity |]. unfold len in H.
  destruct (Z.gtb_spec (Z.of_nat (List.length (x :: l))) 0) as [_ | Hle]; [discriminate |].
  simpl List.length in Hle. lia.
Qed.

Lemma kept_local_sorted :
  forall local filter ff ft off,
    sorted_byPos local = true -> sorted_byPos (kept_local local filter ff ft off) = true.
Proof.
  intros local [f |] ff ft off Hs; [apply filter_sorted |]; exact Hs.
Qed.

(** X12.  On a leaf whose [size] is the number of its decorations, when the
    decorations that pass the filter and the added ones are at most
    [BASE_NODE_SIZE] together, [update] returns a leaf that holds exactly
    these, sorted by [byPos] if the leaf was, with [size] their number and
    [length] the greatest of the old length and the ends of the added
    decorations.  It returns the receiver itself when nothing is added and
    nothing is dropped.  With a filter, the decorations of the result are
    those [update_spec] asks for. *)
Theorem update_small_leaf :
  forall fuel this decorations filter filterFrom filterTo n,
    DecorationSet.children this = [] ->
    DecorationSet.size this = len (DecorationSet.local this) ->
    len (kept_local (DecorationSet.local this) filter filterFrom filterTo 0)
      + len decorations <= BASE_NODE_SIZE ->
    exists set n',
      update (S fuel) this decorations filter filterFrom filterTo n = Ok set n'
      /\ DecorationSet.children set = []
      /\ Permutation (DecorationSet.local set)
           (kept_local (DecorationSet.local this) filter filterFrom filterTo 0
            ++ decorations)
      /\ (sorted_byPos (DecorationSet.local this) = true ->
          sorted_byPos (DecorationSet.local set) = true)
      /\ DecorationSet.size set = len (DecorationSet.local set)
      /\ DecorationSet.length set = maxLen this decorations
      /\ (decorations = [] ->
          kept_local (DecorationSet.local this) filter filterFrom filterTo 0
          = DecorationSet.local this ->
          set = this /\ n' = n)
      /\ (forall f, filter = Some f ->
          Permutation (positions set) (update_spec this decorations f filterFrom filterTo)).
Proof.
  intros fuel this decorations filter ff ft n Hleaf Hsize Hsmall.
  assert (Hspec : forall set f,
            DecorationSet.children set = [] ->
            Permutation (DecorationSet.local set)
              (kept_local (DecorationSet.local this) filter ff ft 0 ++ decorations) ->
            filter = Some f ->
            Permutation (positions set) (update_spec this decorations f ff ft)).
  { intros set f Hset Hperm ->. unfold positions, update_spec.
    rewrite !collect_unfold, Hset, Hleaf. cbn [collect_each app].
    rewrite !map_move_0. apply Permutation_map.
    eapply perm_trans; [exact Hperm |]. cbn [kept_local].
    apply Permutation_app_tail.
    erewrite filter_ext; [apply Permutation_refl |].
    intros d. unfold filter_keeps. cbn zeta. rewrite !Z.add_0_r, Z.gtb_ltb. reflexivity. }
  set (kept := kept_local (DecorationSet.local this) filter ff ft 0) in *.
  set (sorted := if nonempty decorations then JS.sort byPos decorations else decorations).
  assert (Hperm : Permutation sorted decorations).
  { unfold sorted. destruct (nonempty decorations);
      [apply sort_perm | apply Permutation_refl]. }
  assert (Hsorted : sorted_byPos sorted = true).
  { unfold sorted. destruct decorations; [reflexivity | apply sort_sorted]. }
  assert (Hlen : len sorted = len decorations).
  { unfold len. rewrite (Permutation_length Hperm). reflexivity. }
  unfold update, update_with. fold sorted.
  assert (Hsmall' : len (kept_local (DecorationSet.local this) filter ff ft 0) + len sorted
                    <= BASE_NODE_SIZE) by (fold kept; lia).
  rewrite (updateInner_leaf fuel this sorted filter ff ft 0 (maxLen this decorations) n
             Hleaf Hsmall').
  fold kept. change (- 0) with 0. rewrite map_move_0, Hlen.
  destruct (negb (is_some (filterDecorations (DecorationSet.local this) filter ff ft 0))
            && (0 =? len decorations)) eqn:Hsame.
  - apply Bool.andb_true_iff in Hsame as [Hnone Hempty].
    apply Z.eqb_eq in Hempty.
    assert (decorations = []) by (destruct decorations; [reflexivity | discriminate]).
    subst decorations.
    assert (Hkept : kept = DecorationSet.local this).
    { unfold kept. rewrite <- or_filterDecorations.
      destruct (filterDecorations (DecorationSet.local this) filter ff ft 0);
        [discriminate | reflexivity]. }
    exists this, n.
    split; [reflexivity |]. split; [exact Hleaf |].
    split; [rewrite Hkept, app_nil_r; apply Permutation_refl |].
    split; [auto |]. split; [exact Hsize |]. split; [reflexivity |].
    split; [auto |].
    intros f Hf. apply Hspec; [exact Hleaf | | exact Hf].
    fold kept. rewrite Hkept, app_nil_r. apply Permutation_refl.
  - eexists. eexists. split; [reflexivity |].
    cbn [DecorationSet.children DecorationSet.local DecorationSet.size DecorationSet.length].
    assert (Hlocal : Permutation
              (if (len kept >? 0) && (len decorations >? 0)
               then JS.sort byPos (kept ++ sorted) else kept ++ sorted)
              (kept ++ decorations)).
    { destruct ((len kept >? 0) && (len decorations >? 0)).
      - eapply perm_trans; [apply sort_perm |]. apply Permutation_app_head. exact Hperm.
      - apply Permutation_app_head. exact Hperm. }
    split; [reflexivity |]. split; [| split; [| split; [| split; [| split]]]].
    + destruct ((len kept >? 0) && (len decorations >? 0)).
      * eapply perm_trans; [apply sort_perm |]. apply Permutation_app_head. exact Hperm.
      * apply Permutation_app_head. exact Hperm.
    + intros Hs.
      destruct (len kept >? 0) eqn:Hk; [destruct (len decorations >? 0) eqn:Hd |]; cbn [andb].
      * apply sort_sorted.
      * apply len_nil_iff in Hd. subst decorations. unfold sorted. simpl.
        rewrite app_nil_r. apply kept_local_sorted. exact Hs.
      * apply len_nil_iff in Hk. rewrite Hk. exact Hsorted.
    + reflexivity.
    + reflexivity.
    + intros Hd Hk. exfalso. subst decorations.
      apply Bool.andb_false_iff in Hsame as [Hf | Hf]; [| discriminate].
      apply Bool.negb_false_iff in Hf.
      destruct filter as [f |]; [| discriminate].
      rewrite filterDecorations_some in Hf. unfold kept, kept_local in Hk.
      rewrite (filter_id_forallb _ _ Hk) in Hf. discriminate.
    + intros f Hf. apply Hspec; [reflexivity | exact Hlocal | exact Hf].
Qed.

Lemma update_small_leaf_witness :
  exists set n',
    update 1 line_leaf [Decoration.mk 1 7 (RangeDesc 20 (attr "b"))]
      (Some (fun from _ _ => from >=? 5)) 0 20 30%N = Ok set n'
    /\ DecorationSet.children set = []
    /\ Permutation (DecorationSet.local set)
         (kept_local (DecorationSet.local line_leaf) (Some (fun from _ _ => from >=? 5)) 0 20 0
          ++ [Decoration.mk 1 7 (RangeDesc 20 (attr "b"))])
    /\ (sorted_byPos (DecorationSet.local line_leaf) = true ->
        sorted_byPos (DecorationSet.local set) = true)
    /\ DecorationSet.size set = len (DecorationSet.local set)
    /\ DecorationSet.length set
       = maxLen line_leaf [Decoration.mk 1 7 (RangeDesc 20 (attr "b"))]
    /\ ([Decoration.mk 1 7 (RangeDesc 20 (attr "b"))] = [] ->
        kept_local (DecorationSet.local line_leaf) (Some (fun from _ _ => from >=? 5)) 0 20 0
        = DecorationSet.local line_leaf ->
        set = line_leaf /\ n' = 30%N)
    /\ (forall f, Some (fun from _ _ => from >=? 5) = Some f ->
        Permutation (positions set)
          (update_spec line_leaf [Decoration.mk 1 7 (RangeDesc 20 (attr "b"))] f 0 20)).
Proof.
  apply (update_small_leaf 0 line_leaf [Decoration.mk 1 7 (RangeDesc 20 (attr "b"))]
           (Some (fun from _ _ => from >=? 5)) 0 20 30%N);
    [reflexivity | reflexivity | vm_compute; discriminate].
Defined.

(* ------------------------------------------------------------------ *)
(** ** DecorationSet.of (l.335-340) *)

(** X13.  [DecorationSet.of([])] is [DecorationSet.empty].  For at most
    [BASE_NODE_SIZE] decorations, [DecorationSet.of] returns one new leaf
    that holds them sorted by [byPos], with [size] their number and [length]
    the greatest end (at least 0). *)
Theorem of_small_is_sorted_leaf :
  forall fuel decorations n,
    len decorations <= BASE_NODE_SIZE ->
    set_of (S fuel) [] n = Ok DecorationSet.empty n
    /\ (decorations <> [] ->
        set_of (S fuel) decorations n
        = Ok (DecorationSet.mk n (maxLen DecorationSet.empty decorations) (len decorations)
                (JS.sort byPos decorations) [])
             (N.succ n))
    /\ sorted_byPos (JS.sort byPos decorations) = true
    /\ Permutation (JS.sort byPos decorations) decorations.
Proof.
  intros fuel decorations n Hsmall.
  split; [reflexivity |]. split; [| split; [apply sort_sorted | apply sort_perm]].
  intros Hne. destruct decorations as [| d rest]; [contradiction |].
  unfold set_of, update_default, update, update_with. cbn [nonempty].
  assert (Hlen : len (JS.sort byPos (d :: rest)) = len (d :: rest)).
  { unfold len. rewrite (Permutation_length (sort_perm byPos (d :: rest))). reflexivity. }
  rewrite updateInner_leaf; [| reflexivity | cbn [kept_local DecorationSet.local
                                                   DecorationSet.empty]; rewrite Hlen;
                                             unfold len at 1; simpl List.length; lia].
  cbn [DecorationSet.local DecorationSet.empty kept_local filterDecorations is_some negb andb
       app].
  rewrite Hlen.
  destruct (Z.eqb_spec 0 (len (d :: rest))) as [Hz | _].
  { unfold len in Hz. simpl List.length in Hz. lia. }
  change (- 0) with 0. rewrite map_move_0.
  change (len (@nil Decoration.t) >? 0) with false. cbn [andb].
  rewrite Hlen. reflexivity.
Qed.

Lemma of_small_is_sorted_leaf_witness :
  let ds := [Decoration.mk 8 11 (RangeDesc 13 (attr "a"));
             Decoration.mk 2 4 (RangeDesc 10 (attr "a"))] in
  set_of 1 [] 5%N = Ok DecorationSet.empty 5%N
  /\ (ds <> [] ->
      set_of 1 ds 5%N
      = Ok (DecorationSet.mk 5 (maxLen DecorationSet.empty ds) (len ds)
              (JS.sort byPos ds) [])
           (N.succ 5))
  /\ sorted_byPos (JS.sort byPos ds) = true
  /\ Permutation (JS.sort byPos ds) ds.
Proof.
  apply (of_small_is_sorted_leaf 0
           [Decoration.mk 8 11 (RangeDesc 13 (attr "a"));
            Decoration.mk 2 4 (RangeDesc 10 (attr "a"))] 5%N).
  vm_compute. discriminate.
Defined.

(* ------------------------------------------------------------------ *)
(** ** map (l.251-319) *)

Lemma mapInner_length :
  forall fuel this cs oldStart newStart newEnd n set escaped n',
    mapInner fuel this cs oldStart newStart newEnd n = Ok (set, escaped) n' ->
    DecorationSet.length set = newEnd - newStart.
Proof.
  intros fuel this cs oldStart newStart newEnd n set escaped n' Hrun.
  destruct fuel as [| fuel]; [discriminate |].
  cbn [mapInner] in Hrun. unfold mapInner_body in Hrun.
  destruct (mapInner_local (DecorationSet.local this) cs oldStart newStart
              (newEnd - newStart) 0 (DecorationSet.local this) None None)
    as [newLocal esc].
  unfold bind in Hrun.
  destruct (mapInner_children (mapInner fuel) this cs newStart (newEnd - newStart) 0
              (DecorationSet.children this)
              (mkMapChildren newLocal esc None 0 oldStart newStart) n)
    as [st n1 |]; [| discriminate].
  destruct ((newEnd - newStart =? DecorationSet.length this)
            && negb (is_some (m_newChildren st)) && negb (is_some (m_newLocal st)))
    eqn:Hsame.
  - cbv [ret] in Hrun. inversion Hrun; subst.
    apply Bool.andb_true_iff in Hsame as [Hsame _].
    apply Bool.andb_true_iff in Hsame as [Hsame _].
    apply Z.eqb_eq in Hsame. lia.
  - cbv [DecorationSet.new bind alloc ret] in Hrun. inversion Hrun; subst. reflexivity.
Qed.

(** X14.  [map] returns, and does not throw.  With no change, or on
    [DecorationSet.empty], it returns the receiver; otherwise the set it
    returns has for [length] the old length mapped through the changes with
    association 1. *)
Theorem map_covers_mapped_length :
  forall fuel this cs n,
    (DecorationSet.depth this <= fuel)%nat ->
    exists set n',
      map fuel this cs n = Ok set n'
      /\ (cs = [] \/ DecorationSet.same this DecorationSet.empty = true ->
          set = this /\ n' = n)
      /\ (cs <> [] -> DecorationSet.same this DecorationSet.empty = false ->
          DecorationSet.length set = mapPos (DecorationSet.length this) cs 1 false).
Proof.
  intros fuel this cs n Hdepth. unfold map.
  destruct (negb (nonempty cs) || DecorationSet.same this DecorationSet.empty) eqn:Hskip.
  - exists this, n. split; [reflexivity |]. split; [auto |].
    intros Hcs Hsame. rewrite Hsame, Bool.orb_false_r in Hskip.
    destruct cs; [contradiction | discriminate].
  - apply Bool.orb_false_iff in Hskip as [Hcs Hsame].
    destruct (mapInner_total fuel this cs 0 0
                (mapPos (DecorationSet.length this) cs 1 false) n Hdepth)
      as [[set escaped] [n' Hrun]].
    exists set, n'. unfold bind. rewrite Hrun. split; [reflexivity |]. split.
    + intros [-> | Hs]; [discriminate | congruence].
    + intros _ _. rewrite (mapInner_length _ _ _ _ _ _ _ _ _ _ Hrun). lia.
Qed.

Lemma map_covers_mapped_length_witness :
  exists set n',
    map 2 twoLeaves [insertion 8 2] 4%N = Ok set n'
    /\ ([insertion 8 2] = [] \/ DecorationSet.same twoLeaves DecorationSet.empty = true ->
        set = twoLeaves /\ n' = 4%N)
    /\ ([insertion 8 2] <> [] -> DecorationSet.same twoLeaves DecorationSet.empty = false ->
        DecorationSet.length set = mapPos (DecorationSet.length twoLeaves) [insertion 8 2] 1 false).
Proof.
  apply (map_covers_mapped_length 2 twoLeaves [insertion 8 2] 4%N). simpl. lia.
Defined.

Lemma mapInner_local_some :
  forall tl cs os ns nl rest i l escaped,
    fst (mapInner_local tl cs os ns nl i rest (Some l) escaped)
    = Some (l ++ flat_map (mapped_inside cs os ns nl) rest).
Proof.
  intros tl cs os ns nl rest. induction rest as [| d rest IH]; intros i l escaped.
  - simpl. rewrite app_nil_r. reflexivity.
  - cbn [mapInner_local flat_map is_some negb andb].
    assert (Hd : mapped_inside cs os ns nl d
                 = match Decoration.map d cs os ns with
                   | Some m =>
                       if (Decoration.from m <? 0) || (Decoration.to m >? nl)
                       then [] else [m]
                   | None => []
                   end) by reflexivity.
    destruct (Decoration.map d cs os ns) as [m |].
    + destruct ((Decoration.from m <? 0) || (Decoration.to m >? nl)).
      * rewrite IH, Hd. reflexivity.
      * cbn [option_map]. rewrite IH, Hd, <- app_assoc. reflexivity.
    + rewrite IH, Hd. reflexivity.
Qed.

Lemma mapInner_local_start :
  forall tl cs os ns nl d rest escaped,
    mapInner_local tl cs os ns nl 0 (d :: rest) None escaped
    = mapInner_local tl cs os ns nl 0 (d :: rest) (Some []) escaped.
Proof. reflexivity. Qed.

(** X15.  On a leaf that holds decorations, [map] returns a new leaf whose
    decorations are, in order, the images by [Decoration.map] of the old
    ones, without those that have no image and those whose image falls
    outside [0, length] of the mapped set; [size] is their number. *)
Theorem map_leaf :
  forall fuel this cs n,
    DecorationSet.children this = [] ->
    DecorationSet.local this <> [] ->
    DecorationSet.same this DecorationSet.empty = false ->
    cs <> [] ->
    let newLength := mapPos (DecorationSet.length this) cs 1 false in
    let kept := flat_map (mapped_inside cs 0 0 newLength) (DecorationSet.local this) in
    map (S fuel) this cs n
    = Ok (DecorationSet.mk n newLength (len kept) kept []) (N.succ n).
Proof.
  intros fuel this cs n Hleaf Hlocal Hsame Hcs newLength kept.
  unfold map. rewrite Hsame.
  destruct cs as [| c cs']; [contradiction |]. cbn [nonempty negb orb].
  fold newLength. cbn [mapInner]. unfold mapInner_body. rewrite Hleaf.
  rewrite Z.sub_0_r.
  destruct (DecorationSet.local this) as [| d rest] eqn:Hl; [contradiction |].
  rewrite mapInner_local_start.
  pose proof (mapInner_local_some (d :: rest) (c :: cs') 0 0 newLength (d :: rest) 0 [] None)
    as Hfst.
  destruct (mapInner_local (d :: rest) (c :: cs') 0 0 newLength 0 (d :: rest) (Some []) None)
    as [newLocal escaped].
  cbn [fst app] in Hfst. subst newLocal.
  cbn [mapInner_children]. cbv [bind ret].
  cbn [m_newLocal m_newChildren m_newSize m_escaped is_some negb or_].
  rewrite Bool.andb_false_r.
  cbv [DecorationSet.new bind alloc ret]. reflexivity.
Qed.

Lemma map_leaf_witness :
  let newLength := mapPos (DecorationSet.length line_leaf) [insertion 8 2] 1 false in
  let kept := flat_map (mapped_inside [insertion 8 2] 0 0 newLength)
                (DecorationSet.local line_leaf) in
  map 1 line_leaf [insertion 8 2] 30%N
  = Ok (DecorationSet.mk 30 newLength (len kept) kept []) (N.succ 30).
Proof.
  apply (map_leaf 0 line_leaf [insertion 8 2] 30%N);
    [reflexivity | discriminate | reflexivity | discriminate].
Defined.

(* ------------------------------------------------------------------ *)
(** ** Joining two small leaves (l.572-580) *)

Lemma shl_1_small : forall x, 0 <= x < 2 ^ 30 -> JS.shl x 1 = 2 * x.
Proof.
  intros x Hx. unfold JS.shl.
  rewrite (toInt32_small x) by lia.
  rewrite Z.shiftl_mul_pow2 by lia.
  rewrite toInt32_small by lia. lia.
Qed.

Lemma splice_two :
  forall {A} (l1 l2 : list A) x y z,
    JS.splice (List.length l1) 2 [z] (l1 ++ x :: y :: l2) = l1 ++ z :: l2.
Proof.
  intros A l1 l2 x y z. unfold JS.splice.
  rewrite firstn_app, firstn_all, Nat.sub_diag. simpl firstn. rewrite app_nil_r.
  f_equal. simpl app. f_equal.
  rewrite skipn_app, skipn_all2 by lia. simpl app.
  replace (List.length l1 + 2 - List.length l1)%nat with 2%nat by lia. reflexivity.
Qed.

(** X16.  In [rebalanceChildren] with a [childSize] of at least
    [BASE_NODE_SIZE] (and below 2^30), a leaf that holds decorations and is
    followed by a leaf, the two holding at most [BASE_NODE_SIZE] decorations
    together, is replaced with its neighbour by one new leaf.  The index is
    unchanged and [off] moves on by the two lengths.  The array covers the
    same total length, and collecting from the new leaf gives what collecting
    from the first and then from the second, offset by the length of the
    first, gives. *)
Theorem rebalance_joins_small_leaves :
  forall (rec : UpdateInner) (childSize : Z) (st : Rebalance)
         (before after : list DecorationSet.t) (child next : DecorationSet.t) (n : N),
    rb_children st = before ++ child :: next :: after ->
    rb_i st = len before ->
    DecorationSet.children child = [] ->
    DecorationSet.children next = [] ->
    0 < DecorationSet.size child ->
    0 <= DecorationSet.size next ->
    DecorationSet.size next + DecorationSet.size child <= BASE_NODE_SIZE ->
    BASE_NODE_SIZE <= childSize < 2 ^ 30 ->
    let joined :=
      DecorationSet.mk n
        (DecorationSet.length child + DecorationSet.length next)
        (DecorationSet.size child + DecorationSet.size next)
        (DecorationSet.local child
         ++ List.map (fun d => Decoration.move d (DecorationSet.length child))
                     (DecorationSet.local next))
        [] in
    rebalance_step rec childSize st n
    = Ok (mkRebalance (rb_local st) (rb_detached st) (before ++ joined :: after)
            (rb_i st) (rb_off st + (DecorationSet.length child + DecorationSet.length next)))
         (N.succ n)
    /\ total_length (before ++ joined :: after) = total_length (rb_children st)
    /\ forall target offset,
         DecorationSet.collect joined target offset
         = DecorationSet.collect next (DecorationSet.collect child target offset)
             (offset + DecorationSet.length child).
Proof.
  intros rec childSize st before after child next n
    Hchildren Hi Hleaf Hleaf' Hsize Hsize' Hsmall HchildSize joined.
  split; [| split].
  - unfold rebalance_step. rewrite Hchildren, Hi.
    assert (Hto : Z.to_nat (len before) = List.length before)
      by (unfold len; apply Nat2Z.id).
    rewrite !Hto, nth_error_middle.
    assert (Hneg : (len before <? 0) = false) by (apply Z.ltb_ge; unfold len; lia).
    rewrite Hneg.
    assert (Hnonzero : (DecorationSet.size child =? 0) = false) by (apply Z.eqb_neq; lia).
    rewrite Hnonzero. cbn [andb].
    assert (Hbase : BASE_NODE_SIZE = 32) by reflexivity.
    assert (Hnot_big : (DecorationSet.size child >? JS.shl childSize 1) = false).
    { rewrite shl_1_small by lia.
      destruct (Z.gtb_spec (DecorationSet.size child) (2 * childSize)); [| reflexivity].
      lia. }
    rewrite Hnot_big. cbn [andb].
    rewrite Hleaf. cbn [nonempty negb andb].
    assert (Hnext_lt : (len before
                        <? len (before ++ child :: next :: after) - 1) = true).
    { apply Z.ltb_lt. unfold len. rewrite length_app. simpl List.length. lia. }
    rewrite Hnext_lt.
    assert (Hnext : nth_error (before ++ child :: next :: after) (S (List.length before))
                    = Some next).
    { replace (before ++ child :: next :: after) with ((before ++ [child]) ++ next :: after)
        by (rewrite <- app_assoc; reflexivity).
      replace (S (List.length before)) with (List.length (before ++ [child]))
        by (rewrite length_app; simpl; lia).
      apply nth_error_middle. }
    rewrite Hnext.
    assert (Hfits : (DecorationSet.size next + DecorationSet.size child <=? BASE_NODE_SIZE)
                    = true) by (apply Z.leb_le; lia).
    rewrite Hfits, Hleaf'. cbn [nonempty negb andb].
    cbv [DecorationSet.new bind alloc ret]. rewrite splice_two. reflexivity.
  - rewrite Hchildren, !total_length_app. simpl. lia.
  - intros target offset. rewrite !collect_unfold. subst joined.
    cbn [DecorationSet.children DecorationSet.local]. rewrite Hleaf, Hleaf'.
    simpl. rewrite map_app, map_map, <- app_assoc. do 2 f_equal.
    apply map_ext. intros d. rewrite move_move. f_equal. lia.
Qed.

Lemma rebalance_joins_small_leaves_witness :
  let child := DecorationSet.mk 1 5 1 [Decoration.mk 1 2 (RangeDesc 10 plainSpec)] [] in
  let next := DecorationSet.mk 2 5 1 [Decoration.mk 1 2 (RangeDesc 11 plainSpec)] [] in
  let st := mkRebalance [] false [child; next] 0 0 in
  let joined :=
    DecorationSet.mk 7
      (DecorationSet.length child + DecorationSet.length next)
      (DecorationSet.size child + DecorationSet.size next)
      (DecorationSet.local child
       ++ List.map (fun d => Decoration.move d (DecorationSet.length child))
                   (DecorationSet.local next))
      [] in
  rebalance_step (updateInner 1) 32 st 7%N
  = Ok (mkRebalance (rb_local st) (rb_detached st) ([] ++ joined :: [])
          (rb_i st) (rb_off st + (DecorationSet.length child + DecorationSet.length next)))
       (N.succ 7)
  /\ total_length ([] ++ joined :: []) = total_length (rb_children st)
  /\ forall target offset,
       DecorationSet.collect joined target offset
       = DecorationSet.collect next (DecorationSet.collect child target offset)
           (offset + DecorationSet.length child).
Proof.
  apply (rebalance_joins_small_leaves (updateInner 1) 32
           (mkRebalance [] false (DecorationSet.children twoLeaves) 0 0) [] []
           (DecorationSet.mk 1 5 1 [Decoration.mk 1 2 (RangeDesc 10 plainSpec)] [])
           (DecorationSet.mk 2 5 1 [Decoration.mk 1 2 (RangeDesc 11 plainSpec)] [])
           7%N);
    try reflexivity; simpl; try lia.
  - vm_compute. discriminate.
  - split; vm_compute; [discriminate | reflexivity].
Defined.

(* ------------------------------------------------------------------ *)
(** ** Tree traversal (l.371-387) *)

Lemma pop_Some :
  forall {A} (stack below : list A) top,
    JS.pop stack = (below, Some top) -> stack = below ++ [top].
Proof.
  intros A stack below top H.
  destruct stack as [| x init _] using rev_ind; [discriminate |].
  rewrite pop_snoc in H. inversion H; subst. reflexivity.
Qed.

Lemma pop_None :
  forall {A} (stack below : list A), JS.pop stack = (below, None) -> stack = [].
Proof.
  intros A stack below H.
  destruct stack as [| x init _] using rev_ind; [reflexivity |].
  rewrite pop_snoc in H. discriminate.
Qed.

Lemma stack_work_app :
  forall s1 s2, stack_work (s1 ++ s2) = (stack_work s1 + stack_work s2)%nat.
Proof.
  intros s1 s2. unfold stack_work.
  induction s1 as [| e s1 IH]; cbn [fold_right app]; [reflexivity |].
  rewrite IH. lia.
Qed.

(** X17.  On a stack none of whose entries is past the children of its node,
    [iterDecorationSet(stack, skipTo)] returns, and leaves the stack empty or
    with a new entry on top: an unvisited child of the entry below it, which
    is the child that entry just moved past, starting where it started and
    ending at or after [skipTo]. *)
Theorem iterDecorationSet_next_subtree :
  forall fuel stack skipTo n,
    indices_ok stack -> (stack_work stack <= fuel)%nat ->
    exists stack',
      iterDecorationSet fuel stack skipTo n = Ok stack' n
      /\ (stack' = []
          \/ exists below parent top i,
               stack' = below ++ [parent; top]
               /\ it_index top = O
               /\ it_index parent = S i
               /\ nth_error (DecorationSet.children (it_set parent)) i = Some (it_set top)
               /\ it_offset top + DecorationSet.length (it_set top) = it_offset parent
               /\ skipTo <= it_offset parent).
Proof.
  intros fuel; induction fuel as [| fuel IH]; intros stack skipTo n Hidx Hwork.
  - destruct stack as [| e stack]; [| simpl in Hwork; lia].
    exists []. split; [reflexivity | left; reflexivity].
  - cbn [iterDecorationSet].
    destruct (JS.pop stack) as [below [top |]] eqn:Hpop.
    2: { apply pop_None in Hpop. subst. exists []. split; [reflexivity | left; reflexivity]. }
    apply pop_Some in Hpop. subst stack.
    rewrite stack_work_app in Hwork. simpl in Hwork.
    apply Forall_app in Hidx as [Hbelow Htop]. inversion Htop as [| ? ? Hle _]; subst.
    destruct (Nat.eqb_spec (it_index top) (List.length (DecorationSet.children (it_set top))))
      as [Heq | Hne].
    + apply IH; [exact Hbelow | lia].
    + destruct (nth_error (DecorationSet.children (it_set top)) (it_index top))
        as [next |] eqn:Hnext.
      2: { apply nth_error_None in Hnext. lia. }
      cbn [it_offset].
      destruct (Z.geb_spec (it_offset top + DecorationSet.length next) skipTo) as [Hge | Hlt].
      * eexists. split; [reflexivity |]. right.
        exists below, (mkIteratedSet (it_offset top + DecorationSet.length next)
                         (it_set top) (S (it_index top))),
          (mkIteratedSet (it_offset top) next 0), (it_index top).
        cbn [it_index it_set it_offset]. repeat split; [exact Hnext | lia].
      * apply IH.
        -- apply Forall_app. split; [exact Hbelow |]. constructor; [| constructor].
           cbn [it_index it_set]. lia.
        -- rewrite stack_work_app. simpl. lia.
Qed.

Lemma iterDecorationSet_next_subtree_witness :
  exists stack',
    iterDecorationSet 4 [mkIteratedSet 0 twoLeaves 0] 7 1%N = Ok stack' 1%N
    /\ (stack' = []
        \/ exists below parent top i,
             stack' = below ++ [parent; top]
             /\ it_index top = O
             /\ it_index parent = S i
             /\ nth_error (DecorationSet.children (it_set parent)) i = Some (it_set top)
             /\ it_offset top + DecorationSet.length (it_set top) = it_offset parent
             /\ 7 <= it_offset parent).
Proof.
  apply (iterDecorationSet_next_subtree 4 [mkIteratedSet 0 twoLeaves 0] 7 1%N).
  - repeat constructor; simpl; lia.
  - simpl. lia.
Defined.

(* ------------------------------------------------------------------ *)
(** ** buildLineElements (l.389-453) *)

Lemma addToHeap_Forall :
  forall {A} `{Heapable A} (P : A -> Prop) (heap : list A) elt,
    P elt -> Forall P heap -> Forall P (addToHeap heap elt).
Proof.
  intros A HA P heap elt He Hheap.
  eapply Permutation_Forall; [symmetry; apply addToHeap_perm |].
  constructor; assumption.
Qed.

Lemma takeFromHeap_Forall :
  forall {A} `{Heapable A} (P : A -> Prop) (heap : list A) elt heap',
    takeFromHeap heap = (Some elt, heap') ->
    Forall P heap -> P elt /\ Forall P heap'.
Proof.
  intros A HA P heap elt heap' Htake Hall.
  destruct heap as [| e rest]; [discriminate |].
  destruct (takeFromHeap_cons e rest) as [h [Hh Hperm]].
  rewrite Hh in Htake. inversion Htake; subst.
  inversion Hall; subst. split; [assumption |].
  eapply Permutation_Forall; [symmetry; exact Hperm | assumption].
Qed.

Lemma addIterToHeap_cursors :
  forall fuel heap stack skipTo n heap' n',
    addIterToHeap fuel heap stack skipTo n = Ok heap' n' ->
    Forall is_cursor heap -> Forall is_cursor heap'.
Proof.
  intros fuel; induction fuel as [| fuel IH]; intros heap stack skipTo n heap' n' Hrun Hall;
    [discriminate |].
  cbn [addIterToHeap] in Hrun. unfold bind in Hrun.
  destruct (iterDecorationSet fuel stack skipTo n) as [stack' n1 |]; [| discriminate].
  destruct (top_of stack') as [next |]; [| inversion Hrun; subst; exact Hall].
  match type of Hrun with
  | (if _ then _ else addIterToHeap _ ?h _ _) _ = _ =>
      assert (Hh : Forall is_cursor h)
  end.
  { destruct (nonempty (DecorationSet.local (it_set next))); [| exact Hall].
    apply addToHeap_Forall; [exact I | exact Hall]. }
  destruct (is_some _) in Hrun.
  - inversion Hrun; subst. exact Hh.
  - eapply IH; eassumption.
Qed.

Lemma buildLineElements_heap_cursors :
  forall fuel sets from heap0 n heap n',
    foldM (fun heap set =>
             if DecorationSet.size set >? 0 then
               heap <- addIterToHeap fuel heap [mkIteratedSet 0 set 0] from ;;
               ret (if nonempty (DecorationSet.local set)
                    then addToHeap heap
                           (LineCursor (mkLineLocalSet 0 (DecorationSet.local set) 0 None))
                    else heap)
             else ret heap)
          sets heap0 n = Ok heap n' ->
    Forall is_cursor heap0 -> Forall is_cursor heap.
Proof.
  intros fuel sets from. induction sets as [| set rest IH]; intros heap0 n heap n' Hrun Hall.
  - inversion Hrun; subst. exact Hall.
  - cbn [foldM] in Hrun. unfold bind at 1 in Hrun.
    destruct (DecorationSet.size set >? 0).
    + unfold bind at 1 in Hrun.
      destruct (addIterToHeap fuel heap0 [mkIteratedSet 0 set 0] from n) as [h n1 |] eqn:Hadd;
        [| discriminate].
      apply addIterToHeap_cursors in Hadd; [| exact Hall].
      cbv [ret] in Hrun. eapply IH; [exact Hrun |].
      destruct (nonempty (DecorationSet.local set)); [| exact Hadd].
      apply addToHeap_Forall; [exact I | exact Hadd].
    + cbv [ret] in Hrun. eapply IH; eassumption.
Qed.

Lemma visit_heightOnly :
  forall heap from to builder deco offset heap' from' builder',
    buildLineElements_visit heap from to true builder deco offset = (heap', from', builder') ->
    heap' = heap /\ lb_active builder' = lb_active builder.
Proof.
  intros heap from to builder deco offset heap' from' builder' Hv.
  unfold buildLineElements_visit in Hv.
  destruct (Decoration.to deco + offset >=? from); [| inversion Hv; auto].
  destruct (Decoration.desc deco) as [did spec | did spec].
  - destruct (truthy_collapsed (collapsed spec)); [| inversion Hv; auto].
    inversion Hv; subst. split; [reflexivity |].
    destruct (collapsed spec); reflexivity.
  - destruct (widget spec) as [w |]; [| inversion Hv; auto].
    destruct (WidgetType.estimatedHeight w >? -1); inversion Hv; auto.
Qed.

Lemma buildLineElements_loop_heightOnly :
  forall fuel heap from to builder n builder' n',
    buildLineElements_loop fuel heap from to true builder n = Ok builder' n' ->
    Forall is_cursor heap -> lb_active builder' = lb_active builder.
Proof.
  intros fuel; induction fuel as [| fuel IH];
    intros heap from to builder n builder' n' Hrun Hall.
  - destruct heap; [inversion Hrun; reflexivity | discriminate].
  - destruct heap as [| e rest]; [inversion Hrun; reflexivity |].
    cbn [buildLineElements_loop] in Hrun.
    destruct (takeFromHeap (e :: rest)) as [[[next | deco] |] heap1] eqn:Htake.
    + apply (takeFromHeap_Forall is_cursor) in Htake as [_ Hheap1]; [| exact Hall].
      destruct (nth_error (ll_decorations next) (ll_index next)) as [deco |];
        [| discriminate].
      destruct (Decoration.from deco + ll_offset next >? to);
        [inversion Hrun; reflexivity |].
      destruct (buildLineElements_visit heap1 from to true builder deco (ll_offset next))
        as [[heap2 from2] builder2] eqn:Hvisit.
      apply visit_heightOnly in Hvisit as [-> Hactive].
      rewrite <- Hactive. cbn [ll_index ll_decorations ll_next] in Hrun.
      destruct (S (ll_index next) <? List.length (ll_decorations next))%nat.
      * eapply IH; [exact Hrun |]. apply addToHeap_Forall; [exact I | exact Hheap1].
      * destruct (ll_next next) as [stack |].
        -- unfold bind in Hrun.
           destruct (addIterToHeap fuel heap1 stack from2 n) as [heap3 n1 |] eqn:Hadd;
             [| discriminate].
           eapply IH; [exact Hrun |].
           eapply addIterToHeap_cursors; eassumption.
        -- eapply IH; eassumption.
    + apply (takeFromHeap_Forall is_cursor) in Htake as [[] _]. exact Hall.
    + discriminate.
Qed.

(** The heap the first loop of [buildLineElements] leaves when no set holds
    a decoration. *)
Lemma buildLineElements_heap_empty :
  forall fuel sets from n,
    Forall (fun set => DecorationSet.size set <= 0) sets ->
    buildLineElements_heap fuel sets from n = Ok [] n.
Proof.
  intros fuel sets from n Hsets. unfold buildLineElements_heap.
  induction Hsets as [| set rest Hset _ IH]; [reflexivity |].
  cbn [foldM]. unfold bind at 1.
  destruct (Z.gtb_spec (DecorationSet.size set) 0) as [Hgt | _]; [lia |].
  cbv [ret]. exact IH.
Qed.

(** X18.  When no set holds a decoration ([size] is not positive for each, or
    there is no set), [buildLineElements] calls [builder.advance(to)] and
    nothing else, and leaves [builder.active] as it was. *)
Theorem buildLineElements_no_decorations :
  forall fuel sets from to builder heightOnly n,
    Forall (fun set => DecorationSet.size set <= 0) sets ->
    buildLineElements fuel sets from to builder heightOnly n
    = Ok (mkLineBuilder (lb_calls builder ++ [Advance to]) (lb_active builder)) n.
Proof.
  intros fuel sets from to builder heightOnly n Hsets.
  unfold buildLineElements, bind.
  rewrite (buildLineElements_heap_empty fuel sets from n Hsets).
  destruct fuel; reflexivity.
Qed.

Lemma buildLineElements_no_decorations_witness :
  buildLineElements 0 [DecorationSet.empty; emptyLeaf] 0 20 (mkLineBuilder [] []) false 1%N
  = Ok (mkLineBuilder ([] ++ [Advance 20]) []) 1%N.
Proof.
  apply (buildLineElements_no_decorations 0 [DecorationSet.empty; emptyLeaf] 0 20
           (mkLineBuilder [] []) false 1%N).
  repeat constructor; simpl; lia.
Defined.

(** X19.  With [heightOnly] set, [buildLineElements] leaves [builder.active]
    as it was. *)
Theorem buildLineElements_heightOnly_active :
  forall fuel sets from to builder n builder' n',
    buildLineElements fuel sets from to builder true n = Ok builder' n' ->
    lb_active builder' = lb_active builder.
Proof.
  intros fuel sets from to builder n builder' n' Hrun.
  unfold buildLineElements, bind in Hrun.
  destruct (buildLineElements_heap fuel sets from n) as [heap n1 |] eqn:Hheap; [| discriminate].
  destruct (buildLineElements_loop fuel heap from to true builder n1) as [b n2 |] eqn:Hloop;
    [| discriminate].
  inversion Hrun; subst. cbn [call lb_active].
  eapply buildLineElements_loop_heightOnly; [exact Hloop |].
  eapply buildLineElements_heap_cursors; [exact Hheap | constructor].
Qed.

Lemma buildLineElements_heightOnly_active_witness :
  lb_active (line_run [line_leaf] 0 20 true) = lb_active (mkLineBuilder [] []).
Proof.
  apply (buildLineElements_heightOnly_active 16 [line_leaf] 0 20 (mkLineBuilder [] []) 1%N
           (line_run [line_leaf] 0 20 true) 1%N).
  vm_compute. reflexivity.
Defined.

Lemma lengths_nonneg_unfold :
  forall this,
    lengths_nonneg this
    = (0 <=? DecorationSet.length this)
      && forallb lengths_nonneg (DecorationSet.children this).
Proof. intros [sid length size local children]. reflexivity. Qed.

Lemma lengths_nonneg_child :
  forall this i child,
    lengths_nonneg this = true ->
    nth_error (DecorationSet.children this) i = Some child ->
    0 <= DecorationSet.length child /\ lengths_nonneg child = true.
Proof.
  intros this i child Hok Hchild. rewrite lengths_nonneg_unfold in Hok.
  apply Bool.andb_true_iff in Hok as [_ Hall].
  rewrite forallb_forall in Hall. specialize (Hall child (nth_error_In _ _ Hchild)).
  split; [| exact Hall].
  rewrite lengths_nonneg_unfold in Hall. apply Bool.andb_true_iff in Hall as [Hlen _].
  apply Z.leb_le. exact Hlen.
Qed.

Lemma iterDecorationSet_stack_ok :
  forall fuel stack skipTo n stack' n',
    iterDecorationSet fuel stack skipTo n = Ok stack' n' ->
    stack_ok stack -> stack_ok stack'.
Proof.
  intros fuel; induction fuel as [| fuel IH]; intros stack skipTo n stack' n' Hrun Hok.
  - unfold iterDecorationSet in Hrun.
    destruct (JS.pop stack) as [below [top |]]; [discriminate |].
    inversion Hrun; subst. exact Hok.
  - cbn [iterDecorationSet] in Hrun.
    destruct (JS.pop stack) as [below [top |]] eqn:Hpop.
    2: { inversion Hrun; subst. exact Hok. }
    apply pop_Some in Hpop. subst stack.
    apply Forall_app in Hok as [Hbelow Htop]. inversion Htop as [| ? ? [Hoff Hset] _]; subst.
    destruct (it_index top =? List.length (DecorationSet.children (it_set top)))%nat.
    + eapply IH; eassumption.
    + destruct (nth_error (DecorationSet.children (it_set top)) (it_index top))
        as [next |] eqn:Hnext; [| discriminate].
      destruct (lengths_nonneg_child _ _ _ Hset Hnext) as [Hlen Hchild].
      cbn [it_offset] in Hrun.
      assert (Htop' : 0 <= it_offset top + DecorationSet.length next
                      /\ lengths_nonneg (it_set top) = true) by (split; [lia | exact Hset]).
      destruct (it_offset top + DecorationSet.length next >=? skipTo).
      * inversion Hrun; subst. apply Forall_app. split; [exact Hbelow |].
        constructor; [exact Htop' |]. constructor; [| constructor].
        split; assumption.
      * eapply IH; [exact Hrun |]. apply Forall_app. split; [exact Hbelow |].
        constructor; [exact Htop' | constructor].
Qed.

Lemma top_of_In :
  forall stack next, top_of stack = Some next -> In next stack.
Proof.
  intros stack next H. unfold top_of in H.
  destruct (JS.pop stack) as [below top] eqn:Hpop. simpl in H. subst top.
  apply pop_Some in Hpop. subst. apply in_or_app. right. left. reflexivity.
Qed.

Lemma addIterToHeap_ok :
  forall fuel heap stack skipTo n heap' n',
    addIterToHeap fuel heap stack skipTo n = Ok heap' n' ->
    stack_ok stack -> Forall elt_ok heap -> Forall elt_ok heap'.
Proof.
  intros fuel; induction fuel as [| fuel IH];
    intros heap stack skipTo n heap' n' Hrun Hstack Hall; [discriminate |].
  cbn [addIterToHeap] in Hrun. unfold bind in Hrun.
  destruct (iterDecorationSet fuel stack skipTo n) as [stack' n1 |] eqn:Hiter; [| discriminate].
  apply iterDecorationSet_stack_ok in Hiter; [| exact Hstack].
  destruct (top_of stack') as [next |] eqn:Htop; [| inversion Hrun; subst; exact Hall].
  pose proof (top_of_In _ _ Htop) as Hin.
  pose proof (proj1 (Forall_forall _ _) Hiter next Hin) as [Hoff _].
  match type of Hrun with
  | (if _ then _ else addIterToHeap _ ?h _ _) _ = _ =>
      assert (Hh : Forall elt_ok h)
  end.
  { destruct (nonempty (DecorationSet.local (it_set next))); [| exact Hall].
    apply addToHeap_Forall; [| exact Hall].
    split; [exact Hoff |]. cbn [ll_next].
    destruct (nonempty (DecorationSet.children (it_set next))); [exact I | exact Hiter]. }
  destruct (is_some _) in Hrun.
  - inversion Hrun; subst. exact Hh.
  - eapply IH; eassumption.
Qed.

Lemma buildLineElements_heap_ok :
  forall fuel sets from heap0 n heap n',
    foldM (fun heap set =>
             if DecorationSet.size set >? 0 then
               heap <- addIterToHeap fuel heap [mkIteratedSet 0 set 0] from ;;
               ret (if nonempty (DecorationSet.local set)
                    then addToHeap heap
                           (LineCursor (mkLineLocalSet 0 (DecorationSet.local set) 0 None))
                    else heap)
             else ret heap)
          sets heap0 n = Ok heap n' ->
    Forall (fun set => lengths_nonneg set = true) sets ->
    Forall elt_ok heap0 -> Forall elt_ok heap.
Proof.
  intros fuel sets from. induction sets as [| set rest IH];
    intros heap0 n heap n' Hrun Hsets Hall.
  - inversion Hrun; subst. exact Hall.
  - inversion Hsets as [| ? ? Hset Hrest]; subst.
    cbn [foldM] in Hrun. unfold bind at 1 in Hrun.
    destruct (DecorationSet.size set >? 0).
    + unfold bind at 1 in Hrun.
      destruct (addIterToHeap fuel heap0 [mkIteratedSet 0 set 0] from n) as [h n1 |] eqn:Hadd;
        [| discriminate].
      apply addIterToHeap_ok in Hadd; [| | exact Hall].
      2: { constructor; [| constructor]. split; [simpl; lia | exact Hset]. }
      cbv [ret] in Hrun. eapply IH; [exact Hrun | exact Hrest |].
      destruct (nonempty (DecorationSet.local set)); [| exact Hadd].
      apply addToHeap_Forall; [| exact Hadd]. split; [simpl; lia | exact I].
    + cbv [ret] in Hrun. eapply IH; eassumption.
Qed.

Lemma visit_within :
  forall heap from to heightOnly builder deco offset heap' from' builder',
    buildLineElements_visit heap from to heightOnly builder deco offset
    = (heap', from', builder') ->
    Decoration.from deco + offset <= to -> 0 <= offset ->
    Forall elt_ok heap ->
    Forall elt_ok heap'
    /\ exists mid, lb_calls builder' = lb_calls builder ++ mid
                   /\ Forall (call_within to) mid.
Proof.
  intros heap from to heightOnly builder deco offset heap' from' builder' Hv Hfrom Hoff Hall.
  assert (Hnone : Forall elt_ok heap
                  /\ exists mid, lb_calls builder = lb_calls builder ++ mid
                                 /\ Forall (call_within to) mid).
  { split; [exact Hall |]. exists []. rewrite app_nil_r. split; [reflexivity | constructor]. }
  unfold buildLineElements_visit in Hv.
  destruct (Decoration.to deco + offset >=? from); [| inversion Hv; subst; exact Hnone].
  destruct (Decoration.desc deco) as [did spec | did spec] eqn:Hdesc.
  - destruct (if heightOnly then truthy_collapsed (collapsed spec) else Desc.affectsSpans spec);
      [| inversion Hv; subst; exact Hnone].
    assert (Hmoved : Decoration.from (Decoration.move deco offset) <= to)
      by (rewrite move_unfold; simpl; exact Hfrom).
    destruct (truthy_collapsed (collapsed spec)).
    + inversion Hv; subst. split; [exact Hall |].
      destruct (collapsed spec) as [| bb | w]; cbn [call lb_calls].
      * eexists. rewrite <- app_assoc. split; [reflexivity |].
        repeat constructor; [exact Hmoved | apply Z.le_min_r].
      * eexists. rewrite <- app_assoc. split; [reflexivity |].
        repeat constructor; [exact Hmoved | apply Z.le_min_r].
      * eexists. rewrite <- !app_assoc. split; [reflexivity |].
        repeat constructor; [exact Hmoved | apply Z.le_min_r].
    + inversion Hv; subst. split.
      * apply addToHeap_Forall; [exact I | exact Hall].
      * cbn [call lb_calls]. eexists. split; [reflexivity |].
        repeat constructor. exact Hmoved.
  - destruct (widget spec) as [w |]; [| inversion Hv; subst; exact Hnone].
    destruct (if heightOnly then WidgetType.estimatedHeight w >? -1 else true);
      [| inversion Hv; subst; exact Hnone].
    inversion Hv; subst. split; [exact Hall |].
    cbn [call lb_calls]. eexists. rewrite <- app_assoc. split; [reflexivity |].
    repeat constructor. simpl. lia.
Qed.

Lemma buildLineElements_loop_within :
  forall fuel heap from to heightOnly builder n builder' n',
    buildLineElements_loop fuel heap from to heightOnly builder n = Ok builder' n' ->
    Forall elt_ok heap ->
    exists mid, lb_calls builder' = lb_calls builder ++ mid
                /\ Forall (call_within to) mid.
Proof.
  intros fuel; induction fuel as [| fuel IH];
    intros heap from to heightOnly builder n builder' n' Hrun Hall.
  - destruct heap; [| discriminate].
    inversion Hrun; subst. exists []. rewrite app_nil_r. split; [reflexivity | constructor].
  - assert (Hnone : forall b, b = builder' -> lb_calls builder = lb_calls b ->
                              exists mid, lb_calls builder' = lb_calls builder ++ mid
                                          /\ Forall (call_within to) mid).
    { intros b -> Heq. exists []. rewrite app_nil_r. split; [congruence | constructor]. }
    destruct heap as [| e rest]; [inversion Hrun; subst; eapply Hnone; reflexivity |].
    cbn [buildLineElements_loop] in Hrun.
    destruct (takeFromHeap (e :: rest)) as [[[next | deco] |] heap1] eqn:Htake.
    + apply (takeFromHeap_Forall elt_ok) in Htake as [[Hoff Hnext] Hheap1]; [| exact Hall].
      destruct (nth_error (ll_decorations next) (ll_index next)) as [deco |];
        [| discriminate].
      destruct (Z.gtb_spec (Decoration.from deco + ll_offset next) to) as [_ | Hle];
        [inversion Hrun; subst; eapply Hnone; reflexivity |].
      destruct (buildLineElements_visit heap1 from to heightOnly builder deco (ll_offset next))
        as [[heap2 from2] builder2] eqn:Hvisit.
      apply (visit_within _ _ _ _ _ _ _ _ _ _ Hvisit Hle Hoff) in Hheap1
        as [Hheap2 [mid1 [Hmid1 Hall1]]].
      cbn [ll_index ll_decorations ll_next ll_offset] in Hrun.
      assert (Hrest : forall h m, Forall elt_ok h ->
                  buildLineElements_loop fuel h from2 to heightOnly builder2 m
                  = Ok builder' n' ->
                  exists mid, lb_calls builder' = lb_calls builder ++ mid
                              /\ Forall (call_within to) mid).
      { intros h m Hh Hloop. destruct (IH _ _ _ _ _ _ _ _ Hloop Hh) as [mid2 [Hmid2 Hall2]].
        exists (mid1 ++ mid2). rewrite Hmid2, Hmid1, app_assoc.
        split; [reflexivity | apply Forall_app; split; assumption]. }
      destruct (S (ll_index next) <? List.length (ll_decorations next))%nat.
      * eapply Hrest; [| exact Hrun].
        apply addToHeap_Forall; [| exact Hheap2]. split; assumption.
      * destruct (ll_next next) as [stack |].
        -- unfold bind in Hrun.
           destruct (addIterToHeap fuel heap2 stack from2 n) as [heap3 n1 |] eqn:Hadd;
             [| discriminate].
           eapply Hrest; [| exact Hrun].
           eapply addIterToHeap_ok; eassumption.
        -- eapply Hrest; [exact Hheap2 | exact Hrun].
    + apply (takeFromHeap_Forall elt_ok) in Htake as [_ Hheap1]; [| exact Hall].
      destruct (Z.geb_spec (Decoration.to deco) to) as [_ | Hlt];
        [inversion Hrun; subst; eapply Hnone; reflexivity |].
      destruct (IH _ _ _ _ _ _ _ _ Hrun Hheap1) as [mid2 [Hmid2 Hall2]].
      cbn [call lb_calls] in Hmid2.
      exists (Advance (Decoration.to deco) :: mid2). rewrite Hmid2, <- app_assoc.
      split; [reflexivity |]. constructor; [simpl; lia | exact Hall2].
    + discriminate.
Qed.

(** X20.  Over sets whose nodes all have a length that is not negative, the
    calls [buildLineElements] makes on the builder end with [advance(to)],
    and no call of [advance] or [advanceCollapsed] before it is given a
    position after [to]. *)
Theorem buildLineElements_stays_within :
  forall fuel sets from to builder heightOnly n builder' n',
    Forall (fun set => lengths_nonneg set = true) sets ->
    buildLineElements fuel sets from to builder heightOnly n = Ok builder' n' ->
    exists mid,
      lb_calls builder' = lb_calls builder ++ mid ++ [Advance to]
      /\ Forall (call_within to) mid.
Proof.
  intros fuel sets from to builder heightOnly n builder' n' Hsets Hrun.
  unfold buildLineElements, bind in Hrun.
  destruct (buildLineElements_heap fuel sets from n) as [heap n1 |] eqn:Hheap; [| discriminate].
  destruct (buildLineElements_loop fuel heap from to heightOnly builder n1) as [b n2 |] eqn:Hloop;
    [| discriminate].
  inversion Hrun; subst. cbn [call lb_calls].
  apply buildLineElements_heap_ok in Hheap; [| exact Hsets | constructor].
  destruct (buildLineElements_loop_within _ _ _ _ _ _ _ _ _ Hloop Hheap) as [mid [Hmid Hall]].
  exists mid. rewrite Hmid, <- app_assoc. split; [reflexivity | exact Hall].
Qed.

Lemma buildLineElements_stays_within_witness :
  exists mid,
    lb_calls (line_run [line_leaf] 0 10 false) = [] ++ mid ++ [Advance 10]
    /\ Forall (call_within 10) mid.
Proof.
  apply (buildLineElements_stays_within 16 [line_leaf] 0 10 (mkLineBuilder [] []) false 1%N
           (line_run [line_leaf] 0 10 false) 1%N).
  - repeat constructor.
  - vm_compute. reflexivity.
Defined.

(** X21.  A leaf without decorations ends the traversal of its set: when the
    first child of a set is such a leaf and ends at or after [from], and the
    set holds no decorations of its own, [buildLineElements] calls
    [builder.advance(to)] and nothing else, whatever the children after
    that leaf hold. *)
Theorem buildLineElements_stops_at_empty_leaf :
  forall fuel sid length size leaf rest from to builder heightOnly n,
    DecorationSet.children leaf = [] ->
    DecorationSet.local leaf = [] ->
    from <= DecorationSet.length leaf ->
    0 < size ->
    buildLineElements (S (S fuel)) [DecorationSet.mk sid length size [] (leaf :: rest)]
      from to builder heightOnly n
    = Ok (mkLineBuilder (lb_calls builder ++ [Advance to]) (lb_active builder)) n.
Proof.
  intros fuel sid length size leaf rest from to builder heightOnly n
    Hchildren Hlocal Hfrom Hsize.
  unfold buildLineElements, buildLineElements_heap.
  cbn [foldM DecorationSet.size DecorationSet.local nonempty].
  destruct (Z.gtb_spec size 0) as [_ | Hle]; [| lia].
  cbn [addIterToHeap iterDecorationSet JS.pop removelast last List.map
       it_set it_index it_offset DecorationSet.children List.length Nat.eqb nth_error].
  destruct (Z.geb_spec (0 + DecorationSet.length leaf) from) as [_ | Hlt]; [| lia].
  cbv [bind ret]. cbn [app top_of JS.pop removelast last List.map snd it_set].
  rewrite Hchildren, Hlocal. reflexivity.
Qed.

Lemma buildLineElements_stops_at_empty_leaf_witness :
  buildLineElements 2 [DecorationSet.mk 2 25 4 [] [emptyLeaf; line_leaf]] 0 25
    (mkLineBuilder [] []) false 1%N
  = Ok (mkLineBuilder ([] ++ [Advance 25]) []) 1%N.
Proof.
  apply (buildLineElements_stops_at_empty_leaf 0 2 25 4 emptyLeaf [line_leaf] 0 25
           (mkLineBuilder [] []) false 1%N);
    [reflexivity | reflexivity | simpl; lia | lia].
Defined.

Lemma nodes_unfold :
  forall this, nodes this = S (list_sum (List.map nodes (DecorationSet.children this))).
Proof. intros [sid length size local children]. reflexivity. Qed.

Lemma decos_unfold :
  forall this,
    decos this
    = (List.length (DecorationSet.local this)
       + list_sum (List.map decos (DecorationSet.children this)))%nat.
Proof. intros [sid length size local children]. reflexivity. Qed.

Lemma skipn_nth_error :
  forall {A} (l : list A) i x, nth_error l i = Some x -> skipn i l = x :: skipn (S i) l.
Proof.
  intros A l. induction l as [| h t IH]; intros i x H; [destruct i; discriminate |].
  destruct i as [| i]; simpl in *; [inversion H; reflexivity | apply IH; exact H].
Qed.

Lemma list_sum_cons : forall x l, list_sum (x :: l) = (x + list_sum l)%nat.
Proof. reflexivity. Qed.

Lemma list_sum_Permutation :
  forall l l', Permutation l l' -> list_sum l = list_sum l'.
Proof.
  intros l l' HP. induction HP; simpl; lia.
Qed.

Lemma heap_weight_Permutation :
  forall heap heap', Permutation heap heap' -> heap_weight heap = heap_weight heap'.
Proof.
  intros heap heap' HP. unfold heap_weight.
  apply list_sum_Permutation. apply Permutation_map. exact HP.
Qed.

Lemma heap_weight_addToHeap :
  forall heap e, heap_weight (addToHeap heap e) = (elt_weight e + heap_weight heap)%nat.
Proof.
  intros heap e. rewrite (heap_weight_Permutation _ _ (addToHeap_perm heap e)). reflexivity.
Qed.

Lemma stack_steps_app :
  forall s1 s2, stack_steps (s1 ++ s2) = (stack_steps s1 + stack_steps s2)%nat.
Proof. intros s1 s2. unfold stack_steps. rewrite map_app, list_sum_app. reflexivity. Qed.

Lemma stack_decos_app :
  forall s1 s2, stack_decos (s1 ++ s2) = (stack_decos s1 + stack_decos s2)%nat.
Proof. intros s1 s2. unfold stack_decos. rewrite map_app, list_sum_app. reflexivity. Qed.

Lemma iterDecorationSet_progress :
  forall fuel stack skipTo n,
    indices_ok stack -> (stack_steps stack <= fuel)%nat ->
    exists stack',
      iterDecorationSet fuel stack skipTo n = Ok stack' n
      /\ indices_ok stack'
      /\ match top_of stack' with
         | Some next =>
             (stack_steps stack' < stack_steps stack)%nat
             /\ (stack_decos stack' + List.length (DecorationSet.local (it_set next))
                 <= stack_decos stack)%nat
         | None => True
         end.
Proof.
  intros fuel; induction fuel as [| fuel IH]; intros stack skipTo n Hidx Hfuel.
  - destruct stack as [| e stack]; [| unfold stack_steps in Hfuel; simpl in Hfuel; lia].
    exists []. split; [reflexivity |]. split; [constructor | exact I].
  - cbn [iterDecorationSet].
    destruct (JS.pop stack) as [below [top |]] eqn:Hpop.
    2: { apply pop_None in Hpop. subst. exists [].
         split; [reflexivity |]. split; [constructor | exact I]. }
    apply pop_Some in Hpop. subst stack.
    rewrite stack_steps_app in Hfuel.
    apply Forall_app in Hidx as [Hbelow Htop]. inversion Htop as [| ? ? Hle _]; subst.
    assert (Hone : forall e, stack_steps [e] = S (2 * list_sum (List.map nodes (ahead e))))
      by (intros e; unfold stack_steps; simpl; lia).
    assert (Hdone : forall e, stack_decos [e] = list_sum (List.map decos (ahead e)))
      by (intros e; unfold stack_decos; simpl; lia).
    rewrite Hone in Hfuel.
    destruct (Nat.eqb_spec (it_index top) (List.length (DecorationSet.children (it_set top))))
      as [Heq | Hne].
    + destruct (IH below skipTo n Hbelow ltac:(lia)) as [stack' [Hrun [Hidx' Htop']]].
      exists stack'. split; [exact Hrun |]. split; [exact Hidx' |].
      destruct (top_of stack') as [next |]; [| exact I].
      rewrite stack_steps_app, stack_decos_app, Hone. lia.
    + destruct (nth_error (DecorationSet.children (it_set top)) (it_index top))
        as [next |] eqn:Hnext.
      2: { apply nth_error_None in Hnext. lia. }
      cbn [it_offset].
      set (top' := mkIteratedSet (it_offset top + DecorationSet.length next)
                     (it_set top) (S (it_index top))).
      assert (Hahead : ahead top = next :: ahead top').
      { unfold ahead, top'. cbn [it_index it_set]. apply skipn_nth_error. exact Hnext. }
      assert (Htop'ok : (it_index top' <= List.length (DecorationSet.children (it_set top')))%nat)
        by (unfold top'; cbn [it_index it_set]; lia).
      rewrite Hahead, map_cons, list_sum_cons in Hfuel.
      pose proof (nodes_unfold next) as Hnodes.
      destruct (it_offset top + DecorationSet.length next >=? skipTo).
      * eexists. split; [reflexivity |]. split.
        -- apply Forall_app. split; [exact Hbelow |].
           constructor; [exact Htop'ok |]. constructor; [| constructor].
           cbn [it_index]. lia.
        -- assert (Hsplit : forall x, below ++ [top'; x] = (below ++ [top']) ++ [x])
             by (intros x; rewrite <- app_assoc; reflexivity).
           unfold top_of. rewrite Hsplit, pop_snoc. cbn [snd it_set].
           rewrite !stack_steps_app, !stack_decos_app, !Hone, !Hdone, Hahead.
           change (ahead (mkIteratedSet (it_offset top) next 0))
             with (DecorationSet.children next).
           rewrite !map_cons, !list_sum_cons, (decos_unfold next). lia.
      * destruct (IH (below ++ [top']) skipTo n) as [stack' [Hrun [Hidx' Htop']]].
        -- apply Forall_app. split; [exact Hbelow |]. constructor; [exact Htop'ok | constructor].
        -- rewrite stack_steps_app, Hone. lia.
        -- exists stack'. split; [exact Hrun |]. split; [exact Hidx' |].
           destruct (top_of stack') as [next' |]; [| exact I].
           rewrite !stack_steps_app, !stack_decos_app, !Hone, !Hdone in *.
           rewrite Hahead, !map_cons, !list_sum_cons. lia.
Qed.

Lemma addIterToHeap_progress :
  forall fuel heap stack skipTo n bound,
    (stack_steps stack < fuel)%nat -> indices_ok stack ->
    (stack_steps stack <= bound)%nat -> Forall (elt_live bound) heap ->
    exists heap',
      addIterToHeap fuel heap stack skipTo n = Ok heap' n
      /\ Forall (elt_live bound) heap'
      /\ (heap_weight heap' <= heap_weight heap + 2 * stack_decos stack)%nat.
Proof.
  intros fuel; induction fuel as [| fuel IH];
    intros heap stack skipTo n bound Hfuel Hidx Hbound Hheap; [lia |].
  cbn [addIterToHeap]. unfold bind.
  destruct (iterDecorationSet_progress fuel stack skipTo n Hidx ltac:(lia))
    as [stack' [Hrun [Hidx' Htop]]].
  rewrite Hrun.
  destruct (top_of stack') as [next |]; [| exists heap; repeat split; [assumption | lia]].
  destruct Htop as [Hsteps Hdecos].
  set (local := DecorationSet.local (it_set next)) in *.
  set (leaf := if nonempty (DecorationSet.children (it_set next)) then None else Some stack').
  set (heap1 := if nonempty local
                then addToHeap heap (LineCursor (mkLineLocalSet (it_offset next) local 0 leaf))
                else heap).
  assert (Hheap1 : Forall (elt_live bound) heap1
                   /\ (heap_weight heap1
                       <= heap_weight heap + 2 * List.length local
                          + match leaf with Some st => 2 * stack_decos st | None => 0 end)%nat).
  { unfold heap1. destruct local as [| d local'] eqn:Hlocal; cbn [nonempty].
    - split; [exact Hheap | lia].
    - split.
      + apply addToHeap_Forall; [| exact Hheap].
        cbn [elt_live ll_index ll_decorations ll_next]. split; [simpl; lia |].
        unfold leaf. destruct (nonempty (DecorationSet.children (it_set next)));
          [exact I | split; [exact Hidx' | lia]].
      + rewrite heap_weight_addToHeap.
        cbn [elt_weight ll_index ll_decorations ll_next]. rewrite Nat.sub_0_r. lia. }
  destruct Hheap1 as [Hlive1 Hweight1].
  destruct leaf as [st |] eqn:Hleaf; cbn [is_some].
  - exists heap1. split; [reflexivity |]. split; [exact Hlive1 |].
    assert (st = stack').
    { unfold leaf in Hleaf. destruct (nonempty _) in Hleaf; congruence. }
    subst st. lia.
  - destruct (IH heap1 stack' skipTo n bound ltac:(lia) Hidx' ltac:(lia) Hlive1)
      as [heap' [Hrun' [Hlive' Hweight']]].
    exists heap'. split; [exact Hrun' |]. split; [exact Hlive' | lia].
Qed.

Lemma visit_progress :
  forall heap from to heightOnly builder deco offset heap' from' builder' bound,
    buildLineElements_visit heap from to heightOnly builder deco offset
    = (heap', from', builder') ->
    Forall (elt_live bound) heap ->
    Forall (elt_live bound) heap' /\ (heap_weight heap' <= heap_weight heap + 1)%nat.
Proof.
  intros heap from to heightOnly builder deco offset heap' from' builder' bound Hv Hlive.
  assert (Hsame : Forall (elt_live bound) heap /\ (heap_weight heap <= heap_weight heap + 1)%nat)
    by (split; [exact Hlive | lia]).
  unfold buildLineElements_visit in Hv.
  destruct (Decoration.to deco + offset >=? from); [| inversion Hv; subst; exact Hsame].
  destruct (Decoration.desc deco) as [did spec | did spec].
  - destruct (if heightOnly then truthy_collapsed (collapsed spec) else Desc.affectsSpans spec);
      [| inversion Hv; subst; exact Hsame].
    destruct (truthy_collapsed (collapsed spec)); inversion Hv; subst; [exact Hsame |].
    split; [apply addToHeap_Forall; [exact I | exact Hlive] |].
    rewrite heap_weight_addToHeap. simpl. lia.
  - destruct (widget spec) as [w |]; [| inversion Hv; subst; exact Hsame].
    destruct (if heightOnly then WidgetType.estimatedHeight w >? -1 else true);
      inversion Hv; subst; exact Hsame.
Qed.

Lemma buildLineElements_loop_progress :
  forall fuel heap from to heightOnly builder n bound,
    (heap_weight heap + bound + 2 <= fuel)%nat ->
    Forall (elt_live bound) heap ->
    exists builder', buildLineElements_loop fuel heap from to heightOnly builder n
                     = Ok builder' n.
Proof.
  intros fuel; induction fuel as [| fuel IH];
    intros heap from to heightOnly builder n bound Hfuel Hlive; [lia |].
  destruct heap as [| e rest]; [exists builder; reflexivity |].
  cbn [buildLineElements_loop].
  destruct (takeFromHeap_cons e rest) as [heap1 [Htake Hperm]]. rewrite Htake.
  inversion Hlive as [| ? ? He Hrest]; subst.
  assert (Hlive1 : Forall (elt_live bound) heap1)
    by (eapply Permutation_Forall; [symmetry; exact Hperm | exact Hrest]).
  assert (Hweight : heap_weight (e :: rest) = (elt_weight e + heap_weight heap1)%nat).
  { rewrite (heap_weight_Permutation _ _ Hperm). reflexivity. }
  destruct e as [next | deco].
  - destruct He as [Hindex Hnext].
    destruct (nth_error (ll_decorations next) (ll_index next)) as [deco |] eqn:Hdeco.
    2: { apply nth_error_None in Hdeco. lia. }
    destruct (Decoration.from deco + ll_offset next >? to); [exists builder; reflexivity |].
    destruct (buildLineElements_visit heap1 from to heightOnly builder deco (ll_offset next))
      as [[heap2 from2] builder2] eqn:Hvisit.
    destruct (visit_progress _ _ _ _ _ _ _ _ _ _ bound Hvisit Hlive1) as [Hlive2 Hweight2].
    cbn [ll_index ll_decorations ll_next ll_offset].
    cbn [elt_weight] in Hweight.
    destruct (Nat.ltb_spec (S (ll_index next)) (List.length (ll_decorations next)))
      as [Hmore | Hlast].
    + apply (IH _ _ _ _ _ _ bound).
      * rewrite heap_weight_addToHeap. cbn [elt_weight ll_index ll_decorations ll_next]. lia.
      * apply addToHeap_Forall; [| exact Hlive2].
        cbn [elt_live ll_index ll_decorations ll_next]. split; [lia | exact Hnext].
    + destruct (ll_next next) as [stack |].
      * destruct Hnext as [Hidx Hsteps]. unfold bind.
        destruct (addIterToHeap_progress fuel heap2 stack from2 n bound
                    ltac:(lia) Hidx Hsteps Hlive2) as [heap3 [Hadd [Hlive3 Hweight3]]].
        rewrite Hadd. apply (IH _ _ _ _ _ _ bound); [lia | exact Hlive3].
      * apply (IH _ _ _ _ _ _ bound); [lia | exact Hlive2].
  - destruct (Decoration.to deco >=? to); [exists builder; reflexivity |].
    apply (IH _ _ _ _ _ _ bound); [| exact Hlive1].
    cbn [elt_weight] in Hweight. lia.
Qed.

Lemma buildLineElements_heap_progress :
  forall fuel sets from heap0 n bound,
    (bound < fuel)%nat ->
    (2 * list_sum (List.map nodes sets) <= bound)%nat ->
    Forall (elt_live bound) heap0 ->
    exists heap,
      foldM (fun heap set =>
               if DecorationSet.size set >? 0 then
                 heap <- addIterToHeap fuel heap [mkIteratedSet 0 set 0] from ;;
                 ret (if nonempty (DecorationSet.local set)
                      then addToHeap heap
                             (LineCursor (mkLineLocalSet 0 (DecorationSet.local set) 0 None))
                      else heap)
               else ret heap)
            sets heap0 n = Ok heap n
      /\ Forall (elt_live bound) heap
      /\ (heap_weight heap <= heap_weight heap0 + 2 * list_sum (List.map decos sets))%nat.
Proof.
  intros fuel sets from. induction sets as [| set rest IH];
    intros heap0 n bound Hfuel Hbound Hlive.
  - exists heap0. split; [reflexivity |]. split; [exact Hlive | simpl; lia].
  - rewrite map_cons, list_sum_cons in Hbound.
    cbn [foldM]. unfold bind at 1.
    assert (Hrest : forall h,
              Forall (elt_live bound) h ->
              (heap_weight h <= heap_weight heap0 + 2 * decos set)%nat ->
              exists heap,
                foldM (fun heap set =>
                         if DecorationSet.size set >? 0 then
                           heap <- addIterToHeap fuel heap [mkIteratedSet 0 set 0] from ;;
                           ret (if nonempty (DecorationSet.local set)
                                then addToHeap heap
                                       (LineCursor
                                          (mkLineLocalSet 0 (DecorationSet.local set) 0 None))
                                else heap)
                         else ret heap)
                      rest h n = Ok heap n
                /\ Forall (elt_live bound) heap
                /\ (heap_weight heap
                    <= heap_weight heap0 + 2 * list_sum (List.map decos (set :: rest)))%nat).
    { intros h Hh Hw. destruct (IH h n bound Hfuel ltac:(lia) Hh) as [heap [Hrun [Hl Hwt]]].
      exists heap. split; [exact Hrun |]. split; [exact Hl |].
      rewrite map_cons, list_sum_cons. lia. }
    destruct (DecorationSet.size set >? 0).
    + assert (Hsteps : stack_steps [mkIteratedSet 0 set 0] = (2 * nodes set - 1)%nat).
      { unfold stack_steps, ahead. cbn [List.map it_index it_set skipn list_sum].
        rewrite (nodes_unfold set). simpl. lia. }
      assert (Hdecos : (stack_decos [mkIteratedSet 0 set 0]
                        + List.length (DecorationSet.local set) = decos set)%nat).
      { unfold stack_decos, ahead. cbn [List.map it_index it_set skipn].
        rewrite (decos_unfold set). simpl. lia. }
      pose proof (nodes_unfold set) as Hnodes.
      unfold bind at 1.
      destruct (addIterToHeap_progress fuel heap0 [mkIteratedSet 0 set 0] from n bound)
        as [h [Hadd [Hl Hw]]];
        [lia | repeat constructor; simpl; lia | lia | exact Hlive |].
      rewrite Hadd. cbv [ret]. apply Hrest.
      * destruct (DecorationSet.local set) as [| d local'] eqn:Hlocal; cbn [nonempty];
          [exact Hl |].
        apply addToHeap_Forall; [| exact Hl].
        cbn [elt_live ll_index ll_decorations ll_next]. split; [simpl; lia | exact I].
      * destruct (DecorationSet.local set) as [| d local'] eqn:Hlocal; cbn [nonempty].
        -- lia.
        -- rewrite heap_weight_addToHeap.
           cbn [elt_weight ll_index ll_decorations ll_next]. rewrite Nat.sub_0_r. lia.
    + cbv [ret]. apply Hrest; [exact Hlive | lia].
Qed.

(** X22.  [buildLineElements] returns, and does not throw, on any sets: the
    loops end within twice the number of decorations plus twice the number of
    nodes of the sets, plus two, iterations. *)
Theorem buildLineElements_returns :
  forall fuel sets from to builder heightOnly n,
    (2 * list_sum (List.map decos sets) + 2 * list_sum (List.map nodes sets) + 2 <= fuel)%nat ->
    exists builder',
      buildLineElements fuel sets from to builder heightOnly n = Ok builder' n.
Proof.
  intros fuel sets from to builder heightOnly n Hfuel.
  unfold buildLineElements. unfold bind at 1. unfold buildLineElements_heap.
  destruct (buildLineElements_heap_progress fuel sets from [] n
              (2 * list_sum (List.map nodes sets))%nat ltac:(lia) ltac:(lia) ltac:(constructor))
    as [heap [Hheap [Hlive Hweight]]].
  rewrite Hheap.
  destruct (buildLineElements_loop_progress fuel heap from to heightOnly builder n
              (2 * list_sum (List.map nodes sets))%nat) as [builder' Hloop];
    [unfold heap_weight in Hweight at 2; simpl in Hweight; lia | exact Hlive |].
  unfold bind. rewrite Hloop. eexists. reflexivity.
Qed.

Lemma buildLineElements_returns_witness :
  exists builder',
    buildLineElements 32 [line_leaf; twoLeaves] 0 20 (mkLineBuilder [] []) false 1%N
    = Ok builder' 1%N.
Proof.
  apply (buildLineElements_returns 32 [line_leaf; twoLeaves] 0 20 (mkLineBuilder [] [])
           false 1%N).
  simpl. lia.
Defined.

(* ------------------------------------------------------------------ *)
(** ** changedRanges returns (l.321-333, 617-748) *)

Lemma top_of_None : forall stack, top_of stack = None -> stack = [].
Proof.
  intros stack H. unfold top_of in H.
  destruct (JS.pop stack) as [below top] eqn:Hpop. simpl in H. subst top.
  apply pop_None in Hpop. exact Hpop.
Qed.

Lemma stack_steps_pos :
  forall stack, stack <> [] -> (0 < stack_steps stack)%nat.
Proof.
  intros [| e stack] H; [contradiction |]. unfold stack_steps. simpl. lia.
Qed.

(** [iterDecorationSet] on a stack that is not empty uses it up. *)
Lemma iterDecorationSet_uses :
  forall fuel stack skipTo n,
    indices_ok stack -> (stack_steps stack <= fuel)%nat ->
    exists stack',
      iterDecorationSet fuel stack skipTo n = Ok stack' n
      /\ indices_ok stack'
      /\ (stack_steps stack' <= stack_steps stack)%nat
      /\ (stack <> [] -> (stack_steps stack' < stack_steps stack)%nat)
      /\ (stack_pending stack' <= stack_decos stack)%nat.
Proof.
  intros fuel stack skipTo n Hidx Hfuel.
  destruct (iterDecorationSet_progress fuel stack skipTo n Hidx Hfuel)
    as [stack' [Hrun [Hidx' Htop]]].
  exists stack'. split; [exact Hrun |]. split; [exact Hidx' |].
  unfold stack_pending.
  destruct (top_of stack') as [next |] eqn:Hnext.
  - destruct Htop as [Hsteps Hdecos]. repeat split; lia.
  - apply top_of_None in Hnext. subst stack'.
    repeat split; [unfold stack_steps; simpl; lia | | unfold stack_decos; simpl; lia].
    intros Hne. apply stack_steps_pos in Hne. unfold stack_steps at 1. simpl. lia.
Qed.

Lemma cmp_weight_Permutation :
  forall h h', Permutation h h' ->
    list_sum (List.map cmp_weight h) = list_sum (List.map cmp_weight h').
Proof.
  intros h h' HP. apply list_sum_Permutation. apply Permutation_map. exact HP.
Qed.

Lemma cmp_weight_addToHeap :
  forall h e,
    list_sum (List.map cmp_weight (addToHeap h e))
    = (cmp_weight e + list_sum (List.map cmp_weight h))%nat.
Proof.
  intros h e. rewrite (cmp_weight_Permutation _ _ (addToHeap_perm h e)). reflexivity.
Qed.

Lemma forward_progress :
  forall fuel s start next n,
    side_ok s -> top_of (stack s) = Some next ->
    (stack_steps (stack s) <= fuel)%nat ->
    exists s' newTip n',
      forward fuel s start next n = Ok (s', newTip) n'
      /\ side_ok s'
      /\ (stack_steps (stack s') < stack_steps (stack s))%nat
      /\ (side_weight s' <= side_weight s)%nat.
Proof.
  intros fuel s start next n [Hlive Hidx] Htop Hfuel.
  assert (Hne : stack s <> []).
  { intros Heq. rewrite Heq in Htop. discriminate. }
  unfold forward.
  set (first :=
         if nonempty (DecorationSet.local (it_set next)) then
           l <- alloc ;;
           let local := mkLocalSet l (it_offset next) (DecorationSet.local (it_set next)) 0 in
           let this := mkSide (addToHeap (heap s) (Cursor local)) (active s)
                         (widgets s) (tip s) (collapsedTo s) (stack s) in
           if negb (nonempty (DecorationSet.children (it_set next)))
           then ret (mkSide (heap this) (active this) (widgets this) (Some l)
                       (collapsedTo this) (stack this), true)
           else ret (this, false)
         else ret (s, false)).
  assert (Hfirst : exists s1 newTip n1,
             first n = Ok (s1, newTip) n1
             /\ Forall cmp_live (heap s1) /\ stack s1 = stack s
             /\ (list_sum (List.map cmp_weight (heap s1))
                 <= list_sum (List.map cmp_weight (heap s))
                    + 2 * List.length (DecorationSet.local (it_set next)))%nat).
  { unfold first. destruct (DecorationSet.local (it_set next)) as [| d rest] eqn:Hlocal;
      cbn [nonempty].
    - exists s, false, n. repeat split; [exact Hlive | lia].
    - cbv [bind alloc]. cbn [heap active widgets tip collapsedTo stack].
      assert (Hheap : Forall cmp_live
                        (addToHeap (heap s)
                           (Cursor (mkLocalSet n (it_offset next) (d :: rest) 0)))).
      { apply addToHeap_Forall; [simpl; lia | exact Hlive]. }
      assert (Hw : (list_sum (List.map cmp_weight
                      (addToHeap (heap s)
                         (Cursor (mkLocalSet n (it_offset next) (d :: rest) 0))))
                    <= list_sum (List.map cmp_weight (heap s))
                       + 2 * List.length (d :: rest))%nat).
      { rewrite cmp_weight_addToHeap. cbn [cmp_weight ls_decorations ls_index].
        rewrite Nat.sub_0_r. lia. }
      destruct (negb (nonempty (DecorationSet.children (it_set next))));
        eexists; eexists; eexists; (split; [reflexivity |]);
        cbn [heap stack]; repeat split; assumption. }
  destruct Hfirst as [s1 [newTip [n1 [Hrun1 [Hlive1 [Hstack1 Hw1]]]]]].
  unfold bind at 1. rewrite Hrun1. unfold bind at 1.
  rewrite Hstack1.
  destruct (iterDecorationSet_uses fuel (stack s) start n1 Hidx Hfuel)
    as [stack' [Hiter [Hidx' [_ [Hsteps Hpend]]]]].
  rewrite Hiter. cbv [ret].
  eexists; eexists; eexists. split; [reflexivity |].
  unfold side_ok, side_weight. cbn [heap stack].
  split; [split; assumption |]. split; [apply Hsteps; exact Hne |].
  unfold stack_pending at 2. rewrite Htop. lia.
Qed.

Lemma top_of_nonempty : forall stack e, top_of stack = Some e -> stack <> [].
Proof. intros stack e H Heq. rewrite Heq in H. discriminate. Qed.

Lemma forwardIter_progress :
  forall fuel this side n,
    (cmp_steps this < fuel)%nat -> cmp_ok this ->
    exists this' n',
      forwardIter fuel this side n = Ok this' n'
      /\ cmp_ok this'
      /\ (cmp_total this' <= cmp_total this)%nat
      /\ (cmp_steps this' <= cmp_steps this)%nat.
Proof.
  intros fuel; induction fuel as [| fuel IH]; intros this side n Hfuel Hok; [lia |].
  assert (Hstay : exists this' n',
             Ok this n = Ok this' n'
             /\ cmp_ok this' /\ (cmp_total this' <= cmp_total this)%nat
             /\ (cmp_steps this' <= cmp_steps this)%nat).
  { exists this, n. repeat split; try apply Hok; lia. }
  cbn [forwardIter]. destruct (side >? 0); [| exact Hstay].
  destruct Hok as [[HliveA HidxA] [HliveB HidxB]].
  unfold cmp_steps in Hfuel.
  assert (HforwardA : forall nA side',
             top_of (stack (a this)) = Some nA ->
             exists this' n',
               ('(sideA, newTip) <- forward fuel (a this) (pos this) nA ;;
                forwardIter fuel
                  (mkComparison sideA (b this) (pos this) (end_ this) (changes this))
                  (if newTip then Z.land side (Z.lnot SIDE_A) else side')) n
               = Ok this' n'
               /\ cmp_ok this' /\ (cmp_total this' <= cmp_total this)%nat
               /\ (cmp_steps this' <= cmp_steps this)%nat).
  { intros nA side' HnA.
    destruct (forward_progress fuel (a this) (pos this) nA n (conj HliveA HidxA) HnA
                ltac:(lia)) as [sA [newTip [n1 [Hrun [HokA [Hsteps Hw]]]]]].
    unfold bind. rewrite Hrun.
    destruct (IH (mkComparison sA (b this) (pos this) (end_ this) (changes this))
                (if newTip then Z.land side (Z.lnot SIDE_A) else side') n1)
      as [this' [n' [Hrun' [Hok' [Hw' Hs']]]]].
    - unfold cmp_steps. cbn [a b]. lia.
    - split; [exact HokA | split; assumption].
    - exists this', n'. split; [exact Hrun' |]. split; [exact Hok' |].
      unfold cmp_total, cmp_steps in *. cbn [a b] in *. lia. }
  assert (HforwardB : forall nB side',
             top_of (stack (b this)) = Some nB ->
             exists this' n',
               ('(sideB, newTip) <- forward fuel (b this) (pos this) nB ;;
                forwardIter fuel
                  (mkComparison (a this) sideB (pos this) (end_ this) (changes this))
                  (if newTip then Z.land side (Z.lnot SIDE_B) else side')) n
               = Ok this' n'
               /\ cmp_ok this' /\ (cmp_total this' <= cmp_total this)%nat
               /\ (cmp_steps this' <= cmp_steps this)%nat).
  { intros nB side' HnB.
    destruct (forward_progress fuel (b this) (pos this) nB n (conj HliveB HidxB) HnB
                ltac:(lia)) as [sB [newTip [n1 [Hrun [HokB [Hsteps Hw]]]]]].
    unfold bind. rewrite Hrun.
    destruct (IH (mkComparison (a this) sB (pos this) (end_ this) (changes this))
                (if newTip then Z.land side (Z.lnot SIDE_B) else side') n1)
      as [this' [n' [Hrun' [Hok' [Hw' Hs']]]]].
    - unfold cmp_steps. cbn [a b]. lia.
    - split; [split; assumption | exact HokB].
    - exists this', n'. split; [exact Hrun' |]. split; [exact Hok' |].
      unfold cmp_total, cmp_steps in *. cbn [a b] in *. lia. }
  destruct (top_of (stack (a this))) as [nA |] eqn:HnA;
    destruct (top_of (stack (b this))) as [nB |] eqn:HnB.
  - destruct ((it_offset nA =? it_offset nB) && DecorationSet.same (it_set nA) (it_set nB)).
    + destruct (iterDecorationSet_uses fuel (stack (a this)) (pos this) n HidxA ltac:(lia))
        as [stackA [HiterA [HidxA' [_ [HstepsA HpendA]]]]].
      destruct (iterDecorationSet_uses fuel (stack (b this)) (pos this) n HidxB ltac:(lia))
        as [stackB [HiterB [HidxB' [_ [HstepsB HpendB]]]]].
      specialize (HstepsA (top_of_nonempty _ _ HnA)).
      specialize (HstepsB (top_of_nonempty _ _ HnB)).
      unfold bind. rewrite HiterA, HiterB.
      match goal with
      | |- exists this' n', forwardIter fuel ?st ?sd ?m = _ /\ _ =>
          destruct (IH st sd m) as [this' [n' [Hrun' [Hok' [Hw' Hs']]]]]
      end.
      * unfold cmp_steps. cbn [a b stack]. lia.
      * split; split; cbn [a b heap stack]; assumption.
      * exists this', n'. split; [exact Hrun' |]. split; [exact Hok' |].
        unfold cmp_total, cmp_steps, side_weight in *. cbn [a b heap stack] in *.
        unfold stack_pending at 3 4. rewrite HnA, HnB. lia.
    + destruct ((it_offset nA <? it_offset nB)
                || (it_offset nA =? it_offset nB)
                   && ((List.length (stack (a this)) =? 1)%nat
                       || (DecorationSet.length (it_set nA)
                           >=? DecorationSet.length (it_set nB)))).
      * apply HforwardA. reflexivity.
      * apply HforwardB. reflexivity.
  - apply HforwardA. reflexivity.
  - apply HforwardB. reflexivity.
  - exact Hstay.
Qed.

Lemma advancePos_frame :
  forall this p,
    heap (a (advancePos this p)) = heap (a this)
    /\ stack (a (advancePos this p)) = stack (a this)
    /\ heap (b (advancePos this p)) = heap (b this)
    /\ stack (b (advancePos this p)) = stack (b this)
    /\ tip (a (advancePos this p)) = tip (a this)
    /\ tip (b (advancePos this p)) = tip (b this).
Proof.
  intros this p. unfold advancePos.
  destruct ((if p >? end_ this then end_ this else p) <=? pos this); [repeat split |].
  destruct (nonempty (widgets (a this)) || nonempty (widgets (b this)));
    cbn [a b heap stack tip]; repeat split.
Qed.

Lemma heap_a_advancePos :
  forall this p, heap (a (advancePos this p)) = heap (a this).
Proof. intros. apply advancePos_frame. Qed.

Lemma stack_a_advancePos :
  forall this p, stack (a (advancePos this p)) = stack (a this).
Proof. intros. apply advancePos_frame. Qed.

Lemma heap_b_advancePos :
  forall this p, heap (b (advancePos this p)) = heap (b this).
Proof. intros. apply advancePos_frame. Qed.

Lemma stack_b_advancePos :
  forall this p, stack (b (advancePos this p)) = stack (b this).
Proof. intros. apply advancePos_frame. Qed.

(** The state of a comparison as the measures read it. *)
Ltac frame :=
  unfold cmp_ok, cmp_total, cmp_steps, side_ok, side_weight in *;
  cbn [side_of with_side with_pos with_heap with_active with_widgets with_collapsedTo
       a b heap stack] in *;
  rewrite ?heap_a_advancePos, ?stack_a_advancePos, ?heap_b_advancePos, ?stack_b_advancePos
    in *;
  cbn [side_of with_side with_pos with_heap with_active with_widgets with_collapsedTo
       a b heap stack] in *.

Lemma advance_rest_progress :
  forall fuel this w next n,
    cmp_ok this -> (cmp_steps this < fuel)%nat ->
    (ls_index next <= List.length (ls_decorations next))%nat ->
    exists this' n',
      advance_rest fuel this w next n = Ok this' n'
      /\ cmp_ok this'
      /\ (cmp_total this'
          <= cmp_total this + 2 * (List.length (ls_decorations next) - ls_index next))%nat
      /\ (cmp_steps this' <= cmp_steps this)%nat.
Proof.
  intros fuel this w next n Hok Hfuel Hindex. unfold advance_rest.
  destruct (Nat.ltb_spec (ls_index next) (List.length (ls_decorations next))) as [Hlt | Hge].
  - eexists; eexists. split; [reflexivity |].
    destruct w; frame.
    + rewrite cmp_weight_addToHeap. cbn [cmp_weight].
      repeat split; try apply Hok; try lia.
      apply addToHeap_Forall; [exact Hlt | apply Hok].
    + rewrite cmp_weight_addToHeap. cbn [cmp_weight].
      repeat split; try apply Hok; try lia.
      apply addToHeap_Forall; [exact Hlt | apply Hok].
  - assert (Hfi : forall side,
               exists this' n',
                 forwardIter fuel this side n = Ok this' n'
                 /\ cmp_ok this'
                 /\ (cmp_total this'
                     <= cmp_total this
                        + 2 * (List.length (ls_decorations next) - ls_index next))%nat
                 /\ (cmp_steps this' <= cmp_steps this)%nat).
    { intros side.
      destruct (forwardIter_progress fuel this side n Hfuel Hok)
        as [this' [n' [Hrun [Hok' [Hw Hs]]]]].
      exists this', n'. repeat split; try apply Hok'; try assumption; lia. }
    destruct (match tip (a this) with Some l => (l =? lid next)%N | None => false end);
      [apply Hfi |].
    destruct (match tip (b this) with Some l => (l =? lid next)%N | None => false end);
      [apply Hfi |].
    exists this, n. repeat split; try apply Hok; lia.
Qed.

Lemma advance_progress :
  forall fuel this w n e rest,
    cmp_ok this -> heap (side_of this w) = e :: rest ->
    (cmp_steps this < fuel)%nat ->
    exists this' n',
      advance fuel this w n = Ok this' n'
      /\ cmp_ok this'
      /\ (cmp_total this' < cmp_total this)%nat
      /\ (cmp_steps this' <= cmp_steps this)%nat.
Proof.
  intros fuel this w n e rest Hok Hheap Hfuel. unfold advance. rewrite Hheap.
  destruct (takeFromHeap_cons e rest) as [heap' [Htake Hperm]]. rewrite Htake.
  assert (Hlive : cmp_live e /\ Forall cmp_live heap').
  { assert (Hall : Forall cmp_live (e :: rest))
      by (rewrite <- Hheap; destruct w; apply Hok).
    inversion Hall; subst. split; [assumption |].
    eapply Permutation_Forall; [symmetry; exact Hperm | assumption]. }
  destruct Hlive as [He Hlive'].
  assert (Hweight : list_sum (List.map cmp_weight (heap (side_of this w)))
                    = (cmp_weight e + list_sum (List.map cmp_weight heap'))%nat).
  { rewrite Hheap, map_cons, list_sum_cons, (cmp_weight_Permutation _ _ Hperm). reflexivity. }
  (* what is left to do once the element taken is accounted for *)
  assert (Hrest : forall this1 next1,
             cmp_ok this1 -> (cmp_steps this1 <= cmp_steps this)%nat ->
             (ls_index next1 <= List.length (ls_decorations next1))%nat ->
             (cmp_total this1 + 2 * (List.length (ls_decorations next1) - ls_index next1)
              < cmp_total this)%nat ->
             exists this' n',
               advance_rest fuel this1 w next1 n = Ok this' n'
               /\ cmp_ok this'
               /\ (cmp_total this' < cmp_total this)%nat
               /\ (cmp_steps this' <= cmp_steps this)%nat).
  { intros this1 next1 Hok1 Hs1 Hidx1 Hw1.
    destruct (advance_rest_progress fuel this1 w next1 n Hok1 ltac:(lia) Hidx1)
      as [this' [n' [Hrun [Hok' [Hw' Hs']]]]].
    exists this', n'. repeat split; try apply Hok'; try assumption; lia. }
  destruct e as [next | deco].
  - cbn [cmp_live] in He. cbn [cmp_weight] in Hweight.
    destruct (nth_error (ls_decorations next) (ls_index next)) as [deco |] eqn:Hdeco.
    2: { apply nth_error_None in Hdeco. lia. }
    cbn [ls_offset ls_decorations ls_index lid].
    match goal with
    | |- exists _ _, (if ?c then _ else _) _ = _ /\ _ => destruct c
    end.
    { eexists; eexists. split; [reflexivity |].
      destruct w; frame; simpl list_sum;
        (split; [repeat split; try apply Hok; constructor |]); split; lia. }
    destruct (Decoration.desc deco) as [did spec | did spec].
    + match goal with
      | |- exists _ _, (if ?c then _ else _) _ = _ /\ _ => destruct c
      end.
      * apply Hrest; cbn [ls_index ls_decorations]; try lia;
          destruct (truthy_collapsed (collapsed spec));
          try destruct (collapsed spec);
          try match goal with
              | |- context [if ?c then with_pos _ _ else _] => destruct c
              end;
          destruct w; frame; rewrite ?cmp_weight_addToHeap; cbn [cmp_weight];
          try (repeat split; try apply Hok; try assumption;
               try (apply addToHeap_Forall; [exact I | assumption]); fail);
          try lia.
      * apply Hrest; cbn [ls_index ls_decorations]; try lia;
          destruct w; frame;
          try (repeat split; try apply Hok; try assumption; fail); try lia.
    + destruct (widget spec) as [wd |].
      * apply Hrest; cbn [ls_index ls_decorations]; try lia;
          destruct w; frame;
          try (repeat split; try apply Hok; try assumption; fail); try lia.
      * apply Hrest; cbn [ls_index ls_decorations]; try lia;
          destruct w; frame;
          try (repeat split; try apply Hok; try assumption; fail); try lia.
  - cbn [cmp_weight] in Hweight.
    eexists; eexists. split; [reflexivity |].
    destruct w; frame;
      (split; [repeat split; try apply Hok; assumption |]); split; lia.
Qed.

Lemma run_progress :
  forall fuel this n,
    cmp_ok this -> (cmp_total this + cmp_steps this + 2 <= fuel)%nat ->
    exists c n', run fuel this n = Ok c n'.
Proof.
  intros fuel; induction fuel as [| fuel IH]; intros this n Hok Hfuel; [lia |].
  cbn [run].
  assert (Hstep : forall w e rest,
             heap (side_of this w) = e :: rest ->
             exists c n', (this' <- advance fuel this w ;; run fuel this') n = Ok c n').
  { intros w e rest Hheap.
    destruct (advance_progress fuel this w n e rest Hok Hheap ltac:(lia))
      as [this' [n' [Hrun [Hok' [Hw Hs]]]]].
    unfold bind. rewrite Hrun. apply IH; [exact Hok' | lia]. }
  destruct (heap (a this)) as [| hA restA] eqn:HA;
    destruct (heap (b this)) as [| hB restB] eqn:HB.
  - destruct (negb (compareWidgetSets (widgets (a this)) (widgets (b this))));
      eexists; eexists; reflexivity.
  - apply (Hstep OnB hB restB). exact HB.
  - apply (Hstep OnA hA restA). exact HA.
  - destruct (or_else (heapPos hA - heapPos hB)
                (Desc.bias (desc hA) - Desc.bias (desc hB)) <? 0).
    + apply (Hstep OnA hA restA). exact HA.
    + apply (Hstep OnB hB restB). exact HB.
Qed.

Lemma compare_run_progress :
  forall fuel x startA y startB endB c0 n,
    (2 * (decos x + decos y) + 2 * (nodes x + nodes y) <= fuel)%nat ->
    exists c n', compare_run fuel x startA y startB endB c0 n = Ok c n'.
Proof.
  intros fuel x startA y startB endB c0 n Hfuel.
  unfold compare_run, DecorationSetComparison_new.
  set (init := mkComparison (ComparisonSide_new [mkIteratedSet (startB - startA) x 0])
                 (ComparisonSide_new [mkIteratedSet 0 y 0]) startB endB c0).
  assert (Hroot_steps : forall o s, stack_steps [mkIteratedSet o s 0] = (2 * nodes s - 1)%nat).
  { intros o s. unfold stack_steps, ahead. cbn [List.map it_index it_set skipn].
    rewrite (nodes_unfold s). simpl. lia. }
  assert (Hroot_pending : forall o s, stack_pending [mkIteratedSet o s 0] = decos s).
  { intros o s. unfold stack_pending, stack_decos, ahead, top_of.
    cbn [JS.pop removelast last List.map snd it_index it_set skipn].
    rewrite (decos_unfold s). simpl. lia. }
  assert (Hok : cmp_ok init).
  { unfold init, cmp_ok, side_ok, ComparisonSide_new. cbn [a b heap stack].
    repeat split; repeat constructor; cbn [it_index]; lia. }
  assert (Hsteps : cmp_steps init = (2 * nodes x - 1 + (2 * nodes y - 1))%nat).
  { unfold init, cmp_steps, ComparisonSide_new. cbn [a b stack].
    rewrite !Hroot_steps. reflexivity. }
  assert (Htotal : cmp_total init = (2 * decos x + 2 * decos y)%nat).
  { unfold init, cmp_total, side_weight, ComparisonSide_new. cbn [a b heap stack].
    rewrite !Hroot_pending. simpl. lia. }
  pose proof (nodes_unfold x) as Hx. pose proof (nodes_unfold y) as Hy.
  destruct (forwardIter_progress fuel init (Z.lor SIDE_A SIDE_B) n ltac:(lia) Hok)
    as [cmp [n1 [Hrun [Hok' [Hw Hs]]]]].
  unfold bind. rewrite Hrun. apply run_progress; [exact Hok' | lia].
Qed.

Lemma changedRanges_loop_progress :
  forall fuel this other textDiff c0 oldPos newPos n,
    (2 * (decos this + decos other) + 2 * (nodes this + nodes other) <= fuel)%nat ->
    exists r n', changedRanges_loop fuel this other textDiff c0 oldPos newPos n = Ok r n'.
Proof.
  intros fuel this other textDiff.
  induction textDiff as [| range rest IH]; intros c0 oldPos newPos n Hfuel.
  - eexists; eexists; reflexivity.
  - cbn [changedRanges_loop]. unfold bind at 1.
    destruct ((fromB range >? newPos)
              && (negb (DecorationSet.same this other) || negb (oldPos =? newPos))).
    + destruct (compare_run_progress fuel this oldPos other newPos (fromB range) c0 n Hfuel)
        as [c [n1 Hrun]].
      rewrite Hrun. apply IH. exact Hfuel.
    + cbv [ret]. apply IH. exact Hfuel.
Qed.

(** X23.  [changedRanges] returns, and does not throw, on any two sets and any
    list of changed ranges: each comparison it runs ends within twice the
    number of decorations plus twice the number of nodes of the two sets
    iterations of each of its loops. *)
Theorem changedRanges_returns :
  forall fuel this other textDiff n,
    (2 * (decos this + decos other) + 2 * (nodes this + nodes other) <= fuel)%nat ->
    exists c n', changedRanges fuel this other textDiff n = Ok c n'.
Proof.
  intros fuel this other textDiff n Hfuel. unfold changedRanges.
  destruct (changedRanges_loop_progress fuel this other textDiff (mkChanges [] []) 0 0 n Hfuel)
    as [[[c oldPos] newPos] [n1 Hloop]].
  unfold bind. rewrite Hloop.
  destruct ((oldPos <? DecorationSet.length this) || (newPos <? DecorationSet.length other)).
  - apply compare_run_progress. exact Hfuel.
  - eexists; eexists; reflexivity.
Qed.

Lemma changedRanges_returns_witness :
  exists c n',
    changedRanges 20 line_leaf twoLeaves [mkChangedRange 4 6 4 8] 1%N = Ok c n'.
Proof.
  apply (changedRanges_returns 20 line_leaf twoLeaves [mkChangedRange 4 6 4 8] 1%N).
  simpl. lia.
Defined.
